(** * YouTube Player: URL validation, play history and playback process

    A shallow embedding of the two implementations of the application
    ([src/main.py], the Tkinter one, and [src/src/main.py], the PyQt6 one)
    and the properties of their URL validator, history store and
    process controller.

    Conventions of the embedding.
    - A Python [str] is a [string] whose characters are the code points
      U+0000..U+00FF; the Unicode classes used by [re] and [str.strip]
      are written out for that range.
    - A Python [dict] keeps insertion order, and [sorted] is stable, so
      a dict is an association list with pairwise distinct keys.
    - [datetime.now().isoformat()] is an input of the operation that
      calls it; timestamps are compared as Python compares strings.
    - The history file holds a JSON document or unparsable text; what
      [json.dump] and [json.load] do is modelled on documents. A history
      is a mapping of URLs to entries with a string timestamp and an
      integer play count, read by key; states that hold anything else
      are not covered.
    - Every effect that leaves the object (logging, dialogs, process
      calls, widget updates, file writes) is appended to a trace. *)

From Stdlib Require Import List String Ascii Bool ZArith NArith Lia Permutation.
From Stdlib Require OrdersEx DecimalString Sorted.
Import ListNotations.
Local Open Scope list_scope.

Set Implicit Arguments.

(** ** Characters and the classes [\w], [\S] and whitespace *)

Definition code (c : ascii) : N := N_of_ascii c.

Definition between (lo hi : N) (c : ascii) : bool :=
  (lo <=? code c)%N && (code c <=? hi)%N.

(** [str.isalnum] on U+0000..U+00FF: ASCII letters and digits, and in
    the Latin-1 supplement the letters and the numeric
    characters (superscripts and vulgar fractions). *)
Definition is_alnum (c : ascii) : bool :=
  between 48 57 c || between 65 90 c || between 97 122 c
  || between 170 170 c || between 178 179 c || between 181 181 c
  || between 185 186 c || between 188 190 c
  || between 192 214 c || between 216 246 c || between 248 255 c.

(** [\w] of a [str] pattern: alphanumeric or underscore. *)
Definition is_word (c : ascii) : bool := is_alnum c || Ascii.eqb c "_".

(** [str.isspace], which is also [\s]: TAB..CR, FS..US, space, NEL, NBSP. *)
Definition is_space (c : ascii) : bool :=
  between 9 13 c || between 28 32 c || between 133 133 c || between 160 160 c.

(** The class [[\w-]] and the class [\S]. *)
Definition word_or_hyphen (c : ascii) : bool := is_word c || Ascii.eqb c "-".
Definition non_space (c : ascii) : bool := negb (is_space c).

(** [str.strip]: the characters of a class are dropped at both ends;
    with no argument the class is whitespace. *)
Fixpoint lstrip_chars (drop : ascii -> bool) (l : list ascii) : list ascii :=
  match l with
  | c :: l' => if drop c then lstrip_chars drop l' else l
  | [] => []
  end.

Definition strip_chars (drop : ascii -> bool) (s : string) : string :=
  string_of_list_ascii
    (rev (lstrip_chars drop (rev (lstrip_chars drop (list_ascii_of_string s))))).

Definition strip (s : string) : string := strip_chars is_space s.

(** [sub in s] for two strings. *)
Fixpoint contains (sub s : string) : bool :=
  String.prefix sub s ||
  match s with
  | EmptyString => false
  | String _ s' => contains sub s'
  end.

(** ** Regular expressions and [re.match] *)

Inductive regex : Type :=
| Void : regex
| Eps : regex
| Sym : (ascii -> bool) -> regex
| Cat : regex -> regex -> regex
| Alt : regex -> regex -> regex
| Star : regex -> regex.

(** The pattern syntax of the source in terms of the constructors. *)
Definition lit (c : ascii) : regex := Sym (Ascii.eqb c).
Definition opt (r : regex) : regex := Alt r Eps.
Definition plus (r : regex) : regex := Cat r (Star r).

Fixpoint str (s : string) : regex :=
  match s with
  | EmptyString => Eps
  | String c s' => Cat (lit c) (str s')
  end.

Declare Scope regex_scope.
Delimit Scope regex_scope with re.
Infix "@" := Cat (at level 60, right associativity) : regex_scope.

(** The words a pattern denotes. *)
Inductive matches : regex -> list ascii -> Prop :=
| MEps : matches Eps []
| MSym p c : p c = true -> matches (Sym p) [c]
| MCat r1 r2 w1 w2 :
    matches r1 w1 -> matches r2 w2 -> matches (Cat r1 r2) (w1 ++ w2)
| MAltL r1 r2 w : matches r1 w -> matches (Alt r1 r2) w
| MAltR r1 r2 w : matches r2 w -> matches (Alt r1 r2) w
| MStarNil r : matches (Star r) []
| MStarApp r w1 w2 :
    matches r w1 -> matches (Star r) w2 -> matches (Star r) (w1 ++ w2).

Fixpoint nullable (r : regex) : bool :=
  match r with
  | Void => false
  | Eps => true
  | Sym _ => false
  | Cat r1 r2 => nullable r1 && nullable r2
  | Alt r1 r2 => nullable r1 || nullable r2
  | Star _ => true
  end.

Fixpoint deriv (c : ascii) (r : regex) : regex :=
  match r with
  | Void => Void
  | Eps => Void
  | Sym p => if p c then Eps else Void
  | Cat r1 r2 =>
      if nullable r1
      then Alt (Cat (deriv c r1) r2) (deriv c r2)
      else Cat (deriv c r1) r2
  | Alt r1 r2 => Alt (deriv c r1) (deriv c r2)
  | Star r1 => Cat (deriv c r1) (Star r1)
  end.

(** [re.match(pattern, s)] as a truth value: the pattern is tried at the
    start of [s] only and need not reach its end. *)
Fixpoint re_match (r : regex) (s : list ascii) : bool :=
  nullable r ||
  match s with
  | [] => false
  | c :: s' => re_match (deriv c r) s'
  end.

(** ** Python dicts: insertion-ordered, keys pairwise distinct *)

Section Dict.

Variable V : Type.

Definition dict : Type := list (string * V).

Definition dict_keys (d : dict) : list string := map fst d.

(** The invariant every Python dict has. *)
Definition dict_ok (d : dict) : Prop := NoDup (dict_keys d).

Fixpoint dict_get (k : string) (d : dict) : option V :=
  match d with
  | [] => None
  | (k', v) :: d' => if String.eqb k' k then Some v else dict_get k d'
  end.

(** [k in d] *)
Definition dict_mem (k : string) (d : dict) : bool :=
  match dict_get k d with Some _ => true | None => false end.

(** [d[k] = v]: an existing key keeps its place, a new one goes last. *)
Fixpoint dict_set (k : string) (v : V) (d : dict) : dict :=
  match d with
  | [] => [(k, v)]
  | (k', v') :: d' =>
      if String.eqb k' k then (k', v) :: d' else (k', v') :: dict_set k v d'
  end.

(** [del d[k]], for a key that is present (the only use in the source:
    the keys deleted are keys of the dict itself, each deleted once). *)
Fixpoint dict_del (k : string) (d : dict) : dict :=
  match d with
  | [] => []
  | (k', v') :: d' =>
      if String.eqb k' k then d' else (k', v') :: dict_del k d'
  end.

End Dict.

(** ** [sorted(xs, key=...)]: a stable sort on string keys *)

Section Sorted.

Variable A : Type.
Variable key : A -> string.

Fixpoint insert_sorted (x : A) (l : list A) : list A :=
  match l with
  | [] => [x]
  | y :: l' =>
      if (key x <=? key y)%string then x :: l else y :: insert_sorted x l'
  end.

Definition sorted (l : list A) : list A := fold_right insert_sorted [] l.

End Sorted.

(** ** History entries and the persisted document *)

Record entry : Type := {
  title : option string;   (* written by the Tkinter implementation only *)
  timestamp : string;
  play_count : Z
}.

#[local] Unset Elimination Schemes.

Inductive json : Type :=
| JNull : json
| JBool : bool -> json
| JInt : Z -> json
| JStr : string -> json
| JList : list json -> json
| JDict : list (string * json) -> json.

#[local] Set Elimination Schemes.

(** What [json.dump] writes for an entry and for the history. *)
Definition entry_to_json (e : entry) : json :=
  JDict ((match title e with
          | Some t => [("title"%string, JStr t)]
          | None => []
          end)
         ++ [("timestamp"%string, JStr (timestamp e));
             ("play_count"%string, JInt (play_count e))]).

Definition history_to_json (h : dict entry) : json :=
  JDict (map (fun kv => (fst kv, entry_to_json (snd kv))) h).

(** [d[k]] on the dict that [json.load] builds from an object: of two
    members with one name the later one stays. *)
Fixpoint json_field (k : string) (fields : list (string * json)) : option json :=
  match fields with
  | [] => None
  | (k', v) :: rest =>
      match json_field k rest with
      | Some v' => Some v'
      | None => if String.eqb k' k then Some v else None
      end
  end.

(** The value [json.load] returns, read as a history. The program reads
    an entry by key, ['timestamp'] and ['play_count'], in whatever order
    the file lists them and whatever else the entry holds; ['title'] is
    written and never read. Members of an entry other than these three
    are not kept in [entry]: the program never touches them. [None]
    stands for a value that is no mapping of URLs to entries with a string
    timestamp and an integer play count: the program stores such a value
    unchecked, and this development does not cover it. *)
Definition json_to_entry (j : json) : option entry :=
  match j with
  | JDict fields =>
      match json_field "timestamp" fields, json_field "play_count" fields with
      | Some (JStr ts), Some (JInt n) =>
          Some {| title := match json_field "title" fields with
                           | Some (JStr t) => Some t
                           | _ => None
                           end;
                  timestamp := ts; play_count := n |}
      | _, _ => None
      end
  | _ => None
  end.

Definition json_to_history (j : json) : option (dict entry) :=
  match j with
  | JDict m =>
      fold_left
        (fun acc kv =>
           match acc, json_to_entry (snd kv) with
           | Some d, Some e => Some (dict_set (fst kv) e d)
           | _, _ => None
           end)
        m (Some [])
  | _ => None
  end.

(** The history file, when it exists. *)
Inductive file : Type :=
| Unparsable : file
| Document : json -> file.

(** ** The playback process and the trace of effects *)

Inductive wait_result : Type :=
| WaitReturns : wait_result
| WaitTimeoutExpired : wait_result
| WaitRaises : string -> wait_result.

(** A [subprocess.Popen] object together with the answers the operating
    system gives to the calls made on it; [Some msg] is an exception
    whose text is [msg]. *)
Record Popen : Type := {
  pid : nat;
  terminate_raises : option string;
  wait_5s : wait_result;
  kill_raises : option string;
  poll : option Z
}.

Inductive level : Type := INFO | WARNING | ERROR.

Inductive dialog : Type := ShowError | QWarning | QCritical | QInformation.

Inductive status : Type := Ready | Playing | Completed.

Inductive event : Type :=
| Log : level -> string -> event
| MessageBox : dialog -> string -> string -> event
| ProcTerminate : nat -> event
| ProcWait : nat -> Z -> event
| ProcKill : nat -> event
| ProcPoll : nat -> event
| Spawn : list string -> event
| UpdateUiState : bool -> event
| SetStatus : status -> event
| HistoryCombo : list string -> event
| WriteHistoryFile : json -> event
| After : Z -> event.

(** ** The application object *)

Record app : Type := {
  max_history : Z;
  mpv_path : string;
  process : option Popen;
  history : dict entry;
  history_file : option file;
  url_text : string;
  fullscreen : bool;
  loop : bool;
  trace : list event
}.

Definition with_process (p : option Popen) (st : app) : app :=
  {| max_history := max_history st; mpv_path := mpv_path st;
     process := p; history := history st;
     history_file := history_file st; url_text := url_text st;
     fullscreen := fullscreen st; loop := loop st; trace := trace st |}.

Definition with_history (h : dict entry) (st : app) : app :=
  {| max_history := max_history st; mpv_path := mpv_path st;
     process := process st; history := h;
     history_file := history_file st; url_text := url_text st;
     fullscreen := fullscreen st; loop := loop st; trace := trace st |}.

Definition with_history_file (f : option file) (st : app) : app :=
  {| max_history := max_history st; mpv_path := mpv_path st;
     process := process st; history := history st;
     history_file := f; url_text := url_text st;
     fullscreen := fullscreen st; loop := loop st; trace := trace st |}.

Definition emit (e : event) (st : app) : app :=
  {| max_history := max_history st; mpv_path := mpv_path st;
     process := process st; history := history st;
     history_file := history_file st; url_text := url_text st;
     fullscreen := fullscreen st; loop := loop st;
     trace := trace st ++ [e] |}.

(** The URL field and the two check boxes, which the user edits. *)
Definition with_url_text (text : string) (st : app) : app :=
  {| max_history := max_history st; mpv_path := mpv_path st;
     process := process st; history := history st;
     history_file := history_file st; url_text := text;
     fullscreen := fullscreen st; loop := loop st; trace := trace st |}.

(** The two fields the settings dialog assigns. *)
Definition with_mpv_path (path : string) (st : app) : app :=
  {| max_history := max_history st; mpv_path := path;
     process := process st; history := history st;
     history_file := history_file st; url_text := url_text st;
     fullscreen := fullscreen st; loop := loop st; trace := trace st |}.

Definition with_max_history (n : Z) (st : app) : app :=
  {| max_history := n; mpv_path := mpv_path st;
     process := process st; history := history st;
     history_file := history_file st; url_text := url_text st;
     fullscreen := fullscreen st; loop := loop st; trace := trace st |}.

Definition with_options (fs lp : bool) (st : app) : app :=
  {| max_history := max_history st; mpv_path := mpv_path st;
     process := process st; history := history st;
     history_file := history_file st; url_text := url_text st;
     fullscreen := fs; loop := lp; trace := trace st |}.

Notation "st |> f" := (f st) (at level 50, left associativity, only parsing).

(** ** The history store on disk (the same text in both files) *)

(** [self.history[x]['timestamp']], the sort key of [save_history]; it
    is only ever asked for keys of the dict. *)
Definition timestamp_of (h : dict entry) (x : string) : string :=
  match dict_get x h with
  | Some e => timestamp e
  | None => EmptyString
  end.

(** [load_history]: the loaded value, or an empty mapping when the file
    is missing or [json.load] raises. *)
Definition load_history (f : option file) : json :=
  match f with
  | Some (Document j) => j
  | Some Unparsable => JDict []
  | None => JDict []
  end.

(** The eviction of [save_history]: when the mapping is larger than
    [max_history], the keys are sorted by timestamp and the first
    [len(self.history) - self.max_history] of them (a positive number
    under the guard) are deleted. *)
Definition evict_oldest (max_history : Z) (h : dict entry) : dict entry :=
  if (Z.of_nat (List.length h) >? max_history)%Z then
    let keys_to_remove :=
      firstn (Z.to_nat (Z.of_nat (List.length h) - max_history))
             (sorted (timestamp_of h) (dict_keys h)) in
    fold_left (fun d key => dict_del key d) keys_to_remove h
  else h.

(** [save_history]: evict, then rewrite the whole file. *)
Definition save_history (st : app) : app :=
  let h := evict_oldest (max_history st) (history st) in
  st |> with_history h
     |> with_history_file (Some (Document (history_to_json h)))
     |> emit (WriteHistoryFile (history_to_json h)).

(** The first half of [add_to_history]: the entry of [url] is created
    or updated in place; [new_title] is the title a new entry gets. *)
Definition record_play (new_title : option string) (now url : string)
    (h : dict entry) : dict entry :=
  if negb (dict_mem url h) then
    dict_set url
      {| title := new_title; timestamp := now; play_count := 1 |} h
  else
    match dict_get url h with
    | Some e =>
        dict_set url
          {| title := title e; timestamp := now;
             play_count := play_count e + 1 |} h
    | None => h
    end.

(** The part of [__init__] that sets the fields used here. [None] when
    the loaded value is outside the mappings [json_to_history] reads:
    [__init__] fails on a value that is no mapping (it asks for its keys)
    and stores a mapping with other entries unchecked, which this
    development does not cover. The updater thread shares no state with
    the rest and is left out. *)
Definition startup (cfg_max_history : Z) (cfg_mpv_path : string)
    (disk : option file) : option app :=
  match json_to_history (load_history disk) with
  | Some h =>
      Some {| max_history := cfg_max_history; mpv_path := cfg_mpv_path;
              process := None; history := h; history_file := disk;
              url_text := EmptyString; fullscreen := true; loop := false;
              trace := [Log INFO "Application initialized successfully"] |}
  | None => None
  end.

(** ** What [urllib.parse] answers: taken as given *)

Record parsed_url : Type := {
  netloc : string;
  path : string;
  query : string
}.

Record urllib : Type := {
  urlparse : string -> option parsed_url;          (* [None]: raises *)
  parse_qs : string -> dict (list string)
}.

(** The command line of the player. *)
Definition mpv_command (st : app) (url : string) : list string :=
  [mpv_path st]
  ++ (if fullscreen st then ["--fullscreen"%string] else [])
  ++ (if loop st then ["--loop-file=inf"%string] else [])
  ++ ["--really-quiet"%string; url].

(** ** What the updater meets: taken as given *)

Inductive communicate_result : Type :=
| Finished : Z -> communicate_result                (* the return code *)
| TimeoutExpired : string -> communicate_result     (* [str(e)] *)
| CommunicateRaises : string -> communicate_result.

Record updater_env : Type := {
  ytdlp_exists : bool;                    (* [os.path.exists(self.ytdlp_path)] *)
  ytdlp_popen_raises : option string;
  ytdlp_communicate : communicate_result  (* [communicate(timeout=30)] *)
}.

(** [str(n)] for an integer. *)
Definition str_of_int (n : Z) : string :=
  DecimalString.NilZero.string_of_int (Z.to_int n).

(** ** What the settings dialog hands over: taken as given *)

(** The path typed for the player, what [int(max_history)] gives (the
    number, or the text of the exception), and the exception of
    [save_config] if it raises. The log directory and the updater path,
    which the dialog assigns too, are not fields of [app]. *)
Record settings_form : Type := {
  form_mpv_path : string;
  form_max_history : Z + string;
  form_save_config_raises : option string
}.

(** ** The Tkinter implementation, src/main.py *)

Module Tk.

(** The leading [^] of each pattern is the anchoring that [re_match]
    already has. *)
Definition patterns : list regex :=
  [ (opt (str "http" @ opt (lit "s") @ str "://") @ opt (str "www.") @
     str "youtube.com/watch?v=" @ plus (Sym word_or_hyphen) @
     opt (lit "&" @ Star (Sym non_space)))%re;
    (opt (str "http" @ opt (lit "s") @ str "://") @ opt (str "www.") @
     str "youtu.be/" @ plus (Sym word_or_hyphen) @
     opt (lit "?" @ Star (Sym non_space)))%re;
    (opt (str "http" @ opt (lit "s") @ str "://") @ opt (str "www.") @
     str "youtube.com/shorts/" @ plus (Sym word_or_hyphen) @
     opt (lit "?" @ Star (Sym non_space)))%re;
    (opt (str "http" @ opt (lit "s") @ str "://") @ opt (str "www.") @
     str "youtube.com/playlist?list=" @ plus (Sym word_or_hyphen) @
     opt (lit "&" @ Star (Sym non_space)))%re;
    (opt (str "http" @ opt (lit "s") @ str "://") @ opt (str "www.") @
     str "youtube.com/live/" @ plus (Sym word_or_hyphen) @
     opt (lit "?" @ Star (Sym non_space)))%re ].

Definition validate_url (url : string) : bool :=
  existsb (fun pattern => re_match pattern (list_ascii_of_string url)) patterns.

Definition get_video_title (lib : urllib) (url : string) : string :=
  match urlparse lib url with
  | Some parsed =>
      if contains "youtube.com" (netloc parsed) then
        match dict_get "v" (parse_qs lib (query parsed)) with
        | Some (v :: _) => ("Video ID: " ++ v)%string
        | Some [] => url
        | None => url
        end
      else if contains "youtu.be" (netloc parsed) then
        ("Video ID: " ++ strip_chars (Ascii.eqb "/") (path parsed))%string
      else url
  | None => url
  end.

Definition add_to_history (lib : urllib) (now url : string) (st : app) : app :=
  let st := st |> with_history
                    (record_play (Some (get_video_title lib url)) now url
                                 (history st)) in
  let st := save_history st in
  st |> emit (HistoryCombo (dict_keys (history st))).

Definition stop_video (st : app) : app :=
  let st :=
    match process st with
    | Some p =>
        let st := st |> emit (Log INFO "Stopping video playback")
                     |> emit (ProcTerminate (pid p)) in
        match terminate_raises p with
        | None => st |> with_process None
        | Some e => st |> emit (Log ERROR ("Error stopping video: " ++ e)%string)
        end
    | None => st
    end in
  st |> emit (UpdateUiState false) |> emit (SetStatus Ready).

Definition play_video (lib : urllib) (popen : list string -> Popen + string)
    (now : string) (st : app) : app :=
  let url := strip (url_text st) in
  if String.eqb url "" then
    st |> emit (Log WARNING "Attempted to play with empty URL")
       |> emit (MessageBox ShowError "Error" "Please enter a URL")
  else if negb (validate_url url) then
    st |> emit (Log WARNING ("Invalid YouTube URL format: " ++ url)%string)
       |> emit (MessageBox ShowError "Error" "Invalid YouTube URL format")
  else
    let st := stop_video st in
    let st := st |> emit (Log INFO ("Starting video playback: " ++ url)%string)
                 |> emit (Spawn (mpv_command st url)) in
    match popen (mpv_command st url) with
    | inl p =>
        st |> with_process (Some p)
           |> add_to_history lib now url
           |> emit (UpdateUiState true)
           |> emit (SetStatus Playing)
    | inr e =>
        st |> emit (Log ERROR ("Playback error: " ++ e)%string)
           |> emit (MessageBox ShowError "Playback Error" e)
    end.

Definition check_video_status (st : app) : app :=
  let st :=
    match process st with
    | Some p =>
        let st := st |> emit (ProcPoll (pid p)) in
        match poll p with
        | Some _ =>
            st |> emit (Log INFO "Video playback completed")
               |> with_process None
               |> emit (UpdateUiState false)
               |> emit (SetStatus Ready)
        | None => st
        end
    | None => st
    end in
  st |> emit (After 1000).

(** [confirmed] is the answer to the confirmation dialog. *)
Definition clear_history (confirmed : bool) (st : app) : app :=
  if confirmed then
    st |> with_history []
       |> save_history
       |> emit (HistoryCombo [])
       |> emit (Log INFO "History cleared")
  else st.


Definition select_history_url (selected : string) (st : app) : app :=
  if dict_mem selected (history st) then
    st |> with_url_text selected
       |> emit (Log INFO "Selected URL from history")
  else st.

(** [clipboard] is what [pyperclip.paste()] gives, or the exception. *)
Definition paste_url (clipboard : string + string) (st : app) : app :=
  match clipboard with
  | inl clipboard_text =>
      st |> with_url_text clipboard_text
         |> emit (Log INFO "URL pasted from clipboard")
  | inr e =>
      st |> emit (Log ERROR ("Error pasting URL: " ++ e)%string)
         |> emit (MessageBox ShowError "Error" "Failed to paste from clipboard")
  end.

(** [run_update], the body of the thread that [update_ytdlp] starts:
    the lines it logs. *)
Definition run_update (ytdlp_path : string) (env : updater_env) : list event :=
  if negb (ytdlp_exists env) then
    [Log WARNING ("yt-dlp not found at " ++ ytdlp_path)%string]
  else
    Log INFO "Updating yt-dlp..." ::
    match ytdlp_popen_raises env with
    | Some e => [Log WARNING ("Error updating yt-dlp: " ++ e)%string]
    | None =>
        match ytdlp_communicate env with
        | Finished returncode =>
            if (returncode =? 0)%Z then
              [Log INFO "yt-dlp updated successfully"]
            else
              [Log WARNING ("yt-dlp update returned code "
                            ++ str_of_int returncode)%string]
        | TimeoutExpired _ => [Log WARNING "yt-dlp update timed out"]
        | CommunicateRaises e =>
            [Log WARNING ("Error updating yt-dlp: " ++ e)%string]
        end
    end.

(** [save_settings]: the path is assigned before the number is parsed,
    and the history is not trimmed to the new cap. *)
Definition save_settings (form : settings_form) (st : app) : app :=
  let st := st |> with_mpv_path (form_mpv_path form) in
  match form_max_history form with
  | inl n =>
      let st := st |> with_max_history n in
      match form_save_config_raises form with
      | None => st |> emit (Log INFO "Settings saved successfully")
      | Some e =>
          st |> emit (Log ERROR ("Error saving settings: " ++ e)%string)
             |> emit (MessageBox ShowError "Error"
                        ("Failed to save settings: " ++ e)%string)
      end
  | inr _ =>
      st |> emit (MessageBox ShowError "Error" "Max history must be a number")
  end.


End Tk.

(** ** The PyQt6 implementation, src/src/main.py *)

Module Qt.

Definition patterns : list regex :=
  [ (opt (str "http" @ opt (lit "s") @ str "://") @ opt (str "www.") @
     str "youtube.com/watch?v=" @ plus (Sym word_or_hyphen) @
     opt (lit "&" @ Star (Sym non_space)))%re;
    (opt (str "http" @ opt (lit "s") @ str "://") @ opt (str "www.") @
     str "youtu.be/" @ plus (Sym word_or_hyphen) @
     opt (lit "?" @ Star (Sym non_space)))%re;
    (opt (str "http" @ opt (lit "s") @ str "://") @ opt (str "www.") @
     str "youtube.com/shorts/" @ plus (Sym word_or_hyphen) @
     opt (lit "?" @ Star (Sym non_space)))%re;
    (opt (str "http" @ opt (lit "s") @ str "://") @ opt (str "www.") @
     str "youtube.com/playlist?list=" @ plus (Sym word_or_hyphen) @
     opt (lit "&" @ Star (Sym non_space)))%re;
    (opt (str "http" @ opt (lit "s") @ str "://") @ opt (str "www.") @
     str "youtube.com/live/" @ plus (Sym word_or_hyphen) @
     opt (lit "?" @ Star (Sym non_space)))%re ].

Definition validate_url (url : string) : bool :=
  existsb (fun pattern => re_match pattern (list_ascii_of_string url)) patterns.

Definition placeholder : string := "Recently played videos...".

Definition add_to_history (now url : string) (st : app) : app :=
  let st := st |> with_history (record_play None now url (history st)) in
  let st := save_history st in
  st |> emit (HistoryCombo (placeholder :: dict_keys (history st))).

Definition stop_video (st : app) : app :=
  let st :=
    match process st with
    | Some p =>
        let st := st |> emit (Log INFO "Stopping video playback")
                     |> emit (ProcTerminate (pid p)) in
        match terminate_raises p with
        | None =>
            let st := st |> emit (ProcWait (pid p) 5) in
            match wait_5s p with
            | WaitReturns => st |> with_process None
            | WaitTimeoutExpired =>
                let st := st |> emit (ProcKill (pid p)) in
                match kill_raises p with
                | None => st |> with_process None
                | Some e =>
                    st |> emit (Log ERROR ("Error stopping video: " ++ e)%string)
                end
            | WaitRaises e =>
                st |> emit (Log ERROR ("Error stopping video: " ++ e)%string)
            end
        | Some e => st |> emit (Log ERROR ("Error stopping video: " ++ e)%string)
        end
    | None => st
    end in
  st |> emit (UpdateUiState false) |> emit (SetStatus Ready).

Definition play_video (popen : list string -> Popen + string)
    (now : string) (st : app) : app :=
  let url := strip (url_text st) in
  if String.eqb url "" then
    st |> emit (Log WARNING "Attempted to play with empty URL")
       |> emit (MessageBox QWarning "Error" "Please enter a URL")
  else if negb (validate_url url) then
    st |> emit (Log WARNING ("Invalid YouTube URL format: " ++ url)%string)
       |> emit (MessageBox QWarning "Error" "Invalid YouTube URL format")
  else
    let st := stop_video st in
    let st := st |> emit (Log INFO ("Starting video playback: " ++ url)%string)
                 |> emit (Spawn (mpv_command st url)) in
    match popen (mpv_command st url) with
    | inl p =>
        st |> with_process (Some p)
           |> add_to_history now url
           |> emit (UpdateUiState true)
           |> emit (SetStatus Playing)
    | inr e =>
        st |> emit (Log ERROR ("Playback error: " ++ e)%string)
           |> emit (MessageBox QCritical "Playback Error" e)
    end.

Definition check_video_status (st : app) : app :=
  match process st with
  | Some p =>
      let st := st |> emit (ProcPoll (pid p)) in
      match poll p with
      | Some _ =>
          st |> emit (Log INFO "Video playback completed")
             |> with_process None
             |> emit (UpdateUiState false)
             |> emit (SetStatus Completed)
      | None => st
      end
  | None => st
  end.

Definition clear_history (confirmed : bool) (st : app) : app :=
  if confirmed then
    st |> with_history []
       |> save_history
       |> emit (HistoryCombo [placeholder])
       |> emit (Log INFO "History cleared")
  else st.


Definition select_history_url (selected : string) (st : app) : app :=
  if dict_mem selected (history st) then
    st |> with_url_text selected
       |> emit (Log INFO "Selected URL from history")
  else st.

Definition paste_url (clipboard : string + string) (st : app) : app :=
  match clipboard with
  | inl clipboard_text =>
      st |> with_url_text clipboard_text
         |> emit (Log INFO "URL pasted from clipboard")
  | inr e =>
      st |> emit (Log ERROR ("Error pasting URL: " ++ e)%string)
         |> emit (MessageBox QCritical "Error" "Failed to paste from clipboard")
  end.

(** [update], the body of the thread that [update_ytdlp_background]
    starts: the return code is not looked at, and a timeout is one more
    exception. *)
Definition update (ytdlp_path : string) (env : updater_env) : list event :=
  if negb (ytdlp_exists env) then
    [Log WARNING ("yt-dlp not found at " ++ ytdlp_path)%string]
  else
    Log INFO "Updating yt-dlp..." ::
    match ytdlp_popen_raises env with
    | Some e => [Log WARNING ("Error updating yt-dlp: " ++ e)%string]
    | None =>
        match ytdlp_communicate env with
        | Finished _ => [Log INFO "yt-dlp updated successfully"]
        | TimeoutExpired e =>
            [Log WARNING ("Error updating yt-dlp: " ++ e)%string]
        | CommunicateRaises e =>
            [Log WARNING ("Error updating yt-dlp: " ++ e)%string]
        end
    end.

(** [save_settings_dialog]: as in the other file, without a handler of
    its own for a number that does not parse. *)
Definition save_settings_dialog (form : settings_form) (st : app) : app :=
  let st := st |> with_mpv_path (form_mpv_path form) in
  match form_max_history form with
  | inl n =>
      let st := st |> with_max_history n in
      match form_save_config_raises form with
      | None =>
          st |> emit (Log INFO "Settings saved successfully")
             |> emit (MessageBox QInformation "Success"
                        "Settings saved successfully!")
      | Some e =>
          st |> emit (Log ERROR ("Error saving settings: " ++ e)%string)
             |> emit (MessageBox QCritical "Error"
                        ("Failed to save settings: " ++ e)%string)
      end
  | inr e =>
      st |> emit (Log ERROR ("Error saving settings: " ++ e)%string)
         |> emit (MessageBox QCritical "Error"
                    ("Failed to save settings: " ++ e)%string)
  end.


End Qt.

(** ** Sessions: the operations in any order *)

(** What the user and the timer do to a running application. *)
Inductive action : Type :=
| Edit : string -> bool -> bool -> action     (* URL field and check boxes *)
| Paste : string + string -> action
| Select : string -> action
| Play : (list string -> Popen + string) -> string -> action
| Stop : action
| Tick : action                               (* the one-second timer *)
| Clear : bool -> action
| Settings : settings_form -> action.           (* Save in the settings window *)

Definition tk_step (lib : urllib) (a : action) (st : app) : app :=
  match a with
  | Edit text fs lp => st |> with_url_text text |> with_options fs lp
  | Paste clipboard => Tk.paste_url clipboard st
  | Select selected => Tk.select_history_url selected st
  | Play popen now => Tk.play_video lib popen now st
  | Stop => Tk.stop_video st
  | Tick => Tk.check_video_status st
  | Clear confirmed => Tk.clear_history confirmed st
  | Settings form => Tk.save_settings form st
  end.

Definition qt_step (a : action) (st : app) : app :=
  match a with
  | Edit text fs lp => st |> with_url_text text |> with_options fs lp
  | Paste clipboard => Qt.paste_url clipboard st
  | Select selected => Qt.select_history_url selected st
  | Play popen now => Qt.play_video popen now st
  | Stop => Qt.stop_video st
  | Tick => Qt.check_video_status st
  | Clear confirmed => Qt.clear_history confirmed st
  | Settings form => Qt.save_settings_dialog form st
  end.

Definition tk_run (lib : urllib) (actions : list action) (st : app) : app :=
  fold_left (fun s a => tk_step lib a s) actions st.

Definition qt_run (actions : list action) (st : app) : app :=
  fold_left (fun s a => qt_step a s) actions st.

(** A URL as [play_video] records it: stripped and accepted. *)
Definition playable (url : string) : bool :=
  String.eqb (strip url) url && Tk.validate_url url.

Definition is_terminate (e : event) : bool :=
  match e with
  | ProcTerminate _ => true
  | _ => false
  end.

Definition is_process_call (e : event) : bool :=
  match e with
  | ProcTerminate _ | ProcWait _ _ | ProcKill _ | ProcPoll _ | Spawn _ => true
  | _ => false
  end.

Definition is_log (e : event) : bool :=
  match e with
  | Log _ _ => true
  | _ => false
  end.

(** ** Reading the trace *)

(** The events a step added: the trace only grows at its end. *)
Definition new_events (st st' : app) : list event :=
  skipn (List.length (trace st)) (trace st').

Definition is_spawn (e : event) : bool :=
  match e with
  | Spawn _ => true
  | _ => false
  end.

Definition is_settings (a : action) : bool :=
  match a with
  | Settings _ => true
  | _ => false
  end.

Definition is_play (a : action) : bool :=
  match a with
  | Play _ _ => true
  | _ => false
  end.

Definition updater_reports_success (events : list event) : bool :=
  existsb (fun e =>
             match e with
             | Log INFO msg => String.eqb msg "yt-dlp updated successfully"
             | _ => false
             end) events.

(** What [stop_video] adds to the trace: with no process tracked, the
    reset of the interface only; with one, a single termination request
    first, no spawn, and the reset last. *)
Definition stop_events_ok (st : app) (events : list event) : Prop :=
  filter is_spawn events = [] /\
  match process st with
  | None => filter is_process_call events = []
  | Some p =>
      filter is_terminate events = [ProcTerminate (pid p)] /\
      In (ProcTerminate (pid p)) events
  end.

(** ** Invariants of a session *)

(** The order [sorted] sorts by. *)
Definition key_le {A : Type} (key : A -> string) (x y : A) : Prop :=
  (key x <=? key y)%string = true.

(** What one step does to the history and its file: nothing, or a
    recording of a playable URL followed by the rewrite of the file, or
    the emptying of both. *)
Definition step_shape (st st' : app) : Prop :=
  (history st' = history st /\ history_file st' = history_file st) \/
  (history_file st' = Some (Document (history_to_json (history st'))) /\
   (history st' = [] \/
    exists ttl now url,
      playable url = true /\
      history st'
      = evict_oldest (max_history st)
          (record_play ttl now url (history st)))).

(** The file, read back, is the mapping in memory. *)
Definition in_sync (st : app) : Prop :=
  dict_ok (history st) /\
  json_to_history (load_history (history_file st)) = Some (history st).

Definition keys_playable (st : app) : Prop :=
  forall k, In k (dict_keys (history st)) -> playable k = true.

Definition counts_positive (st : app) : Prop :=
  forall k e, In (k, e) (history st) -> (1 <= play_count e)%Z.

(** The store is a dict within the cap. *)
Definition within_cap (st : app) : Prop :=
  dict_ok (history st) /\
  (Z.of_nat (List.length (history st)) <= max_history st)%Z.

(** ** The accepted link shapes, as the specification words them *)

Inductive link_shape : Type := Watch | ShortLink | Shorts | Playlist | Live.

Definition all_shapes : list link_shape :=
  [Watch; ShortLink; Shorts; Playlist; Live].

(** The fixed text of a shape, up to the identifier. *)
Definition shape_head (k : link_shape) : string :=
  match k with
  | Watch => "youtube.com/watch?v="
  | ShortLink => "youtu.be/"
  | Shorts => "youtube.com/shorts/"
  | Playlist => "youtube.com/playlist?list="
  | Live => "youtube.com/live/"
  end.

(** The character that starts the extra query-parameter text. *)
Definition shape_sep (k : link_shape) : ascii :=
  match k with
  | Watch | Playlist => "&"
  | ShortLink | Shorts | Live => "?"
  end.

Definition all_chars (p : ascii -> bool) (s : string) : bool :=
  forallb p (list_ascii_of_string s).

(** [is_link k p]: [p] is a link of shape [k], with or without scheme,
    with or without [www.], with or without extra query parameters. *)
Definition is_link (k : link_shape) (p : string) : Prop :=
  exists scheme www id extra : string,
    In scheme ["http://"; "https://"; ""]%string /\
    In www ["www."; ""]%string /\
    id <> EmptyString /\ all_chars word_or_hyphen id = true /\
    (extra = EmptyString \/
     exists q, extra = String (shape_sep k) q /\ all_chars non_space q = true) /\
    p = (scheme ++ www ++ shape_head k ++ id ++ extra)%string.

(** Some prefix of [s] is a link of one of the five shapes. *)
Definition has_link_prefix (s : string) : Prop :=
  exists (k : link_shape) (p rest : string),
    is_link k p /\ s = (p ++ rest)%string.

(** The pattern of a shape; the five patterns of either implementation
    are these, in the order of [all_shapes]. *)
Definition shape_pattern (k : link_shape) : regex :=
  (opt (str "http" @ opt (lit "s") @ str "://") @ opt (str "www.") @
   str (shape_head k) @ plus (Sym word_or_hyphen) @
   opt (lit (shape_sep k) @ Star (Sym non_space)))%re.

(** ** Sample inputs *)

Definition sample_urllib : urllib :=
  {| urlparse := fun _ => None; parse_qs := fun _ => [] |}.

Definition sample_app (cap : Z) (h : dict entry) (p : option Popen)
    (text : string) : app :=
  {| max_history := cap; mpv_path := "tools/mpv.exe";
     process := p; history := h; history_file := None;
     url_text := text; fullscreen := true; loop := false; trace := [] |}.

Definition played (ts : string) (n : Z) : entry :=
  {| title := None; timestamp := ts; play_count := n |}.

Definition url_a : string := "https://youtu.be/aaa".
Definition url_b : string := "https://youtu.be/bbb".
Definition url_c : string := "https://youtu.be/ccc".

Definition ten_am : string := "2024-05-01T10:00:00.000001".
Definition eleven_am : string := "2024-05-01T11:00:00.000001".
Definition noon : string := "2024-05-01T12:00:00.000001".

(** A store above a cap of one whose two entries carry one timestamp. *)
Definition tied_app : app :=
  sample_app 1 [(url_a, played noon 1); (url_b, played noon 1)] None "".

(** A history file whose entry lists its members in another order, with
    one the program does not know. *)
Definition reordered_doc : json :=
  JDict
    [(url_a, JDict [("play_count"%string, JInt 4);
                    ("note"%string, JStr "kept by hand");
                    ("timestamp"%string, JStr ten_am)])].

(** A history file with three entries. *)
Definition three_entries_doc : json :=
  JDict
    [(url_a, JDict [("timestamp"%string, JStr ten_am);
                    ("play_count"%string, JInt 1)]);
     (url_b, JDict [("timestamp"%string, JStr eleven_am);
                    ("play_count"%string, JInt 2)]);
     (url_c, JDict [("timestamp"%string, JStr noon);
                    ("play_count"%string, JInt 1)])].

(** Playback processes: one that exits when asked, one that ignores the
    request, one the system refuses to signal, one that has exited. *)
Definition obedient : Popen :=
  {| pid := 4242; terminate_raises := None; wait_5s := WaitReturns;
     kill_raises := None; poll := None |}.

Definition stubborn : Popen :=
  {| pid := 4242; terminate_raises := None; wait_5s := WaitTimeoutExpired;
     kill_raises := None; poll := None |}.

Definition denied : Popen :=
  {| pid := 4242; terminate_raises := Some "[WinError 5] Access is denied"%string;
     wait_5s := WaitTimeoutExpired; kill_raises := None; poll := None |}.

Definition finished : Popen :=
  {| pid := 4242; terminate_raises := None; wait_5s := WaitReturns;
     kill_raises := None; poll := Some 0%Z |}.

Definition always_spawns (cmd : list string) : Popen + string := inl obedient.

(** Calls that end a process. *)
Definition is_terminate_or_kill (e : event) : bool :=
  match e with
  | ProcTerminate _ | ProcKill _ => true
  | _ => false
  end.

(** * Properties *)

(** ** Regular expressions: the matcher decides prefix membership *)

Lemma matches_nil_nullable r : matches r [] -> nullable r = true.
Proof.
  induction r; intros H; inversion H; subst; simpl; auto.
  - match goal with E : _ ++ _ = [] |- _ => apply app_eq_nil in E; destruct E; subst end.
    rewrite IHr1, IHr2; auto.
  - rewrite IHr1; auto.
  - rewrite IHr2; auto using orb_true_r.
Qed.

Lemma nullable_matches_nil r : nullable r = true -> matches r [].
Proof.
  induction r; simpl; intros H; try discriminate.
  - constructor.
  - apply andb_true_iff in H. destruct H.
    change (@nil ascii) with (@nil ascii ++ []). constructor; auto.
  - apply orb_true_iff in H. destruct H; [apply MAltL | apply MAltR]; auto.
  - constructor.
Qed.

(** A non-empty word of [Star r] starts with a non-empty word of [r]. *)
Lemma matches_star_cons r c w :
  matches (Star r) (c :: w) ->
  exists w1 w2, w = w1 ++ w2 /\ matches r (c :: w1) /\ matches (Star r) w2.
Proof.
  intros H. remember (Star r) as s eqn:Es. remember (c :: w) as cw eqn:Ew.
  revert c w Ew.
  induction H; intros c0 w0 Ew; try discriminate.
  injection Es as ->.
  destruct w1 as [|a w1'].
  - simpl in Ew. eauto.
  - simpl in Ew. injection Ew as -> <-. exists w1', w2. auto.
Qed.

Lemma deriv_sound c r : forall w, matches (deriv c r) w -> matches r (c :: w).
Proof.
  induction r; simpl; intros w H.
  - inversion H.
  - inversion H.
  - destruct (b c) eqn:E; inversion H; subst. constructor; auto.
  - destruct (nullable r1) eqn:N.
    + inversion H; subst.
      * match goal with M : matches (Cat _ _) _ |- _ => inversion M; subst end.
        change (c :: w1 ++ w2) with ((c :: w1) ++ w2). constructor; auto.
      * change (c :: w) with ([] ++ c :: w).
        constructor; auto using nullable_matches_nil.
    + inversion H; subst.
      change (c :: w1 ++ w2) with ((c :: w1) ++ w2). constructor; auto.
  - inversion H; subst; [apply MAltL | apply MAltR]; auto.
  - inversion H; subst.
    change (c :: w1 ++ w2) with ((c :: w1) ++ w2). constructor; auto.
Qed.

Lemma deriv_complete c r : forall w, matches r (c :: w) -> matches (deriv c r) w.
Proof.
  induction r; simpl; intros w H.
  - inversion H.
  - inversion H.
  - inversion H; subst. match goal with E : b c = true |- _ => rewrite E end.
    constructor.
  - inversion H; subst.
    destruct w1 as [|a w1'].
    + match goal with E : [] ++ _ = _ |- _ => simpl in E; subst end.
      rewrite (matches_nil_nullable H3). apply MAltR; auto.
    + match goal with E : (_ :: _) ++ _ = _ |- _ =>
        simpl in E; injection E as -> <- end.
      destruct (nullable r1); [apply MAltL|]; constructor; auto.
  - inversion H; subst; [apply MAltL | apply MAltR]; auto.
  - apply matches_star_cons in H. destruct H as (w1 & w2 & -> & H1 & H2).
    constructor; auto.
Qed.

Lemma re_match_spec : forall s r,
  re_match r s = true <-> exists p rest, s = p ++ rest /\ matches r p.
Proof.
  induction s as [|c s IH]; intros r; simpl.
  - rewrite orb_false_r. split.
    + intros N. exists [], []. auto using nullable_matches_nil.
    + intros (p & rest & E & M). symmetry in E.
      apply app_eq_nil in E. destruct E; subst. auto using matches_nil_nullable.
  - rewrite orb_true_iff, IH. split.
    + intros [N | (p & rest & -> & M)].
      * exists [], (c :: s). auto using nullable_matches_nil.
      * exists (c :: p), rest. auto using deriv_sound.
    + intros (p & rest & E & M). destruct p as [|a p].
      * left. auto using matches_nil_nullable.
      * simpl in E. injection E as <- ->. right.
        exists p, rest. auto using deriv_complete.
Qed.

(** ** Strings and their character lists *)

Lemma chars_app (a b : string) :
  list_ascii_of_string (a ++ b) = list_ascii_of_string a ++ list_ascii_of_string b.
Proof. induction a as [|c a IH]; simpl; [reflexivity | now rewrite IH]. Qed.

Lemma chars_inj (a b : string) :
  list_ascii_of_string a = list_ascii_of_string b -> a = b.
Proof.
  intros E. rewrite <- (string_of_list_ascii_of_string a),
    <- (string_of_list_ascii_of_string b). now rewrite E.
Qed.

(** ** The words of the pattern constructs used by the source *)

Lemma matches_cat_iff r1 r2 w :
  matches (Cat r1 r2) w <->
  exists w1 w2, w = w1 ++ w2 /\ matches r1 w1 /\ matches r2 w2.
Proof.
  split.
  - intros H. inversion H; subst. eauto.
  - intros (w1 & w2 & -> & H1 & H2). now constructor.
Qed.

Lemma matches_opt_iff r w : matches (opt r) w <-> matches r w \/ w = [].
Proof.
  unfold opt. split.
  - intros H. inversion H; subst; auto.
    match goal with M : matches Eps _ |- _ => inversion M end. auto.
  - intros [H | ->]; [now apply MAltL | apply MAltR; constructor].
Qed.

Lemma matches_lit_iff c w : matches (lit c) w <-> w = [c].
Proof.
  unfold lit. split.
  - intros H. inversion H; subst.
    match goal with E : Ascii.eqb _ _ = true |- _ => apply Ascii.eqb_eq in E end.
    now subst.
  - intros ->. constructor. apply Ascii.eqb_refl.
Qed.

Lemma matches_str_iff s w : matches (str s) w <-> w = list_ascii_of_string s.
Proof.
  revert w. induction s as [|c s IH]; intros w; simpl.
  - split; [intros H; now inversion H | intros ->; constructor].
  - rewrite matches_cat_iff. split.
    + intros (w1 & w2 & -> & H1 & H2).
      apply matches_lit_iff in H1. apply IH in H2. now subst.
    + intros ->. exists [c], (list_ascii_of_string s).
      repeat split; [now apply matches_lit_iff | now apply IH].
Qed.

Lemma matches_star_sym_iff p w :
  matches (Star (Sym p)) w <-> forallb p w = true.
Proof.
  split.
  - intros H. remember (Star (Sym p)) as r eqn:Er.
    induction H; try discriminate; [reflexivity|].
    injection Er as ->. inversion H; subst. simpl.
    rewrite IHmatches2 by reflexivity.
    match goal with E : p _ = true |- _ => now rewrite E end.
  - induction w as [|c w IH]; simpl; intros H; [constructor|].
    apply andb_true_iff in H. destruct H as [Hc Hw].
    change (c :: w) with ([c] ++ w). constructor; [now constructor | auto].
Qed.

Lemma matches_plus_sym_iff p w :
  matches (plus (Sym p)) w <-> w <> [] /\ forallb p w = true.
Proof.
  unfold plus. rewrite matches_cat_iff. split.
  - intros (w1 & w2 & -> & H1 & H2). apply matches_star_sym_iff in H2.
    inversion H1; subst. simpl. split; [discriminate|].
    rewrite H2. match goal with E : p _ = true |- _ => now rewrite E end.
  - intros [Hne H]. destruct w as [|c w]; [contradiction|].
    simpl in H. apply andb_true_iff in H. destruct H as [Hc Hw].
    exists [c], w. repeat split; [now constructor | now apply matches_star_sym_iff].
Qed.

Lemma matches_scheme_iff w :
  matches (opt (str "http" @ opt (lit "s") @ str "://")%re) w <->
  exists scheme : string,
    In scheme ["http://"; "https://"; ""]%string /\
    w = list_ascii_of_string scheme.
Proof.
  rewrite matches_opt_iff, matches_cat_iff. split.
  - intros [(w1 & w2 & -> & H1 & H2) | ->].
    + apply matches_str_iff in H1. apply matches_cat_iff in H2.
      destruct H2 as (w3 & w4 & -> & H3 & H4).
      apply matches_str_iff in H4. apply matches_opt_iff in H3. subst.
      destruct H3 as [H3 | ->].
      * apply matches_lit_iff in H3. subst.
        exists "https://"%string. simpl. auto.
      * exists "http://"%string. simpl. auto.
    + exists ""%string. simpl. auto.
  - intros (scheme & Hin & ->). simpl in Hin.
    destruct Hin as [<- | [<- | [<- | []]]].
    + left. exists (list_ascii_of_string "http"), (list_ascii_of_string "://").
      repeat split; [now apply matches_str_iff|].
      apply matches_cat_iff. exists [], (list_ascii_of_string "://").
      repeat split; [apply matches_opt_iff; now right | now apply matches_str_iff].
    + left. exists (list_ascii_of_string "http"), (list_ascii_of_string "s://").
      repeat split; [now apply matches_str_iff|].
      apply matches_cat_iff. exists (list_ascii_of_string "s"), (list_ascii_of_string "://").
      repeat split; [|now apply matches_str_iff].
      apply matches_opt_iff. left. now apply matches_lit_iff.
    + now right.
Qed.

Lemma matches_www_iff w :
  matches (opt (str "www.")) w <->
  exists www : string,
    In www ["www."; ""]%string /\ w = list_ascii_of_string www.
Proof.
  rewrite matches_opt_iff, matches_str_iff. split.
  - intros [-> | ->]; [exists "www."%string | exists ""%string]; simpl; auto.
  - intros (www & Hin & ->). simpl in Hin.
    destruct Hin as [<- | [<- | []]]; auto.
Qed.

Lemma matches_extra_iff c w :
  matches (opt (lit c @ Star (Sym non_space))%re) w <->
  w = [] \/ exists q, w = c :: q /\ forallb non_space q = true.
Proof.
  rewrite matches_opt_iff, matches_cat_iff. split.
  - intros [(w1 & w2 & -> & H1 & H2) | ->]; [right | now left].
    apply matches_lit_iff in H1. apply matches_star_sym_iff in H2.
    subst. exists w2. auto.
  - intros [-> | (q & -> & H)]; [now right | left].
    exists [c], q. repeat split;
      [now apply matches_lit_iff | now apply matches_star_sym_iff].
Qed.

(** The pattern of a shape denotes exactly the links of that shape. *)
Lemma shape_pattern_spec k (p : string) :
  matches (shape_pattern k) (list_ascii_of_string p) <-> is_link k p.
Proof.
  unfold shape_pattern, is_link. split.
  - intros H.
    apply matches_cat_iff in H. destruct H as (ws & w1 & E1 & Hs & H).
    apply matches_cat_iff in H. destruct H as (ww & w2 & -> & Hw & H).
    apply matches_cat_iff in H. destruct H as (wh & w3 & -> & Hh & H).
    apply matches_cat_iff in H. destruct H as (wi & we & -> & Hi & He).
    apply matches_scheme_iff in Hs. destruct Hs as (scheme & Hscheme & ->).
    apply matches_www_iff in Hw. destruct Hw as (www & Hwww & ->).
    apply matches_str_iff in Hh. subst wh.
    apply matches_plus_sym_iff in Hi. destruct Hi as [Hne Hall].
    apply matches_extra_iff in He.
    exists scheme, www, (string_of_list_ascii wi), (string_of_list_ascii we).
    split; [assumption|]. split; [assumption|]. split.
    { intros E. apply Hne. destruct wi; [reflexivity | discriminate]. }
    split.
    { unfold all_chars. now rewrite list_ascii_of_string_of_list_ascii. }
    split.
    { destruct He as [-> | (q & -> & Hq)]; [now left | right].
      exists (string_of_list_ascii q). split; [reflexivity|].
      unfold all_chars. now rewrite list_ascii_of_string_of_list_ascii. }
    apply chars_inj. rewrite E1, !chars_app, !list_ascii_of_string_of_list_ascii.
    reflexivity.
  - intros (scheme & www & id & extra & Hscheme & Hwww & Hne & Hall & He & ->).
    rewrite !chars_app.
    apply matches_cat_iff. do 2 eexists. split; [reflexivity|]. split.
    { apply matches_scheme_iff. eauto. }
    apply matches_cat_iff. do 2 eexists. split; [reflexivity|]. split.
    { apply matches_www_iff. eauto. }
    apply matches_cat_iff. do 2 eexists. split; [reflexivity|]. split.
    { now apply matches_str_iff. }
    apply matches_cat_iff. do 2 eexists. split; [reflexivity|]. split.
    { apply matches_plus_sym_iff. split; [|exact Hall].
      intros E. apply Hne. destruct id; [reflexivity | discriminate]. }
    apply matches_extra_iff.
    destruct He as [-> | (q & -> & Hq)]; [now left | right].
    exists (list_ascii_of_string q). split; [reflexivity | exact Hq].
Qed.

Lemma tk_patterns_shapes : Tk.patterns = map shape_pattern all_shapes.
Proof. reflexivity. Qed.

Lemma qt_patterns_shapes : Qt.patterns = map shape_pattern all_shapes.
Proof. reflexivity. Qed.

Lemma shape_in_all k : In k all_shapes.
Proof. destruct k; simpl; auto 6. Qed.

Lemma shapes_match_iff_prefix (s : string) :
  existsb (fun pattern => re_match pattern (list_ascii_of_string s))
          (map shape_pattern all_shapes) = true
  <-> has_link_prefix s.
Proof.
  rewrite existsb_exists. unfold has_link_prefix. split.
  - intros (r & Hin & Hm). apply in_map_iff in Hin.
    destruct Hin as (k & <- & _).
    apply re_match_spec in Hm. destruct Hm as (p & rest & E & Hm).
    exists k, (string_of_list_ascii p), (string_of_list_ascii rest). split.
    + apply shape_pattern_spec. now rewrite list_ascii_of_string_of_list_ascii.
    + apply chars_inj.
      now rewrite chars_app, !list_ascii_of_string_of_list_ascii.
  - intros (k & p & rest & Hl & ->).
    exists (shape_pattern k). split.
    + apply in_map, shape_in_all.
    + apply re_match_spec. rewrite chars_app.
      do 2 eexists. split; [reflexivity|]. now apply shape_pattern_spec.
Qed.

(** C4. The validator of either implementation accepts a string exactly
    when some prefix of it is a link of one of the five shapes (watch,
    short link, shorts, playlist, live; scheme, [www.] and extra query
    text optional). Text after such a prefix does not matter, and a string
    without such a prefix, like the vimeo address, is rejected. The
    validator is a function of the string alone. *)
Theorem validate_url_iff_link_prefix :
  (forall s : string,
      (Tk.validate_url s = true <-> has_link_prefix s) /\
      (Qt.validate_url s = true <-> has_link_prefix s)) /\
  Tk.validate_url "https://www.youtube.com/watch?v=abc123" = true /\
  Tk.validate_url "youtu.be/abc123?t=5" = true /\
  Tk.validate_url "youtu.be/abc123 trailing garbage" = true /\
  Tk.validate_url "https://vimeo.com/12345" = false /\
  Qt.validate_url "https://vimeo.com/12345" = false.
Proof.
  split; [|repeat split; reflexivity].
  intros s. unfold Tk.validate_url, Qt.validate_url.
  rewrite tk_patterns_shapes, qt_patterns_shapes.
  split; apply shapes_match_iff_prefix.
Qed.

Lemma qt_validate_as_tk (s : string) : Qt.validate_url s = Tk.validate_url s.
Proof.
  unfold Tk.validate_url, Qt.validate_url.
  now rewrite tk_patterns_shapes, qt_patterns_shapes.
Qed.

(** C9. The validators of the two implementations agree on every string. *)
Theorem validate_url_tk_qt_equal :
  forall s : string, Tk.validate_url s = Qt.validate_url s.
Proof. intros s. symmetry. apply qt_validate_as_tk. Qed.

(** ** Lists *)

Unset Implicit Arguments.

Lemma firstn_in {A : Type} (x : A) : forall n l, In x (firstn n l) -> In x l.
Proof.
  induction n as [|n IH]; intros [|y l]; simpl; try tauto.
  intros [E | H]; [now left | right; auto].
Qed.

Lemma firstn_nodup {A : Type} : forall n (l : list A),
  NoDup l -> NoDup (firstn n l).
Proof.
  induction n as [|n IH]; intros [|y l] H; simpl; try constructor.
  - inversion H; subst. intros Hin. apply firstn_in in Hin. contradiction.
  - inversion H; subst. auto.
Qed.

(** ** Dicts *)

Section DictFacts.

Context {V : Type}.
Implicit Types (d : dict V) (k : string) (v : V).

Lemma dict_get_in k v d : dict_get k d = Some v -> In (k, v) d.
Proof.
  induction d as [|[k' v'] d IH]; simpl; [discriminate|].
  destruct (String.eqb_spec k' k) as [->|Hne].
  - intros [= ->]. now left.
  - intros H. right. auto.
Qed.

Lemma dict_get_none k d : dict_get k d = None <-> ~ In k (dict_keys d).
Proof.
  induction d as [|[k' v'] d IH]; simpl; [tauto|].
  destruct (String.eqb_spec k' k) as [->|Hne].
  - split; [discriminate | intros H; exfalso; auto].
  - rewrite IH. tauto.
Qed.

Lemma dict_mem_in k d : dict_mem k d = true <-> In k (dict_keys d).
Proof.
  unfold dict_mem. destruct (dict_get k d) eqn:E.
  - split; [intros _ | reflexivity].
    apply dict_get_in in E. now apply (in_map fst) in E.
  - apply dict_get_none in E. split; [discriminate | contradiction].
Qed.

Lemma dict_set_new k v d : dict_get k d = None -> dict_set k v d = d ++ [(k, v)].
Proof.
  induction d as [|[k' v'] d IH]; simpl; [reflexivity|].
  destruct (String.eqb k' k); [discriminate|].
  intros H. now rewrite IH.
Qed.

Lemma dict_keys_set_old k v v0 d :
  dict_get k d = Some v0 -> dict_keys (dict_set k v d) = dict_keys d.
Proof.
  induction d as [|[k' v'] d IH]; simpl; [discriminate|].
  destruct (String.eqb k' k); simpl; [reflexivity|].
  intros H. now rewrite IH.
Qed.

Lemma dict_get_set_eq k v d : dict_get k (dict_set k v d) = Some v.
Proof.
  induction d as [|[k' v'] d IH]; simpl.
  - now rewrite String.eqb_refl.
  - destruct (String.eqb k' k) eqn:E; simpl; now rewrite E.
Qed.

Lemma dict_get_set_ne k k0 v d :
  k <> k0 -> dict_get k0 (dict_set k v d) = dict_get k0 d.
Proof.
  intros Hne. induction d as [|[k' v'] d IH]; simpl.
  - apply String.eqb_neq in Hne. now rewrite Hne.
  - destruct (String.eqb_spec k' k) as [->|Hk]; simpl.
    + apply String.eqb_neq in Hne. now rewrite Hne.
    + now rewrite IH.
Qed.

Lemma dict_get_del_ne k k0 d :
  k <> k0 -> dict_get k0 (dict_del k d) = dict_get k0 d.
Proof.
  intros Hne. induction d as [|[k' v'] d IH]; simpl; [reflexivity|].
  destruct (String.eqb_spec k' k) as [->|Hk]; simpl.
  - apply String.eqb_neq in Hne. now rewrite Hne.
  - now rewrite IH.
Qed.

Lemma dict_del_length k d :
  In k (dict_keys d) -> S (List.length (dict_del k d)) = List.length d.
Proof.
  induction d as [|[k' v'] d IH]; simpl; [contradiction|].
  destruct (String.eqb_spec k' k) as [->|Hk]; [reflexivity|].
  intros [E | Hin]; [contradiction|]. simpl. now rewrite IH.
Qed.

Lemma dict_del_keys_in k k0 d :
  In k0 (dict_keys (dict_del k d)) -> In k0 (dict_keys d).
Proof.
  induction d as [|[k' v'] d IH]; simpl; [tauto|].
  destruct (String.eqb k' k); simpl; tauto.
Qed.

Lemma dict_del_keys_other k k0 d :
  k <> k0 -> In k0 (dict_keys d) -> In k0 (dict_keys (dict_del k d)).
Proof.
  intros Hne. induction d as [|[k' v'] d IH]; simpl; [tauto|].
  destruct (String.eqb_spec k' k) as [->|Hk]; simpl.
  - intros [E | H]; [contradiction | assumption].
  - tauto.
Qed.

Lemma dict_del_ok k d : dict_ok d -> dict_ok (dict_del k d).
Proof.
  unfold dict_ok. induction d as [|[k' v'] d IH]; simpl; [auto|].
  intros H. inversion H; subst.
  destruct (String.eqb k' k); simpl; [assumption|].
  constructor; [|auto]. intros Hin. apply dict_del_keys_in in Hin. contradiction.
Qed.

Lemma dict_set_ok k v d : dict_ok d -> dict_ok (dict_set k v d).
Proof.
  unfold dict_ok. intros H. destruct (dict_get k d) as [v0|] eqn:E.
  - now rewrite (@dict_keys_set_old k v v0 d E).
  - rewrite (@dict_set_new k v d E). unfold dict_keys. rewrite map_app. simpl.
    apply dict_get_none in E.
    apply NoDup_rev in H. rewrite <- (rev_involutive (map fst d ++ [k])).
    apply NoDup_rev. rewrite rev_app_distr. simpl. constructor; [|assumption].
    now rewrite <- in_rev.
Qed.

(** Deleting a list of keys that are distinct keys of the dict. *)
Lemma fold_del_length : forall (ks : list string) d,
  NoDup ks -> incl ks (dict_keys d) ->
  List.length (fold_left (fun d0 key => dict_del key d0) ks d) + List.length ks
  = List.length d.
Proof.
  induction ks as [|k ks IH]; intros d Hnd Hincl; simpl; [lia|].
  inversion Hnd; subst.
  rewrite <- (@dict_del_length k d) by (apply Hincl; now left).
  rewrite <- (IH (dict_del k d)); [lia | assumption |].
  intros k0 Hk0. apply dict_del_keys_other.
  - intros ->. contradiction.
  - apply Hincl. now right.
Qed.

Lemma fold_del_get : forall (ks : list string) k d,
  ~ In k ks ->
  dict_get k (fold_left (fun d0 key => dict_del key d0) ks d) = dict_get k d.
Proof.
  induction ks as [|k' ks IH]; intros k d Hn; simpl; [reflexivity|].
  rewrite IH by (intros H; apply Hn; now right).
  apply dict_get_del_ne. intros ->. apply Hn. now left.
Qed.

Lemma fold_del_ok : forall (ks : list string) d,
  dict_ok d -> dict_ok (fold_left (fun d0 key => dict_del key d0) ks d).
Proof.
  induction ks as [|k ks IH]; intros d H; simpl; [assumption|].
  apply IH. now apply dict_del_ok.
Qed.

End DictFacts.

(** ** The stable sort *)

Section SortedFacts.

Context {A : Type} (key : A -> string).

Lemma insert_sorted_perm x l : Permutation (insert_sorted key x l) (x :: l).
Proof.
  induction l as [|y l IH]; simpl; [reflexivity|].
  destruct (key x <=? key y)%string; [reflexivity|].
  rewrite IH. apply perm_swap.
Qed.

Lemma sorted_perm l : Permutation (sorted key l) l.
Proof.
  induction l as [|x l IH]; simpl; [reflexivity|].
  rewrite insert_sorted_perm. now constructor.
Qed.

(** An element whose key is strictly above those of a list goes last. *)
Lemma insert_sorted_last x l :
  (forall y, In y l -> (key x <=? key y)%string = false) ->
  insert_sorted key x l = l ++ [x].
Proof.
  induction l as [|y l IH]; simpl; intros H; [reflexivity|].
  rewrite (H y) by now left. rewrite IH; [reflexivity|].
  intros z Hz. apply H. now right.
Qed.

Lemma insert_sorted_before_last a x m :
  (key a <=? key x)%string = true ->
  insert_sorted key a (m ++ [x]) = insert_sorted key a m ++ [x].
Proof.
  intros Hax. induction m as [|y m IH]; simpl.
  - now rewrite Hax.
  - destruct (key a <=? key y)%string; [reflexivity|]. now rewrite IH.
Qed.

(** Stability: an element that is not below the ones before it and is
    strictly above the ones after it comes out last. *)
Lemma sorted_last l1 x l2 :
  (forall a, In a l1 -> (key a <=? key x)%string = true) ->
  (forall y, In y l2 -> (key x <=? key y)%string = false) ->
  sorted key (l1 ++ x :: l2) = sorted key (l1 ++ l2) ++ [x].
Proof.
  intros H1 H2. induction l1 as [|a l1 IH]; simpl.
  - apply insert_sorted_last. intros y Hy. apply H2.
    now apply (Permutation_in _ (sorted_perm l2)).
  - fold (sorted key (l1 ++ x :: l2)). fold (sorted key (l1 ++ l2)).
    rewrite IH by (intros b Hb; apply H1; now right).
    apply insert_sorted_before_last. apply H1. now left.
Qed.

End SortedFacts.

(** ** The history store *)

#[local] Arguments String.leb : simpl never.
#[local] Arguments String.eqb : simpl nomatch.

Lemma record_play_get_new ttl now url h :
  dict_get url h = None ->
  dict_get url (record_play ttl now url h)
  = Some {| title := ttl; timestamp := now; play_count := 1 |}.
Proof.
  intros E. unfold record_play, dict_mem. rewrite E. simpl.
  apply dict_get_set_eq.
Qed.

Lemma record_play_get_old ttl now url h e :
  dict_get url h = Some e ->
  dict_get url (record_play ttl now url h)
  = Some {| title := title e; timestamp := now;
            play_count := play_count e + 1 |}.
Proof.
  intros E. unfold record_play, dict_mem. rewrite E. simpl.
  apply dict_get_set_eq.
Qed.

Lemma record_play_get_other ttl now url h k :
  k <> url ->
  dict_get k (record_play ttl now url h) = dict_get k h.
Proof.
  intros Hne. unfold record_play, dict_mem.
  destruct (dict_get url h) eqn:E; simpl;
    apply dict_get_set_ne; congruence.
Qed.

Lemma record_play_keys ttl now url h :
  dict_keys (record_play ttl now url h)
  = if dict_mem url h then dict_keys h else dict_keys h ++ [url].
Proof.
  unfold record_play, dict_mem.
  destruct (dict_get url h) eqn:E; simpl.
  - eapply dict_keys_set_old; eassumption.
  - rewrite (dict_set_new url _ h E). unfold dict_keys.
    now rewrite map_app.
Qed.

Lemma record_play_ok ttl now url h :
  dict_ok h -> dict_ok (record_play ttl now url h).
Proof.
  intros H. unfold record_play, dict_mem.
  destruct (dict_get url h); simpl; now apply dict_set_ok.
Qed.

Lemma record_play_timestamp ttl now url h :
  timestamp_of (record_play ttl now url h) url = now.
Proof.
  unfold timestamp_of. destruct (dict_get url h) as [e|] eqn:E.
  - now rewrite (record_play_get_old ttl now url h e E).
  - now rewrite (record_play_get_new ttl now url h E).
Qed.

Lemma evict_within_cap max h :
  (Z.of_nat (List.length h) <= max)%Z -> evict_oldest max h = h.
Proof.
  intros H. unfold evict_oldest.
  destruct (Z.gtb_spec (Z.of_nat (List.length h)) max); [lia | reflexivity].
Qed.

Lemma evict_ok max h : dict_ok h -> dict_ok (evict_oldest max h).
Proof.
  intros H. unfold evict_oldest.
  destruct (Z.of_nat (List.length h) >? max)%Z; [|assumption].
  now apply fold_del_ok.
Qed.

(** The keys [save_history] deletes are keys of the mapping, each listed
    once: no [del] of the loop meets a missing key. *)
Lemma evict_keys_present max h :
  dict_ok h ->
  let keys_to_remove :=
    firstn (Z.to_nat (Z.of_nat (List.length h) - max))
           (sorted (timestamp_of h) (dict_keys h)) in
  NoDup keys_to_remove /\ incl keys_to_remove (dict_keys h).
Proof.
  intros Hok keys_to_remove.
  assert (Hperm := sorted_perm (timestamp_of h) (dict_keys h)).
  split.
  - apply firstn_nodup.
    apply (Permutation_NoDup (Permutation_sym Hperm)). exact Hok.
  - intros k Hk. apply (Permutation_in _ Hperm).
    eapply firstn_in; eassumption.
Qed.

(** After the eviction the mapping is within the cap. *)
Lemma evict_length max h :
  dict_ok h -> (0 <= max)%Z ->
  (Z.of_nat (List.length (evict_oldest max h)) <= max)%Z.
Proof.
  intros Hok Hmax. unfold evict_oldest.
  destruct (Z.gtb_spec (Z.of_nat (List.length h)) max) as [Hgt|Hle]; [|lia].
  set (n := Z.to_nat (Z.of_nat (List.length h) - max)).
  set (ks := firstn n (sorted (timestamp_of h) (dict_keys h))).
  assert (Hperm := sorted_perm (timestamp_of h) (dict_keys h)).
  assert (Hlen : List.length ks = n).
  { unfold ks. apply firstn_length_le.
    rewrite (Permutation_length Hperm). unfold dict_keys. rewrite length_map.
    unfold n. lia. }
  destruct (evict_keys_present max h Hok) as [Hnd Hincl]. fold n ks in Hnd, Hincl.
  pose proof (fold_del_length ks h Hnd Hincl) as Hfold.
  unfold n in Hlen. lia.
Qed.

(** The key that sorts last is never among the evicted ones when the cap
    is at least one. *)
Lemma evict_keeps_last max h url l1 l2 :
  dict_ok h -> (1 <= max)%Z ->
  dict_keys h = l1 ++ url :: l2 ->
  (forall a, In a l1 ->
     (timestamp_of h a <=? timestamp_of h url)%string = true) ->
  (forall y, In y l2 ->
     (timestamp_of h url <=? timestamp_of h y)%string = false) ->
  dict_get url (evict_oldest max h) = dict_get url h.
Proof.
  intros Hok Hmax Hkeys H1 H2. unfold evict_oldest.
  destruct (Z.gtb_spec (Z.of_nat (List.length h)) max) as [Hgt|Hle];
    [|reflexivity].
  apply fold_del_get. rewrite Hkeys, (sorted_last _ l1 url l2 H1 H2).
  assert (Hperm := sorted_perm (timestamp_of h) (l1 ++ l2)).
  assert (Hlen : List.length h = S (List.length (l1 ++ l2))).
  { rewrite <- (length_map fst h). fold (dict_keys h). rewrite Hkeys.
    rewrite !length_app. simpl. lia. }
  rewrite firstn_app.
  replace (Z.to_nat (Z.of_nat (List.length h) - max)
           - List.length (sorted (timestamp_of h) (l1 ++ l2)))%nat with 0%nat
    by (rewrite (Permutation_length Hperm); lia).
  simpl. rewrite app_nil_r. intros Hin.
  apply firstn_in in Hin. apply (Permutation_in _ Hperm) in Hin.
  unfold dict_ok in Hok. rewrite Hkeys in Hok.
  apply NoDup_remove_2 in Hok. contradiction.
Qed.

Lemma ltb_leb (a b : string) :
  (a <? b)%string = true ->
  (a <=? b)%string = true /\ (b <=? a)%string = false.
Proof.
  unfold String.ltb, String.leb. rewrite (String.compare_antisym b a).
  destruct (String.compare a b); simpl; intros H; try discriminate; auto.
Qed.

Lemma dict_key_has_entry {V : Type} (k : string) (d : dict V) :
  In k (dict_keys d) -> exists v, dict_get k d = Some v /\ In (k, v) d.
Proof.
  intros Hin. destruct (dict_get k d) as [v|] eqn:E.
  - exists v. split; [reflexivity | now apply dict_get_in].
  - apply dict_get_none in E. contradiction.
Qed.

(** The entry just recorded survives the eviction of the same call. *)
Lemma record_then_evict_keeps ttl now url max h :
  dict_ok h -> (1 <= max)%Z ->
  (forall k e, In (k, e) h -> (timestamp e <=? now)%string = true) ->
  (dict_mem url h = false \/
   (Z.of_nat (List.length h) <= max)%Z \/
   (forall k e, In (k, e) h -> k <> url -> (timestamp e <? now)%string = true)) ->
  dict_get url (evict_oldest max (record_play ttl now url h))
  = dict_get url (record_play ttl now url h).
Proof.
  intros Hok Hmax Hle Hcase.
  set (h' := record_play ttl now url h).
  assert (Hok' : dict_ok h') by now apply record_play_ok.
  assert (Hts : timestamp_of h' url = now) by apply record_play_timestamp.
  assert (Hother : forall a, a <> url -> timestamp_of h' a = timestamp_of h a).
  { intros a Ha. unfold timestamp_of, h'. now rewrite record_play_get_other. }
  assert (Hkeys := record_play_keys ttl now url h). fold h' in Hkeys.
  destruct (dict_get url h) as [e0|] eqn:E.
  - (* the URL was played before: it keeps its place *)
    assert (Hmem : dict_mem url h = true) by (unfold dict_mem; now rewrite E).
    rewrite Hmem in Hkeys.
    destruct Hcase as [Hnew | [Hcap | Hstrict]].
    + congruence.
    + rewrite evict_within_cap; [reflexivity|].
      rewrite <- (length_map fst h'). fold (dict_keys h'). rewrite Hkeys.
      unfold dict_keys. now rewrite length_map.
    + assert (Hin : In url (dict_keys h)) by now apply dict_mem_in.
      apply in_split in Hin. destruct Hin as (l1 & l2 & Hsplit).
      assert (Hnd : NoDup (l1 ++ url :: l2)) by (rewrite <- Hsplit; exact Hok).
      assert (Hothers : forall a, In a (l1 ++ l2) ->
                (timestamp_of h' a <? now)%string = true).
      { intros a Ha.
        assert (Hne : a <> url).
        { intros ->. apply NoDup_remove_2 in Hnd. contradiction. }
        rewrite (Hother a Hne).
        destruct (dict_key_has_entry a h) as (e & Hget & Hine).
        { rewrite Hsplit. apply in_app_iff in Ha. apply in_app_iff.
          simpl. tauto. }
        unfold timestamp_of. rewrite Hget. eapply Hstrict; eassumption. }
      apply (evict_keeps_last max h' url l1 l2); try assumption.
      * congruence.
      * intros a Ha. rewrite Hts. apply ltb_leb, Hothers, in_app_iff. tauto.
      * intros y Hy. rewrite Hts. apply ltb_leb, Hothers, in_app_iff. tauto.
  - (* a first play: the URL goes last *)
    assert (Hmem : dict_mem url h = false) by (unfold dict_mem; now rewrite E).
    rewrite Hmem in Hkeys.
    apply (evict_keeps_last max h' url (dict_keys h) []); try assumption.
    + intros a Ha. rewrite Hts.
      assert (Hne : a <> url).
      { intros ->. apply dict_get_none in E. contradiction. }
      rewrite (Hother a Hne).
      destruct (dict_key_has_entry a h Ha) as (e & Hget & Hine).
      unfold timestamp_of. rewrite Hget. eapply Hle; eassumption.
    + intros y [].
Qed.

Lemma record_play_mem ttl now url h :
  dict_mem url (record_play ttl now url h) = true.
Proof.
  unfold dict_mem. destruct (dict_get url h) as [e|] eqn:E.
  - now rewrite (record_play_get_old ttl now url h e E).
  - now rewrite (record_play_get_new ttl now url h E).
Qed.

Lemma record_play_length_le ttl now url h :
  (List.length (record_play ttl now url h) <= S (List.length h))%nat.
Proof.
  rewrite <- (length_map fst (record_play ttl now url h)).
  fold (dict_keys (record_play ttl now url h)). rewrite record_play_keys.
  destruct (dict_mem url h); unfold dict_keys;
    rewrite ?length_app, !length_map; simpl; lia.
Qed.

Lemma record_play_length_old ttl now url h e :
  dict_get url h = Some e ->
  List.length (record_play ttl now url h) = List.length h.
Proof.
  intros E.
  rewrite <- (length_map fst (record_play ttl now url h)).
  fold (dict_keys (record_play ttl now url h)). rewrite record_play_keys.
  unfold dict_mem. rewrite E. unfold dict_keys. now rewrite length_map.
Qed.

(** ** The persisted document *)

Lemma json_entry_roundtrip e : json_to_entry (entry_to_json e) = Some e.
Proof. destruct e as [[t|] ts n]; reflexivity. Qed.

Lemma json_fold_roundtrip : forall (h2 h1 : dict entry),
  dict_ok (h1 ++ h2) ->
  fold_left
    (fun acc kv =>
       match acc, json_to_entry (snd kv) with
       | Some d, Some e => Some (dict_set (fst kv) e d)
       | _, _ => None
       end)
    (map (fun kv => (fst kv, entry_to_json (snd kv))) h2) (Some h1)
  = Some (h1 ++ h2).
Proof.
  induction h2 as [|[k e] h2 IH]; intros h1 Hok; cbn [map fold_left fst snd].
  - now rewrite app_nil_r.
  - rewrite json_entry_roundtrip.
    assert (Hfresh : dict_get k h1 = None).
    { apply dict_get_none. unfold dict_ok, dict_keys in Hok.
      rewrite map_app in Hok. simpl in Hok.
      apply NoDup_remove_2 in Hok. intros Hin. apply Hok.
      apply in_app_iff. now left. }
    rewrite (dict_set_new k e h1 Hfresh).
    rewrite IH; rewrite <- app_assoc; simpl; [reflexivity | assumption].
Qed.

(** Loading what was dumped gives the mapping back. *)
Lemma json_history_roundtrip (h : dict entry) :
  dict_ok h -> json_to_history (history_to_json h) = Some h.
Proof. intros Hok. apply (json_fold_roundtrip h []). exact Hok. Qed.

(** Entries are read by key: the order of the members and members the
    program does not know make no difference. *)
Lemma load_reads_entries_by_key :
  json_to_history (load_history (Some (Document reordered_doc)))
  = Some [(url_a, played ten_am 4)] /\
  exists st,
    startup 5 "tools/mpv.exe" (Some (Document reordered_doc)) = Some st /\
    history st = [(url_a, played ten_am 4)].
Proof.
  split; [reflexivity|]. eexists. split; reflexivity.
Qed.

(** A loaded mapping is a dict. *)
Lemma json_to_history_ok j h : json_to_history j = Some h -> dict_ok h.
Proof.
  destruct j as [| | | | |m]; simpl; try discriminate.
  assert (G : forall (m0 : list (string * json)) (acc : option (dict entry)),
             (forall d, acc = Some d -> dict_ok d) ->
             forall d, fold_left
                         (fun acc kv =>
                            match acc, json_to_entry (snd kv) with
                            | Some d, Some e => Some (dict_set (fst kv) e d)
                            | _, _ => None
                            end) m0 acc = Some d -> dict_ok d).
  { induction m0 as [|[k j] m0 IH]; intros acc Hacc d; simpl; [apply Hacc|].
    apply IH. intros d0. destruct acc as [d1|]; [|discriminate].
    destruct (json_to_entry j); [|discriminate].
    intros [= <-]. apply dict_set_ok. now apply Hacc. }
  apply G. intros d [= <-]. constructor.
Qed.

(** ** The order of timestamps *)

Lemma string_lt_irrefl (a : string) : ~ OrdersEx.String_as_OT.lt a a.
Proof.
  exact (RelationClasses.StrictOrder_Irreflexive
           (StrictOrder := OrdersEx.String_as_OT.lt_strorder) a).
Qed.

Lemma string_lt_trans (a b c : string) :
  OrdersEx.String_as_OT.lt a b -> OrdersEx.String_as_OT.lt b c ->
  OrdersEx.String_as_OT.lt a c.
Proof.
  exact (RelationClasses.StrictOrder_Transitive
           (StrictOrder := OrdersEx.String_as_OT.lt_strorder) a b c).
Qed.

Lemma leb_cases (a b : string) :
  (a <=? b)%string = true <-> a = b \/ OrdersEx.String_as_OT.lt a b.
Proof.
  unfold String.leb.
  change (String.compare a b) with (OrdersEx.String_as_OT.compare a b).
  destruct (OrdersEx.String_as_OT.compare_spec a b) as [E | L | L].
  - split; auto.
  - split; auto.
  - split; [discriminate|]. intros [E | L'].
    + subst. exfalso. exact (string_lt_irrefl _ L).
    + exfalso. exact (string_lt_irrefl _ (string_lt_trans _ _ _ L L')).
Qed.

Lemma leb_trans (a b c : string) :
  (a <=? b)%string = true -> (b <=? c)%string = true ->
  (a <=? c)%string = true.
Proof.
  rewrite !leb_cases. intros [-> | Hab] [-> | Hbc]; auto.
  right. eapply string_lt_trans; eassumption.
Qed.

Lemma leb_false_flip (a b : string) :
  (a <=? b)%string = false -> (b <=? a)%string = true.
Proof.
  intros H. destruct (String.leb_total a b) as [E | E]; congruence.
Qed.

(** ** The sort gives a sorted list *)

Lemma skipn_in {A : Type} (x : A) : forall n l, In x (skipn n l) -> In x l.
Proof.
  induction n as [|n IH]; intros [|y l]; simpl; try tauto.
  intros H. right. auto.
Qed.

Section SortedOrder.

Context {A : Type} (key : A -> string).

Lemma insert_sorted_in x y l :
  In y (insert_sorted key x l) <-> y = x \/ In y l.
Proof.
  split.
  - intros H. apply (Permutation_in _ (insert_sorted_perm key x l)) in H.
    simpl in H. intuition.
  - intros H. apply (Permutation_in _ (Permutation_sym (insert_sorted_perm key x l))).
    simpl. intuition.
Qed.

Lemma insert_sorted_sorted x l :
  Sorted.StronglySorted (key_le key) l ->
  Sorted.StronglySorted (key_le key) (insert_sorted key x l).
Proof.
  induction 1 as [|y l Hs IH Hall]; simpl.
  - repeat constructor.
  - destruct (key x <=? key y)%string eqn:E.
    + constructor; [now constructor|].
      constructor; [exact E|].
      rewrite Forall_forall in *. intros z Hz.
      eapply leb_trans; [exact E | now apply Hall].
    + constructor; [exact IH|].
      rewrite Forall_forall in *. intros z Hz.
      apply insert_sorted_in in Hz. destruct Hz as [-> | Hz].
      * now apply leb_false_flip.
      * now apply Hall.
Qed.

Lemma sorted_sorted l : Sorted.StronglySorted (key_le key) (sorted key l).
Proof.
  induction l as [|x l IH]; simpl; [constructor|].
  now apply insert_sorted_sorted.
Qed.

Lemma strongly_sorted_split (l : list A) : forall n a b,
  Sorted.StronglySorted (key_le key) l ->
  In a (firstn n l) -> In b (skipn n l) -> key_le key a b.
Proof.
  induction l as [|x l IH]; intros [|n] a b Hs Ha Hb; simpl in *;
    try contradiction.
  inversion Hs as [|? ? Hs' Hall]; subst.
  destruct Ha as [<- | Ha].
  - rewrite Forall_forall in Hall. apply Hall.
    apply (skipn_in b n). exact Hb.
  - eapply IH; eassumption.
Qed.

End SortedOrder.

(** ** The keys the eviction removes *)

Lemma dict_del_in {V : Type} (k : string) (x : string * V) (d : dict V) :
  In x (dict_del k d) -> In x d.
Proof.
  induction d as [|[k' v'] d IH]; simpl; [tauto|].
  destruct (String.eqb k' k); simpl; tauto.
Qed.

Lemma fold_del_in {V : Type} (x : string * V) : forall (ks : list string) d,
  In x (fold_left (fun d0 key => dict_del key d0) ks d) -> In x d.
Proof.
  induction ks as [|k ks IH]; intros d H; simpl in H; [exact H|].
  apply IH in H. eapply dict_del_in; eassumption.
Qed.

Lemma dict_get_del_eq {V : Type} (k : string) (d : dict V) :
  dict_ok d -> dict_get k (dict_del k d) = None.
Proof.
  unfold dict_ok. induction d as [|[k' v'] d IH]; simpl; [reflexivity|].
  intros H. inversion H; subst.
  destruct (String.eqb_spec k' k) as [->|Hne].
  - now apply dict_get_none.
  - simpl. apply String.eqb_neq in Hne. rewrite Hne. auto.
Qed.

Lemma fold_del_get_removed {V : Type} (k : string) :
  forall (ks : list string) (d : dict V),
    dict_ok d -> In k ks ->
    dict_get k (fold_left (fun d0 key => dict_del key d0) ks d) = None.
Proof.
  induction ks as [|k' ks IH]; intros d Hok Hin; simpl; [contradiction|].
  destruct (in_dec string_dec k ks) as [Hks | Hks].
  - apply IH; [now apply dict_del_ok | assumption].
  - destruct Hin as [-> | Hin]; [|contradiction].
    rewrite fold_del_get by assumption.
    now apply dict_get_del_eq.
Qed.

Lemma evict_in max h x : In x (evict_oldest max h) -> In x h.
Proof.
  unfold evict_oldest.
  destruct (Z.of_nat (List.length h) >? max)%Z; [|auto].
  apply fold_del_in.
Qed.

(** A key is kept, with its entry, or is among the first keys of the
    sorted list. *)
Lemma evict_get max h k :
  dict_ok h ->
  (dict_get k (evict_oldest max h) = dict_get k h /\
   ((Z.of_nat (List.length h) <= max)%Z \/
    ~ In k (firstn (Z.to_nat (Z.of_nat (List.length h) - max))
                   (sorted (timestamp_of h) (dict_keys h))))) \/
  (dict_get k (evict_oldest max h) = None /\
   (Z.of_nat (List.length h) > max)%Z /\
   In k (firstn (Z.to_nat (Z.of_nat (List.length h) - max))
                (sorted (timestamp_of h) (dict_keys h)))).
Proof.
  intros Hok. unfold evict_oldest.
  destruct (Z.gtb_spec (Z.of_nat (List.length h)) max) as [Hgt|Hle].
  - set (ks := firstn _ _).
    destruct (in_dec string_dec k ks) as [Hin | Hout].
    + right. split; [now apply fold_del_get_removed | split; [lia | exact Hin]].
    + left. split; [now apply fold_del_get | now right].
  - left. split; [reflexivity | left; lia].
Qed.

Lemma evict_length_exact max h :
  dict_ok h ->
  List.length (evict_oldest max h)
  = Nat.min (List.length h) (Z.to_nat max).
Proof.
  intros Hok. unfold evict_oldest.
  destruct (Z.gtb_spec (Z.of_nat (List.length h)) max) as [Hgt|Hle]; [|lia].
  destruct (evict_keys_present max h Hok) as [Hnd Hincl].
  pose proof (fold_del_length _ h Hnd Hincl) as Hfold.
  rewrite length_firstn in Hfold.
  rewrite (Permutation_length (sorted_perm (timestamp_of h) (dict_keys h)))
    in Hfold.
  assert (Hk : List.length (dict_keys h) = List.length h)
    by apply length_map.
  rewrite Hk in Hfold. lia.
Qed.

(** Every entry the eviction removes carries a timestamp not later than
    that of every entry it keeps. *)
Lemma evict_removes_oldest max h gone kept :
  dict_ok h ->
  dict_mem gone h = true ->
  dict_mem gone (evict_oldest max h) = false ->
  dict_mem kept (evict_oldest max h) = true ->
  (timestamp_of h gone <=? timestamp_of h kept)%string = true.
Proof.
  intros Hok Hwas Hgone Hkept. unfold dict_mem in *.
  destruct (evict_get max h gone Hok) as [[Eg Hg] | [Eg [Hgt Hg]]].
  { rewrite Eg in Hgone. destruct (dict_get gone h); discriminate. }
  destruct (evict_get max h kept Hok) as [[Ek [Hk | Hk]] | [Ek _]].
  - lia.
  - assert (Hin : In kept (dict_keys h)).
    { apply dict_mem_in. unfold dict_mem. now rewrite <- Ek. }
    apply (Permutation_in _ (Permutation_sym
             (sorted_perm (timestamp_of h) (dict_keys h)))) in Hin.
    rewrite <- (firstn_skipn (Z.to_nat (Z.of_nat (List.length h) - max))
                  (sorted (timestamp_of h) (dict_keys h))) in Hin.
    apply in_app_iff in Hin. destruct Hin as [Hin | Hin]; [contradiction|].
    exact (strongly_sorted_split (timestamp_of h) _ _ gone kept
             (sorted_sorted (timestamp_of h) (dict_keys h)) Hg Hin).
  - rewrite Ek in Hkept. discriminate.
Qed.

(** ** A first play goes last and stays *)

Lemma insert_sorted_ext {A : Type} (key1 key2 : A -> string) x m :
  key1 x = key2 x -> (forall y, In y m -> key1 y = key2 y) ->
  insert_sorted key1 x m = insert_sorted key2 x m.
Proof.
  intros Hx. induction m as [|y m IH]; intros Hm; simpl; [reflexivity|].
  rewrite Hx, (Hm y) by now left.
  destruct (key2 x <=? key2 y)%string; [reflexivity|].
  rewrite IH; [reflexivity|]. intros z Hz. apply Hm. now right.
Qed.

Lemma sorted_ext {A : Type} (key1 key2 : A -> string) l :
  (forall x, In x l -> key1 x = key2 x) ->
  sorted key1 l = sorted key2 l.
Proof.
  induction l as [|x l IH]; intros H; simpl; [reflexivity|].
  fold (sorted key1 l). fold (sorted key2 l).
  rewrite IH by (intros y Hy; apply H; now right).
  apply insert_sorted_ext; [apply H; now left|].
  intros y Hy. apply H. right.
  now apply (Permutation_in _ (sorted_perm key2 l)).
Qed.

Lemma dict_get_app {V : Type} (k : string) (d1 d2 : dict V) :
  dict_get k (d1 ++ d2)
  = match dict_get k d1 with
    | Some v => Some v
    | None => dict_get k d2
    end.
Proof.
  induction d1 as [|[k' v'] d1 IH]; simpl; [reflexivity|].
  destruct (String.eqb k' k); [reflexivity | exact IH].
Qed.

Lemma dict_del_snoc {V : Type} (k : string) (x : string * V) (d : dict V) :
  k <> fst x -> dict_del k (d ++ [x]) = dict_del k d ++ [x].
Proof.
  intros Hne. induction d as [|[k' v'] d IH]; simpl.
  - destruct x as [kx vx]. simpl in Hne.
    destruct (String.eqb_spec kx k) as [->|_]; [now elim Hne | reflexivity].
  - destruct (String.eqb k' k); [reflexivity|]. now rewrite IH.
Qed.

Lemma fold_del_snoc {V : Type} (x : string * V) :
  forall (ks : list string) (d : dict V),
    ~ In (fst x) ks ->
    fold_left (fun d0 key => dict_del key d0) ks (d ++ [x])
    = fold_left (fun d0 key => dict_del key d0) ks d ++ [x].
Proof.
  induction ks as [|k ks IH]; intros d Hout; simpl; [reflexivity|].
  rewrite dict_del_snoc by (intros ->; apply Hout; now left).
  apply IH. intros Hin. apply Hout. now right.
Qed.

(** An entry that is new, at the end of the dict and not older than any
    other is kept: the eviction treats the entries before it as a store
    with one place less. *)
Lemma evict_snoc_newest max h url e :
  dict_ok h -> dict_get url h = None -> (1 <= max)%Z ->
  (forall k e', In (k, e') h ->
     (timestamp e' <=? timestamp e)%string = true) ->
  evict_oldest max (h ++ [(url, e)])
  = evict_oldest (max - 1) h ++ [(url, e)].
Proof.
  intros Hok Hnew Hmax Hle. unfold evict_oldest.
  rewrite length_app. cbn [List.length].
  destruct (Z.gtb_spec (Z.of_nat (List.length h + 1)) max) as [Hgt|Hle'];
    destruct (Z.gtb_spec (Z.of_nat (List.length h)) (max - 1)) as [Hgt'|Hle''];
    try lia; [|reflexivity].
  replace (Z.to_nat (Z.of_nat (List.length h + 1) - max))
    with (Z.to_nat (Z.of_nat (List.length h) - (max - 1))) by lia.
  set (n := Z.to_nat (Z.of_nat (List.length h) - (max - 1))).
  assert (Hout : ~ In url (dict_keys h)).
  { intros Hin. apply dict_mem_in in Hin. unfold dict_mem in Hin.
    rewrite Hnew in Hin. discriminate. }
  assert (Hts_url : timestamp_of (h ++ [(url, e)]) url = timestamp e).
  { unfold timestamp_of. rewrite dict_get_app, Hnew. simpl.
    now rewrite String.eqb_refl. }
  assert (Hts_old : forall k, In k (dict_keys h) ->
            timestamp_of (h ++ [(url, e)]) k = timestamp_of h k).
  { intros k Hk. unfold timestamp_of. rewrite dict_get_app.
    destruct (dict_key_has_entry k h Hk) as (v & -> & _). reflexivity. }
  assert (Hkeys : dict_keys (h ++ [(url, e)]) = dict_keys h ++ [url]).
  { unfold dict_keys. now rewrite map_app. }
  rewrite Hkeys.
  rewrite (sorted_last (timestamp_of (h ++ [(url, e)])) (dict_keys h) url []).
  - rewrite app_nil_r.
    rewrite (sorted_ext _ (timestamp_of h) (dict_keys h) Hts_old).
    assert (Hperm := sorted_perm (timestamp_of h) (dict_keys h)).
    assert (Hlen : List.length (sorted (timestamp_of h) (dict_keys h))
                   = List.length h).
    { rewrite (Permutation_length Hperm). apply length_map. }
    rewrite firstn_app.
    replace (n - List.length (sorted (timestamp_of h) (dict_keys h)))%nat
      with 0%nat by (rewrite Hlen; unfold n; lia).
    cbn [firstn]. rewrite app_nil_r.
    apply fold_del_snoc. cbn [fst]. intros Hin.
    apply firstn_in in Hin. apply (Permutation_in _ Hperm) in Hin.
    contradiction.
  - intros a Ha. rewrite Hts_url, (Hts_old a Ha).
    destruct (dict_key_has_entry a h Ha) as (v & Hget & Hin).
    unfold timestamp_of. rewrite Hget. eapply Hle; eassumption.
  - intros y [].
Qed.

(** A first play appends the entry. *)
Lemma record_play_new ttl now url h :
  dict_get url h = None ->
  record_play ttl now url h
  = h ++ [(url, {| title := ttl; timestamp := now; play_count := 1 |})].
Proof.
  intros E. unfold record_play, dict_mem. rewrite E. cbn [negb].
  now apply dict_set_new.
Qed.

(** A first play that is not older than the store, followed by the
    eviction. *)
Lemma record_new_then_evict ttl now url max h :
  dict_ok h -> dict_get url h = None -> (1 <= max)%Z ->
  (forall k e, In (k, e) h -> (timestamp e <=? now)%string = true) ->
  evict_oldest max (record_play ttl now url h)
  = evict_oldest (max - 1) h
    ++ [(url, {| title := ttl; timestamp := now; play_count := 1 |})].
Proof.
  intros Hok Hnew Hmax Hle. rewrite record_play_new by assumption.
  now apply evict_snoc_newest.
Qed.

Lemma evict_zero h : dict_ok h -> evict_oldest 0 h = [].
Proof.
  intros Hok. apply length_zero_iff_nil.
  pose proof (evict_length 0 h Hok). lia.
Qed.

(** ** What [add_to_history] leaves in the object *)

Lemma tk_add_history lib now url st :
  history (Tk.add_to_history lib now url st)
  = evict_oldest (max_history st)
      (record_play (Some (Tk.get_video_title lib url)) now url (history st)).
Proof. reflexivity. Qed.

Lemma qt_add_history now url st :
  history (Qt.add_to_history now url st)
  = evict_oldest (max_history st) (record_play None now url (history st)).
Proof. reflexivity. Qed.

Lemma tk_add_max lib now url st :
  max_history (Tk.add_to_history lib now url st) = max_history st.
Proof. reflexivity. Qed.

Lemma qt_add_max now url st :
  max_history (Qt.add_to_history now url st) = max_history st.
Proof. reflexivity. Qed.

(** Three first plays under a cap of two, told on the mapping: whatever
    the store held goes, then the first of the three. *)
Lemma three_plays_cap_two (n1 n2 n3 : option string) (h : dict entry)
    (u1 u2 u3 t1 t2 t3 : string) :
  dict_ok h ->
  dict_get u1 h = None -> dict_get u2 h = None -> dict_get u3 h = None ->
  u1 <> u2 -> u1 <> u3 -> u2 <> u3 ->
  (forall k e, In (k, e) h -> (timestamp e <=? t1)%string = true) ->
  (t1 <=? t2)%string = true -> (t2 <=? t3)%string = true ->
  evict_oldest 2
    (record_play n3 t3 u3
       (evict_oldest 2
          (record_play n2 t2 u2
             (evict_oldest 2 (record_play n1 t1 u1 h)))))
  = [(u2, {| title := n2; timestamp := t2; play_count := 1 |});
     (u3, {| title := n3; timestamp := t3; play_count := 1 |})].
Proof.
  intros Hok N1 N2 N3 H12 H13 H23 Hold L12 L23.
  set (r := evict_oldest 1 h).
  assert (Hr_ok : dict_ok r) by now apply evict_ok.
  assert (Hr_in : forall x, In x r -> In x h) by (intros x; apply evict_in).
  assert (Hr_none : forall k, dict_get k h = None -> dict_get k r = None).
  { intros k Hk. destruct (dict_get k r) as [v|] eqn:E; [|reflexivity].
    apply dict_get_in, Hr_in in E. apply (in_map fst) in E.
    apply dict_get_none in Hk. contradiction. }
  assert (Hr_len : (Z.of_nat (List.length r) <= 1)%Z)
    by (apply evict_length; [exact Hok | lia]).
  (* the first call *)
  assert (Hok1 : dict_ok (evict_oldest 2 (record_play n1 t1 u1 h)))
    by now apply evict_ok, record_play_ok.
  rewrite (record_new_then_evict n1 t1 u1 2 h Hok N1) in * by (lia || exact Hold).
  change (2 - 1)%Z with 1%Z in *. fold r in Hok1 |- *.
  set (e1 := {| title := n1; timestamp := t1; play_count := 1 |}) in *.
  (* the second call *)
  apply String.eqb_neq in H12, H13, H23.
  assert (H21 : String.eqb u2 u1 = false) by now rewrite String.eqb_sym.
  assert (H31 : String.eqb u3 u1 = false) by now rewrite String.eqb_sym.
  assert (H32 : String.eqb u3 u2 = false) by now rewrite String.eqb_sym.
  assert (N2' : dict_get u2 (r ++ [(u1, e1)]) = None).
  { rewrite dict_get_app, (Hr_none u2 N2). simpl. now rewrite H12. }
  assert (Hold1 : forall k e, In (k, e) (r ++ [(u1, e1)]) ->
            (timestamp e <=? t2)%string = true).
  { intros k e Hin. apply in_app_iff in Hin.
    destruct Hin as [Hin | [[= <- <-] | []]]; [|exact L12].
    eapply leb_trans; [|exact L12]. eapply Hold, Hr_in, Hin. }
  rewrite (record_new_then_evict n2 t2 u2 2 _ Hok1 N2') by (lia || exact Hold1).
  change (2 - 1)%Z with 1%Z.
  rewrite (evict_snoc_newest 1 r u1 e1 Hr_ok (Hr_none u1 N1))
    by (lia || (intros k e Hin; eapply Hold, Hr_in, Hin)).
  change (1 - 1)%Z with 0%Z. rewrite (evict_zero r Hr_ok).
  (* the third call, on the two entries left *)
  unfold e1, record_play, dict_mem, evict_oldest, timestamp_of, dict_keys.
  repeat (progress (simpl;
    rewrite ?H12, ?H13, ?H23, ?H21, ?H31, ?H32, ?String.eqb_refl, ?L12, ?L23)).
  reflexivity.
Qed.

(** C1. With [max_history = 2], recording three pairwise distinct URLs
    U1, U2, U3, each a first play, at non-decreasing times (the entries
    already in the store, recorded before, carry no later time than U1)
    leaves exactly the entries of U2 and U3, each with one play: what the
    store held and then U1, the oldest, are evicted. The eviction step is
    by timestamp: in any state [save_history] keeps as many entries as
    the cap allows, and every entry it removes carries a timestamp not
    later than that of every entry it keeps. In both implementations. *)
Theorem three_urls_cap_two_evicts_first
    (lib : urllib) (st : app) (u1 u2 u3 t1 t2 t3 : string) :
  max_history st = 2%Z -> dict_ok (history st) ->
  dict_mem u1 (history st) = false ->
  dict_mem u2 (history st) = false ->
  dict_mem u3 (history st) = false ->
  u1 <> u2 -> u1 <> u3 -> u2 <> u3 ->
  (forall k e, In (k, e) (history st) ->
     (timestamp e <=? t1)%string = true) ->
  (t1 <=? t2)%string = true -> (t2 <=? t3)%string = true ->
  (history (Tk.add_to_history lib t3 u3
              (Tk.add_to_history lib t2 u2
                 (Tk.add_to_history lib t1 u1 st)))
   = [(u2, {| title := Some (Tk.get_video_title lib u2);
              timestamp := t2; play_count := 1 |});
      (u3, {| title := Some (Tk.get_video_title lib u3);
              timestamp := t3; play_count := 1 |})]
   /\
   history (Qt.add_to_history t3 u3
              (Qt.add_to_history t2 u2 (Qt.add_to_history t1 u1 st)))
   = [(u2, {| title := None; timestamp := t2; play_count := 1 |});
      (u3, {| title := None; timestamp := t3; play_count := 1 |})])
  /\
  (forall s : app,
     dict_ok (history s) ->
     List.length (history (save_history s))
     = Nat.min (List.length (history s)) (Z.to_nat (max_history s)) /\
     (forall gone kept : string,
        dict_mem gone (history s) = true ->
        dict_mem gone (history (save_history s)) = false ->
        dict_mem kept (history (save_history s)) = true ->
        (timestamp_of (history s) gone <=? timestamp_of (history s) kept)%string
        = true)).
Proof.
  intros Hmax Hok M1 M2 M3 H12 H13 H23 Hold L12 L23.
  assert (Hnone : forall u, dict_mem u (history st) = false ->
            dict_get u (history st) = None).
  { intros u Hu. unfold dict_mem in Hu.
    destruct (dict_get u (history st)); [discriminate | reflexivity]. }
  split.
  - rewrite !tk_add_history, !qt_add_history, !tk_add_max, !qt_add_max.
    rewrite Hmax.
    split; apply three_plays_cap_two; auto.
  - intros s Hs.
    change (history (save_history s))
      with (evict_oldest (max_history s) (history s)).
    split; [now apply evict_length_exact|].
    intros gone kept. now apply evict_removes_oldest.
Qed.

Lemma three_urls_cap_two_evicts_first_witness :
  dict_keys
    (history (Qt.add_to_history noon url_c
                (Qt.add_to_history eleven_am url_b
                   (Qt.add_to_history ten_am url_a
                      (sample_app 2
                         [("https://youtu.be/zzz"%string, played ten_am 4)]
                         None "")))))
  = [url_b; url_c].
Proof.
  refine (f_equal (@dict_keys entry)
            (proj2 (proj1 (three_urls_cap_two_evicts_first sample_urllib
                      (sample_app 2
                         [("https://youtu.be/zzz"%string, played ten_am 4)]
                         None "")
                      url_a url_b url_c
                      ten_am eleven_am noon _ _ _ _ _ _ _ _ _ _ _)))).
  - reflexivity.
  - repeat constructor; simpl; intuition.
  - reflexivity.
  - reflexivity.
  - reflexivity.
  - discriminate.
  - discriminate.
  - discriminate.
  - simpl. intros k e [[= <- <-] | []]. reflexivity.
  - reflexivity.
  - reflexivity.
Defined.

(** The entry of the recorded URL after the eviction: the one written,
    or none. *)
Lemma record_then_evict_get ttl now url max h :
  dict_ok h ->
  dict_get url (evict_oldest max (record_play ttl now url h))
  = dict_get url (record_play ttl now url h) \/
  dict_get url (evict_oldest max (record_play ttl now url h)) = None.
Proof.
  intros Hok.
  destruct (evict_get max _ url (record_play_ok ttl now url h Hok))
    as [[E _] | [E _]]; auto.
Qed.

(** With room for the entry nothing is evicted. *)
Lemma record_then_evict_room ttl now url max h :
  (Z.of_nat (List.length h) + (if dict_mem url h then 0 else 1) <= max)%Z ->
  evict_oldest max (record_play ttl now url h) = record_play ttl now url h.
Proof.
  intros Hroom. apply evict_within_cap.
  rewrite <- (length_map fst (record_play ttl now url h)).
  fold (dict_keys (record_play ttl now url h)). rewrite record_play_keys.
  destruct (dict_mem url h); unfold dict_keys;
    rewrite ?length_app, !length_map; simpl; lia.
Qed.

(** When the entry written stays. *)
Lemma record_then_evict_stays ttl now url max h :
  dict_ok h ->
  (Z.of_nat (List.length h) + (if dict_mem url h then 0 else 1) <= max)%Z \/
  ((1 <= max)%Z /\
   (forall k e, In (k, e) h -> (timestamp e <=? now)%string = true) /\
   (dict_mem url h = false \/
    (Z.of_nat (List.length h) <= max)%Z \/
    (forall k e, In (k, e) h -> k <> url ->
       (timestamp e <? now)%string = true))) ->
  dict_get url (evict_oldest max (record_play ttl now url h))
  = dict_get url (record_play ttl now url h).
Proof.
  intros Hok [Hroom | (Hmax & Hle & Hcase)].
  - now rewrite record_then_evict_room.
  - now apply record_then_evict_keeps.
Qed.

(** Two recordings of a new URL, the second not before the first. *)
Lemma record_twice ttl ttl' now later url max h :
  dict_ok h -> dict_get url h = None ->
  (Z.of_nat (List.length h) < max)%Z \/
  ((1 <= max)%Z /\
   (forall k e, In (k, e) h -> (timestamp e <=? now)%string = true) /\
   (now <=? later)%string = true) ->
  dict_get url
    (evict_oldest max
       (record_play ttl' later url
          (evict_oldest max (record_play ttl now url h))))
  = Some {| title := ttl; timestamp := later; play_count := 2 |}.
Proof.
  intros Hok Hnew Hcase.
  assert (Hmem : dict_mem url h = false)
    by (unfold dict_mem; now rewrite Hnew).
  set (h1 := evict_oldest max (record_play ttl now url h)).
  assert (Hok1 : dict_ok h1) by now apply evict_ok, record_play_ok.
  assert (Hmax : (0 <= max)%Z) by lia.
  assert (Hlen1 : (Z.of_nat (List.length h1) <= max)%Z)
    by (apply evict_length; [now apply record_play_ok | exact Hmax]).
  assert (H1 : dict_get url h1
               = Some {| title := ttl; timestamp := now; play_count := 1 |}).
  { unfold h1. rewrite record_then_evict_stays; [|exact Hok|].
    - now apply record_play_get_new.
    - rewrite Hmem. destruct Hcase as [Hroom | (H1 & Hle & _)];
        [left; lia | right; auto]. }
  assert (Hmem1 : dict_mem url h1 = true)
    by (unfold dict_mem; now rewrite H1).
  rewrite record_then_evict_stays; [|exact Hok1|].
  - now rewrite (record_play_get_old ttl' later url h1 _ H1).
  - left. rewrite Hmem1. lia.
Qed.

(** C3, as the code has it. [add_to_history] writes the entry of the URL
    and then trims the store. The entry written has [play_count = 1] and
    the current time for a URL that is not yet a key, and the old
    [play_count] raised by exactly one and the current time for a URL that
    is a key. After the call the store holds for the URL that entry or
    none. It holds the entry whenever the store has room for it, and
    whenever [max_history >= 1], no entry carries a later time than the
    one written, and the URL is new, or the store is within the cap, or
    every other entry is strictly older. Recording a new URL twice then
    leaves [play_count = 2] and the time of the second recording. In both
    implementations. *)
Theorem record_inserts_or_increments
    (lib : urllib) (now later url : string) (st : app) :
  dict_ok (history st) ->
  let h := history st in
  let tk := history (Tk.add_to_history lib now url st) in
  let qt := history (Qt.add_to_history now url st) in
  let stays :=
    (Z.of_nat (List.length h) + (if dict_mem url h then 0 else 1)
     <= max_history st)%Z \/
    ((1 <= max_history st)%Z /\
     (forall k e, In (k, e) h -> (timestamp e <=? now)%string = true) /\
     (dict_mem url h = false \/
      (Z.of_nat (List.length h) <= max_history st)%Z \/
      (forall k e, In (k, e) h -> k <> url ->
         (timestamp e <? now)%string = true))) in
  (dict_mem url h = false ->
     let new_tk := {| title := Some (Tk.get_video_title lib url);
                      timestamp := now; play_count := 1 |} in
     let new_qt := {| title := None; timestamp := now; play_count := 1 |} in
     (dict_get url tk = Some new_tk \/ dict_get url tk = None) /\
     (dict_get url qt = Some new_qt \/ dict_get url qt = None) /\
     (stays -> dict_get url tk = Some new_tk /\ dict_get url qt = Some new_qt))
  /\
  (forall e, dict_get url h = Some e ->
     let updated := {| title := title e; timestamp := now;
                       play_count := play_count e + 1 |} in
     (dict_get url tk = Some updated \/ dict_get url tk = None) /\
     (dict_get url qt = Some updated \/ dict_get url qt = None) /\
     (stays -> dict_get url tk = Some updated /\ dict_get url qt = Some updated))
  /\
  (dict_mem url h = false ->
   (Z.of_nat (List.length h) < max_history st)%Z \/
   ((1 <= max_history st)%Z /\
    (forall k e, In (k, e) h -> (timestamp e <=? now)%string = true) /\
    (now <=? later)%string = true) ->
     dict_get url
       (history (Tk.add_to_history lib later url
                   (Tk.add_to_history lib now url st)))
       = Some {| title := Some (Tk.get_video_title lib url);
                 timestamp := later; play_count := 2 |} /\
     dict_get url
       (history (Qt.add_to_history later url (Qt.add_to_history now url st)))
       = Some {| title := None; timestamp := later; play_count := 2 |}).
Proof.
  intros Hok h tk qt stays.
  assert (Hnone : dict_mem url h = false -> dict_get url h = None).
  { intros Hm. unfold dict_mem in Hm.
    destruct (dict_get url h); [discriminate | reflexivity]. }
  assert (Hget : forall ttl,
            dict_get url (evict_oldest (max_history st)
                            (record_play ttl now url h))
            = dict_get url (record_play ttl now url h) \/
            dict_get url (evict_oldest (max_history st)
                            (record_play ttl now url h)) = None)
    by (intros ttl; now apply record_then_evict_get).
  assert (Hstay : forall ttl, stays ->
            dict_get url (evict_oldest (max_history st)
                            (record_play ttl now url h))
            = dict_get url (record_play ttl now url h))
    by (intros ttl Hs; now apply record_then_evict_stays).
  unfold tk, qt. rewrite tk_add_history, qt_add_history. fold h.
  split; [|split].
  - intros Hm. cbv zeta. apply Hnone in Hm.
    pose proof (fun ttl => record_play_get_new ttl now url h Hm) as Hw.
    split; [|split].
    + destruct (Hget (Some (Tk.get_video_title lib url))) as [E | E];
        [left; rewrite E; apply Hw | now right].
    + destruct (Hget None) as [E | E];
        [left; rewrite E; apply Hw | now right].
    + intros Hs. rewrite !Hstay by exact Hs. split; apply Hw.
  - intros e He. cbv zeta.
    pose proof (fun ttl => record_play_get_old ttl now url h e He) as Hw.
    split; [|split].
    + destruct (Hget (Some (Tk.get_video_title lib url))) as [E | E];
        [left; rewrite E; apply Hw | now right].
    + destruct (Hget None) as [E | E];
        [left; rewrite E; apply Hw | now right].
    + intros Hs. rewrite !Hstay by exact Hs. split; apply Hw.
  - intros Hm Hcase. apply Hnone in Hm.
    rewrite !tk_add_history, !qt_add_history, tk_add_max, qt_add_max.
    fold h. split; now apply record_twice.
Qed.

Lemma record_inserts_or_increments_witness :
  dict_get url_a
    (history (Qt.add_to_history eleven_am url_a
                (Qt.add_to_history ten_am url_a
                   (sample_app 1 [(url_b, played ten_am 3)] None ""))))
  = Some (played eleven_am 2).
Proof.
  refine (proj2 (proj2 (proj2
            (record_inserts_or_increments sample_urllib ten_am eleven_am
               url_a (sample_app 1 [(url_b, played ten_am 3)] None "") _))
            _ _)).
  - repeat constructor; simpl; intuition.
  - reflexivity.
  - right. split; [simpl; lia|]. split; [|reflexivity].
    simpl. intros k e [[= <- <-] | []]. reflexivity.
Defined.

(** The claim fails for the store after the call: under a cap of zero a
    new URL has no entry once it is recorded, and in a store above the
    cap a replayed URL whose new time ties with a later entry loses its
    entry instead of having it updated. *)
Lemma record_leaves_no_entry :
  (dict_mem url_a (history (sample_app 0 [] None "")) = false /\
   dict_get url_a
     (history (Tk.add_to_history sample_urllib noon url_a
                 (sample_app 0 [] None ""))) = None /\
   dict_get url_a
     (history (Qt.add_to_history noon url_a (sample_app 0 [] None "")))
   = None) /\
  (dict_get url_a (history tied_app) = Some (played noon 1) /\
   dict_get url_a
     (history (Tk.add_to_history sample_urllib noon url_a tied_app)) = None /\
   dict_get url_a (history (Qt.add_to_history noon url_a tied_app)) = None).
Proof. repeat split; reflexivity. Qed.

(** C10, as the code has it. If [max_history >= 1], no entry of the store
    carries a timestamp later than the one written by the call, and the
    URL is new to the store, or the store is within the cap, or every
    other entry is strictly older than the time written, then the store
    contains the entry of the URL right after the call. *)
Theorem record_keeps_recorded_entry
    (lib : urllib) (now url : string) (st : app) :
  dict_ok (history st) ->
  (1 <= max_history st)%Z ->
  (forall k e, In (k, e) (history st) ->
     (timestamp e <=? now)%string = true) ->
  (dict_mem url (history st) = false \/
   (Z.of_nat (List.length (history st)) <= max_history st)%Z \/
   (forall k e, In (k, e) (history st) -> k <> url ->
      (timestamp e <? now)%string = true)) ->
  dict_mem url (history (Tk.add_to_history lib now url st)) = true /\
  dict_mem url (history (Qt.add_to_history now url st)) = true.
Proof.
  intros Hok Hmax Hle Hcase.
  rewrite tk_add_history, qt_add_history.
  assert (G : forall ttl,
            dict_mem url
              (evict_oldest (max_history st)
                 (record_play ttl now url (history st))) = true).
  { intros ttl. unfold dict_mem.
    rewrite record_then_evict_keeps by assumption.
    apply (record_play_mem ttl now url (history st)). }
  split; apply G.
Qed.

Lemma record_keeps_recorded_entry_witness :
  dict_mem url_a
    (history (Qt.add_to_history noon url_a
                (sample_app 1 [(url_a, played ten_am 1);
                               (url_b, played eleven_am 1)] None "")))
  = true.
Proof.
  refine (proj2 (record_keeps_recorded_entry sample_urllib noon url_a
                   (sample_app 1 [(url_a, played ten_am 1);
                                  (url_b, played eleven_am 1)] None "")
                   _ _ _ _)).
  - repeat constructor; simpl; intuition discriminate.
  - simpl. lia.
  - simpl. intros k e [[= <- <-] | [[= <- <-] | []]]; reflexivity.
  - right. right. simpl.
    intros k e [[= <- <-] | [[= <- <-] | []]] Hne;
      [now elim Hne | reflexivity].
Defined.

(** The claim fails on ties: in a store above the cap, a replayed URL
    whose new timestamp equals that of an entry inserted after it sorts
    first and is evicted by the call that recorded it. *)
Lemma record_evicts_recorded_entry_on_tie :
  (1 <= max_history tied_app)%Z /\
  (forall k e, In (k, e) (history tied_app) ->
     (timestamp e <=? noon)%string = true) /\
  history (Qt.add_to_history noon url_a tied_app)
    = [(url_b, played noon 1)] /\
  dict_mem url_a (history (Qt.add_to_history noon url_a tied_app)) = false /\
  dict_mem url_a
    (history (Tk.add_to_history sample_urllib noon url_a tied_app)) = false.
Proof.
  split; [simpl; lia|]. split; [|repeat split; reflexivity].
  simpl. intros k e [[= <- <-] | [[= <- <-] | []]]; reflexivity.
Qed.

(** What [load_history] reads back after [save_history]: the mapping
    left by the eviction. *)
Lemma save_load_evicted (st : app) :
  dict_ok (history st) ->
  json_to_history (load_history (history_file (save_history st)))
  = Some (evict_oldest (max_history st) (history st)).
Proof.
  intros Hok.
  change (json_to_history
            (history_to_json (evict_oldest (max_history st) (history st)))
          = Some (evict_oldest (max_history st) (history st))).
  apply json_history_roundtrip. now apply evict_ok.
Qed.

(** C8, as the code has it. [save_history] trims the mapping to the cap
    before it writes, so what [load_history] reads back is the mapping
    that was written, the one the object holds after the save: same keys
    in the same order, same timestamps, play counts and titles. It is the
    mapping handed to [save_history] whenever that one is within the cap,
    and a different one whenever that one is above a cap that is not
    negative. *)
Theorem save_then_load_roundtrip (st : app) :
  dict_ok (history st) ->
  json_to_history (load_history (history_file (save_history st)))
    = Some (history (save_history st)) /\
  ((Z.of_nat (List.length (history st)) <= max_history st)%Z ->
   json_to_history (load_history (history_file (save_history st)))
     = Some (history st)) /\
  ((0 <= max_history st < Z.of_nat (List.length (history st)))%Z ->
   json_to_history (load_history (history_file (save_history st)))
     <> Some (history st)).
Proof.
  intros Hok.
  assert (E := save_load_evicted st Hok).
  split; [exact E|]. split.
  - intros Hcap. rewrite E. now rewrite evict_within_cap.
  - intros Hcap. rewrite E. intros [= Heq].
    pose proof (evict_length (max_history st) (history st) Hok) as Hlen.
    rewrite Heq in Hlen. lia.
Qed.

Lemma save_then_load_roundtrip_witness :
  json_to_history
    (load_history
       (history_file
          (save_history
             (sample_app 2 [(url_a, played ten_am 1);
                            (url_b, played eleven_am 3)] None ""))))
  = Some [(url_a, played ten_am 1); (url_b, played eleven_am 3)].
Proof.
  refine (proj1 (proj2 (save_then_load_roundtrip
                   (sample_app 2 [(url_a, played ten_am 1);
                                  (url_b, played eleven_am 3)] None "") _)) _).
  - repeat constructor; simpl; intuition discriminate.
  - simpl. lia.
Defined.

(** The claim fails for a mapping above the cap: of three entries saved
    under a cap of two, the oldest is missing from the mapping read
    back. *)
Lemma save_then_load_drops_oldest :
  dict_ok (history (sample_app 2 [(url_a, played ten_am 1);
                                  (url_b, played eleven_am 3);
                                  (url_c, played noon 1)] None "")) /\
  json_to_history
    (load_history
       (history_file
          (save_history
             (sample_app 2 [(url_a, played ten_am 1);
                            (url_b, played eleven_am 3);
                            (url_c, played noon 1)] None ""))))
  = Some [(url_b, played eleven_am 3); (url_c, played noon 1)] /\
  json_to_history
    (load_history
       (history_file
          (save_history
             (sample_app 2 [(url_a, played ten_am 1);
                            (url_b, played eleven_am 3);
                            (url_c, played noon 1)] None ""))))
  <> Some (history (sample_app 2 [(url_a, played ten_am 1);
                                  (url_b, played eleven_am 3);
                                  (url_c, played noon 1)] None "")).
Proof.
  split; [repeat constructor; simpl; intuition discriminate|].
  split; [reflexivity | discriminate].
Qed.

Lemma tk_clear_history_empty st :
  history (Tk.clear_history true st) = [] /\
  history (Qt.clear_history true st) = [].
Proof.
  unfold Tk.clear_history, Qt.clear_history. simpl.
  unfold evict_oldest. simpl.
  destruct (0 >? max_history st)%Z; rewrite ?firstn_nil; simpl; auto.
Qed.

(** C2, as the code has it. A recording leaves the store within the cap
    whenever the cap is not negative, whatever the size before. A
    confirmed clear leaves the store empty, so within any cap that is not
    negative, whatever the size before; a clear that is not confirmed
    leaves the state as it is; neither touches the cap. So recording and
    clearing preserve [size <= max_history]. [load_history] applies no
    cap: it returns the document of the file as it is, and the store
    after startup is that mapping. The mapping read back is within the
    cap when the file was last written by [save_history] under that cap. *)
Theorem cap_after_record_clear_and_load :
  (forall lib now url st,
     dict_ok (history st) -> (0 <= max_history st)%Z ->
     (Z.of_nat (List.length (history (Tk.add_to_history lib now url st)))
      <= max_history (Tk.add_to_history lib now url st))%Z /\
     (Z.of_nat (List.length (history (Qt.add_to_history now url st)))
      <= max_history (Qt.add_to_history now url st))%Z) /\
  (forall st,
     history (Tk.clear_history true st) = [] /\
     history (Qt.clear_history true st) = [] /\
     max_history (Tk.clear_history true st) = max_history st /\
     max_history (Qt.clear_history true st) = max_history st /\
     Tk.clear_history false st = st /\
     Qt.clear_history false st = st) /\
  (forall st,
     (0 <= max_history st)%Z ->
     (Z.of_nat (List.length (history (Tk.clear_history true st)))
      <= max_history (Tk.clear_history true st))%Z /\
     (Z.of_nat (List.length (history (Qt.clear_history true st)))
      <= max_history (Qt.clear_history true st))%Z) /\
  (forall confirmed st,
     (Z.of_nat (List.length (history st)) <= max_history st)%Z ->
     (Z.of_nat (List.length (history (Tk.clear_history confirmed st)))
      <= max_history (Tk.clear_history confirmed st))%Z /\
     (Z.of_nat (List.length (history (Qt.clear_history confirmed st)))
      <= max_history (Qt.clear_history confirmed st))%Z) /\
  (forall j,
     load_history (Some (Document j)) = j /\
     load_history (Some Unparsable) = JDict [] /\
     load_history None = JDict []) /\
  (forall cap mpv disk st,
     startup cap mpv disk = Some st ->
     max_history st = cap /\
     json_to_history (load_history disk) = Some (history st)) /\
  (forall mpv st0,
     dict_ok (history st0) -> (0 <= max_history st0)%Z ->
     exists st,
       startup (max_history st0) mpv (history_file (save_history st0))
       = Some st /\
       history st = history (save_history st0) /\
       (Z.of_nat (List.length (history st)) <= max_history st)%Z).
Proof.
  assert (Hclear : forall st,
            history (Tk.clear_history true st) = [] /\
            history (Qt.clear_history true st) = [] /\
            max_history (Tk.clear_history true st) = max_history st /\
            max_history (Qt.clear_history true st) = max_history st /\
            Tk.clear_history false st = st /\
            Qt.clear_history false st = st).
  { intros st. destruct (tk_clear_history_empty st) as [Ht Hq].
    repeat split; assumption || reflexivity. }
  split; [|split; [exact Hclear|split; [|split; [|split; [|split]]]]].
  - intros lib now url st Hok Hmax.
    rewrite tk_add_history, qt_add_history, tk_add_max, qt_add_max.
    split; apply evict_length; auto using record_play_ok.
  - intros st Hmax.
    destruct (Hclear st) as (-> & -> & -> & -> & _). simpl. lia.
  - intros [|] st Hcap.
    + destruct (Hclear st) as (-> & -> & -> & -> & _). simpl. lia.
    + destruct (Hclear st) as (_ & _ & _ & _ & -> & ->). split; exact Hcap.
  - intros j. repeat split.
  - intros cap mpv disk st. unfold startup.
    destruct (json_to_history (load_history disk)) as [h|]; [|discriminate].
    intros [= <-]. auto.
  - intros mpv st0 Hok Hmax. unfold startup.
    rewrite (save_load_evicted st0 Hok).
    eexists. split; [reflexivity|]. split; [reflexivity|].
    cbn [history max_history]. apply evict_length; assumption.
Qed.

Lemma cap_after_record_clear_and_load_witness :
  (Z.of_nat
     (List.length
        (history (Qt.add_to_history noon url_c
                    (sample_app 2 [(url_a, played ten_am 1);
                                   (url_b, played eleven_am 3)] None ""))))
   <= 2)%Z.
Proof.
  refine (proj2 (proj1 cap_after_record_clear_and_load sample_urllib noon url_c
                   (sample_app 2 [(url_a, played ten_am 1);
                                  (url_b, played eleven_am 3)] None "") _ _)).
  - repeat constructor; simpl; intuition discriminate.
  - simpl. lia.
Defined.

(** The claim fails at load: a file with three entries is loaded whole
    under a cap of two. *)
Lemma startup_loads_above_cap :
  exists st,
    startup 2 "tools/mpv.exe" (Some (Document three_entries_doc)) = Some st /\
    dict_keys (history st) = [url_a; url_b; url_c] /\
    (Z.of_nat (List.length (history st)) > max_history st)%Z.
Proof.
  eexists. split; [reflexivity|]. split; [reflexivity|]. simpl. lia.
Qed.

(** ** The process controller *)

Ltac trace_norm :=
  cbn [trace emit with_process with_history with_history_file process
       history history_file max_history];
  rewrite <- ?app_assoc; cbn [List.app].

(** C7. When the tracked process has exited, the liveness poll clears the
    handle and makes no call on the process other than the poll: it never
    terminates or kills it. When the process is still running, or none is
    tracked, the handle is left as it is. In both implementations. *)
Theorem poll_clears_exited_without_terminate (st : app) :
  (forall p code, process st = Some p -> poll p = Some code ->
     process (Tk.check_video_status st) = None /\
     trace (Tk.check_video_status st)
       = trace st ++ [ProcPoll (pid p); Log INFO "Video playback completed";
                      UpdateUiState false; SetStatus Ready; After 1000] /\
     process (Qt.check_video_status st) = None /\
     trace (Qt.check_video_status st)
       = trace st ++ [ProcPoll (pid p); Log INFO "Video playback completed";
                      UpdateUiState false; SetStatus Completed]) /\
  ((process st = None \/ exists p, process st = Some p /\ poll p = None) ->
     process (Tk.check_video_status st) = process st /\
     process (Qt.check_video_status st) = process st) /\
  (exists tk_events qt_events,
     trace (Tk.check_video_status st) = trace st ++ tk_events /\
     trace (Qt.check_video_status st) = trace st ++ qt_events /\
     existsb is_terminate_or_kill tk_events = false /\
     existsb is_terminate_or_kill qt_events = false).
Proof.
  unfold Tk.check_video_status, Qt.check_video_status.
  split; [|split].
  - intros p code Hp Hpoll. rewrite Hp. cbn [process emit]. rewrite Hpoll.
    repeat split; trace_norm; reflexivity.
  - intros [Hnone | (p & Hp & Hpoll)].
    + rewrite Hnone. split; cbn [process emit]; congruence.
    + rewrite Hp. cbn [process emit]. rewrite Hpoll.
      split; cbn [process emit]; congruence.
  - destruct (process st) as [p|].
    + cbn [process emit]. destruct (poll p).
      * do 2 eexists. repeat split; trace_norm; reflexivity.
      * do 2 eexists. repeat split; trace_norm; reflexivity.
    + exists [After 1000%Z], []. rewrite app_nil_r. repeat split.
Qed.

Lemma poll_clears_exited_without_terminate_witness :
  process (Qt.check_video_status (sample_app 10 [] (Some finished) "")) = None.
Proof.
  refine (proj1 (proj2 (proj2
            (proj1 (poll_clears_exited_without_terminate
                      (sample_app 10 [] (Some finished) ""))
                   finished 0%Z _ _))));
    reflexivity.
Defined.

(** C6. A URL that is empty after stripping, or that fails validation,
    is rejected at once: a warning is logged, an error dialog is shown,
    and nothing else happens. The process handle, the history and the
    history file are what they were, and no call on a process, no spawn
    and no file write is made. In both implementations. *)
Theorem play_rejects_bad_url_without_effect
    (lib : urllib) (popen : list string -> Popen + string)
    (now : string) (st : app) :
  strip (url_text st) = EmptyString \/
  Tk.validate_url (strip (url_text st)) = false ->
  let tk := Tk.play_video lib popen now st in
  let qt := Qt.play_video popen now st in
  process tk = process st /\ history tk = history st /\
  history_file tk = history_file st /\
  (exists msg text,
     trace tk = trace st ++ [Log WARNING msg; MessageBox ShowError "Error" text]) /\
  process qt = process st /\ history qt = history st /\
  history_file qt = history_file st /\
  (exists msg text,
     trace qt = trace st ++ [Log WARNING msg; MessageBox QWarning "Error" text]).
Proof.
  intros Hbad tk qt. unfold tk, qt, Tk.play_video, Qt.play_video.
  destruct (String.eqb_spec (strip (url_text st)) "") as [E|Hne].
  - repeat split; try (do 2 eexists; trace_norm; reflexivity).
  - destruct Hbad as [E | Hinv]; [contradiction|].
    assert (Hq : Qt.validate_url (strip (url_text st)) = false)
      by (rewrite <- Hinv; apply qt_validate_as_tk).
    rewrite Hinv, ?Hq. cbn [negb].
    repeat split; try (do 2 eexists; trace_norm; reflexivity).
Qed.

Lemma play_rejects_bad_url_without_effect_witness :
  history_file
    (Qt.play_video always_spawns noon
       (sample_app 10 [] (Some obedient) "  https://vimeo.com/12345 "))
  = None.
Proof.
  refine (proj1 (proj2 (proj2 (proj2 (proj2 (proj2 (proj2
            (play_rejects_bad_url_without_effect sample_urllib always_spawns
               noon
               (sample_app 10 [] (Some obedient) "  https://vimeo.com/12345 ")
               _))))))));
    right; reflexivity.
Defined.

Ltac stop_case :=
  trace_norm; repeat split; intros; simpl in *;
  repeat match goal with
         | H : _ \/ _ |- _ => destruct H
         | H : _ /\ _ |- _ => destruct H
         | H : Some _ = Some _ |- _ => injection H as H; subst
         | H : WaitRaises _ = WaitRaises _ |- _ => injection H as H; subst
         end;
  try discriminate; try contradiction; try reflexivity; auto;
  try (intuition discriminate).

(** C5, as the code has it. With a process tracked, [stop_video] first
    requests termination. The PyQt6 implementation then, when the request
    did not raise, waits up to five seconds and kills the process exactly
    when the wait timed out; the Tkinter implementation neither waits nor
    kills. In both, the handle is cleared when no call raised, a raised
    failure is logged as an error and goes no further, and the interface
    is set back to idle whatever happened. *)
Theorem stop_video_terminates_and_resets (st : app) (p : Popen) :
  process st = Some p ->
  (exists events,
     trace (Tk.stop_video st)
       = trace st ++ Log INFO "Stopping video playback"
                  :: ProcTerminate (pid p)
                  :: events ++ [UpdateUiState false; SetStatus Ready] /\
     ~ In (ProcWait (pid p) 5) events /\ ~ In (ProcKill (pid p)) events /\
     (terminate_raises p = None ->
        events = [] /\ process (Tk.stop_video st) = None) /\
     (forall e, terminate_raises p = Some e ->
        events = [Log ERROR ("Error stopping video: " ++ e)%string])) /\
  (exists events,
     trace (Qt.stop_video st)
       = trace st ++ Log INFO "Stopping video playback"
                  :: ProcTerminate (pid p)
                  :: events ++ [UpdateUiState false; SetStatus Ready] /\
     (In (ProcWait (pid p) 5) events <-> terminate_raises p = None) /\
     (In (ProcKill (pid p)) events <->
        terminate_raises p = None /\ wait_5s p = WaitTimeoutExpired) /\
     (terminate_raises p = None ->
      wait_5s p = WaitReturns \/
      (wait_5s p = WaitTimeoutExpired /\ kill_raises p = None) ->
        process (Qt.stop_video st) = None /\
        forall msg, ~ In (Log ERROR msg) events) /\
     (forall e,
        terminate_raises p = Some e \/
        (terminate_raises p = None /\ wait_5s p = WaitRaises e) \/
        (terminate_raises p = None /\ wait_5s p = WaitTimeoutExpired /\
         kill_raises p = Some e) ->
        In (Log ERROR ("Error stopping video: " ++ e)%string) events)).
Proof.
  intros Hp. unfold Tk.stop_video, Qt.stop_video. rewrite Hp.
  destruct p as [n tr w kr pl]. cbn [pid terminate_raises wait_5s kill_raises].
  split.
  - destruct tr as [e|].
    + exists [Log ERROR ("Error stopping video: " ++ e)%string]. stop_case.
    + exists []. stop_case.
  - destruct tr as [e|]; [|destruct w as [| |e]; [|destruct kr as [e|]|]].
    + exists [Log ERROR ("Error stopping video: " ++ e)%string]. stop_case.
    + exists [ProcWait n 5]. stop_case.
    + exists [ProcWait n 5; ProcKill n;
              Log ERROR ("Error stopping video: " ++ e)%string]. stop_case.
    + exists [ProcWait n 5; ProcKill n]. stop_case.
    + exists [ProcWait n 5; Log ERROR ("Error stopping video: " ++ e)%string].
      stop_case.
Qed.

Lemma stop_video_terminates_and_resets_witness :
  exists events,
    trace (Qt.stop_video (sample_app 10 [] (Some stubborn) ""))
      = [] ++ Log INFO "Stopping video playback"
              :: ProcTerminate (pid stubborn)
              :: events ++ [UpdateUiState false; SetStatus Ready] /\
    In (ProcKill (pid stubborn)) events.
Proof.
  destruct (proj2 (stop_video_terminates_and_resets
                     (sample_app 10 [] (Some stubborn) "") stubborn eq_refl))
    as (events & Htrace & _ & Hkill & _).
  exists events. split; [exact Htrace|].
  apply Hkill. split; reflexivity.
Defined.

(** The claim fails in two places. The Tkinter implementation asks a
    process that will not exit to terminate and forgets it without
    waiting or killing. And when the termination call raises, either
    implementation logs the failure and keeps the handle. *)
Lemma stop_video_skips_wait_and_keeps_handle :
  trace (Tk.stop_video (sample_app 10 [] (Some stubborn) ""))
    = [Log INFO "Stopping video playback"; ProcTerminate 4242;
       UpdateUiState false; SetStatus Ready] /\
  process (Tk.stop_video (sample_app 10 [] (Some denied) "")) = Some denied /\
  process (Qt.stop_video (sample_app 10 [] (Some denied) "")) = Some denied /\
  trace (Qt.stop_video (sample_app 10 [] (Some denied) ""))
    = [Log INFO "Stopping video playback"; ProcTerminate 4242;
       Log ERROR "Error stopping video: [WinError 5] Access is denied";
       UpdateUiState false; SetStatus Ready].
Proof. repeat split; reflexivity. Qed.

(** * Further properties *)

(** ** Stripping *)

Lemma forallb_rev_true {A : Type} (p : A -> bool) (l : list A) :
  forallb p l = true -> forallb p (rev l) = true.
Proof.
  rewrite !forallb_forall. intros H x Hx. apply H. now apply in_rev.
Qed.

Lemma lstrip_chars_app_spaces drop (pad l : list ascii) :
  forallb drop pad = true -> lstrip_chars drop (pad ++ l) = lstrip_chars drop l.
Proof.
  induction pad as [|c pad IH]; simpl; [reflexivity|].
  intros H. apply andb_true_iff in H. destruct H as [Hc Hpad].
  rewrite Hc. auto.
Qed.

Lemma lstrip_chars_app drop (l v : list ascii) :
  lstrip_chars drop (l ++ v)
  = match lstrip_chars drop l with
    | [] => lstrip_chars drop v
    | c :: r => (c :: r) ++ v
    end.
Proof.
  induction l as [|c l IH]; simpl.
  - destruct (lstrip_chars drop v); reflexivity.
  - destruct (drop c); [exact IH | reflexivity].
Qed.

(** What is left starts with a character that is kept. *)
Lemma lstrip_chars_head drop (l : list ascii) :
  match lstrip_chars drop l with
  | [] => True
  | c :: _ => drop c = false
  end.
Proof.
  induction l as [|c l IH]; simpl; [exact I|].
  destruct (drop c) eqn:E; [exact IH | exact E].
Qed.

Lemma lstrip_chars_fixed drop (l : list ascii) :
  match l with [] => True | c :: _ => drop c = false end ->
  lstrip_chars drop l = l.
Proof. destruct l as [|c l]; simpl; [reflexivity | now intros ->]. Qed.

Lemma lstrip_chars_suffix drop (l : list ascii) :
  exists pad, l = pad ++ lstrip_chars drop l /\ forallb drop pad = true.
Proof.
  induction l as [|c l (pad & E & H)]; simpl.
  - exists []. auto.
  - destruct (drop c) eqn:Ec.
    + exists (c :: pad). simpl. rewrite Ec, H. split; [now f_equal | reflexivity].
    + exists []. auto.
Qed.

(** Stripping at the right end, on character lists. *)
Lemma rstrip_head drop (l : list ascii) :
  match l with [] => True | c :: _ => drop c = false end ->
  match rev (lstrip_chars drop (rev l)) with
  | [] => True
  | c :: _ => drop c = false
  end.
Proof.
  intros Hl. destruct (lstrip_chars_suffix drop (rev l)) as (pad & E & Hpad).
  apply (f_equal (@rev ascii)) in E. rewrite rev_involutive, rev_app_distr in E.
  destruct (rev (lstrip_chars drop (rev l))) as [|c r]; [exact I|].
  rewrite E in Hl. exact Hl.
Qed.

Lemma strip_chars_idempotent drop (s : string) :
  strip_chars drop (strip_chars drop s) = strip_chars drop s.
Proof.
  unfold strip_chars. rewrite list_ascii_of_string_of_list_ascii.
  set (l := lstrip_chars drop (list_ascii_of_string s)).
  assert (Hl : match l with [] => True | c :: _ => drop c = false end)
    by apply lstrip_chars_head.
  rewrite (lstrip_chars_fixed drop _ (rstrip_head drop l Hl)).
  rewrite rev_involutive.
  rewrite (lstrip_chars_fixed drop (lstrip_chars drop (rev l)));
    [reflexivity | apply lstrip_chars_head].
Qed.

Lemma strip_chars_padding drop (pad1 u pad2 : string) :
  all_chars drop pad1 = true -> all_chars drop pad2 = true ->
  strip_chars drop (pad1 ++ u ++ pad2) = strip_chars drop u.
Proof.
  unfold all_chars, strip_chars. intros H1 H2. f_equal. f_equal.
  rewrite !chars_app, lstrip_chars_app_spaces by assumption.
  rewrite lstrip_chars_app.
  destruct (lstrip_chars drop (list_ascii_of_string u)) as [|c r] eqn:E.
  - destruct (lstrip_chars_suffix drop (list_ascii_of_string pad2))
      as (pad & Epad & Hpad).
    assert (Hall : lstrip_chars drop (list_ascii_of_string pad2) = []).
    { rewrite <- (app_nil_r (list_ascii_of_string pad2)).
      now rewrite lstrip_chars_app_spaces. }
    now rewrite Hall.
  - rewrite rev_app_distr. apply lstrip_chars_app_spaces.
    now apply forallb_rev_true.
Qed.

(** [play_video] reads the URL field through [strip] and nothing else. *)
Lemma tk_play_reads_stripped lib popen now t1 t2 st :
  strip t1 = strip t2 ->
  with_url_text t2 (Tk.play_video lib popen now (with_url_text t1 st))
  = Tk.play_video lib popen now (with_url_text t2 st).
Proof.
  intros E. unfold Tk.play_video. cbn [url_text with_url_text]. rewrite E.
  destruct (String.eqb (strip t2) ""); [reflexivity|].
  destruct (Tk.validate_url (strip t2)); cbn [negb]; [|reflexivity].
  unfold Tk.stop_video. cbn [process with_url_text].
  destruct (process st) as [p|]; [destruct (terminate_raises p)|];
    cbn -[Tk.add_to_history];
    match goal with |- context [popen ?c] => destruct (popen c) end;
    reflexivity.
Qed.

Lemma qt_play_reads_stripped popen now t1 t2 st :
  strip t1 = strip t2 ->
  with_url_text t2 (Qt.play_video popen now (with_url_text t1 st))
  = Qt.play_video popen now (with_url_text t2 st).
Proof.
  intros E. unfold Qt.play_video. cbn [url_text with_url_text]. rewrite E.
  destruct (String.eqb (strip t2) ""); [reflexivity|].
  destruct (Qt.validate_url (strip t2)); cbn [negb]; [|reflexivity].
  unfold Qt.stop_video. cbn [process with_url_text].
  destruct (process st) as [p|];
    [destruct (terminate_raises p);
     [|destruct (wait_5s p); [|destruct (kill_raises p)|]]|];
    cbn -[Qt.add_to_history];
    match goal with |- context [popen ?c] => destruct (popen c) end;
    reflexivity.
Qed.

(** X1. Whitespace around the typed URL changes nothing: with the text
    padded by whitespace on either side, [play_video] leaves the same
    process handle, history, history file and trace as with the bare text. *)
Theorem play_video_ignores_padding
    (lib : urllib) (popen : list string -> Popen + string)
    (now pad1 u pad2 : string) (st : app) :
  all_chars is_space pad1 = true -> all_chars is_space pad2 = true ->
  let padded := with_url_text (pad1 ++ u ++ pad2) st in
  let bare := with_url_text u st in
  (process (Tk.play_video lib popen now padded)
     = process (Tk.play_video lib popen now bare) /\
   history (Tk.play_video lib popen now padded)
     = history (Tk.play_video lib popen now bare) /\
   history_file (Tk.play_video lib popen now padded)
     = history_file (Tk.play_video lib popen now bare) /\
   trace (Tk.play_video lib popen now padded)
     = trace (Tk.play_video lib popen now bare)) /\
  (process (Qt.play_video popen now padded)
     = process (Qt.play_video popen now bare) /\
   history (Qt.play_video popen now padded)
     = history (Qt.play_video popen now bare) /\
   history_file (Qt.play_video popen now padded)
     = history_file (Qt.play_video popen now bare) /\
   trace (Qt.play_video popen now padded)
     = trace (Qt.play_video popen now bare)).
Proof.
  intros H1 H2 padded bare. subst padded bare.
  assert (E : strip (pad1 ++ u ++ pad2) = strip u)
    by now apply strip_chars_padding.
  rewrite <- (tk_play_reads_stripped lib popen now _ _ st E).
  rewrite <- (qt_play_reads_stripped popen now _ _ st E).
  repeat split.
Qed.

Lemma play_video_ignores_padding_witness :
  history (Qt.play_video always_spawns noon
             (with_url_text ("  " ++ url_a ++ " ") (sample_app 10 [] None "")))
  = history (Qt.play_video always_spawns noon
               (with_url_text url_a (sample_app 10 [] None ""))).
Proof.
  refine (proj1 (proj2 (proj2
            (play_video_ignores_padding sample_urllib always_spawns noon
               "  " url_a " " (sample_app 10 [] None "") _ _))));
    reflexivity.
Defined.

(** ** The validator *)

Lemma tk_validate_iff (s : string) :
  Tk.validate_url s = true <-> has_link_prefix s.
Proof.
  unfold Tk.validate_url. rewrite tk_patterns_shapes.
  apply shapes_match_iff_prefix.
Qed.

Lemma string_app_assoc (a b c : string) :
  ((a ++ b) ++ c)%string = (a ++ b ++ c)%string.
Proof. induction a as [|x a IH]; simpl; [reflexivity | now rewrite IH]. Qed.

(** X2. Acceptance is kept under any continuation: a string accepted by
    the validator stays accepted whatever is appended to it. *)
Theorem validate_url_extends (s t : string) :
  Tk.validate_url s = true ->
  Tk.validate_url (s ++ t) = true /\ Qt.validate_url (s ++ t) = true.
Proof.
  intros H.
  assert (G : Tk.validate_url (s ++ t) = true);
    [|split; [exact G | rewrite <- G; apply qt_validate_as_tk]].
  apply tk_validate_iff. apply tk_validate_iff in H.
  destruct H as (k & p & rest & Hl & ->).
  exists k, p, (rest ++ t)%string. split; [assumption|].
  apply string_app_assoc.
Qed.

Lemma validate_url_extends_witness :
  Qt.validate_url ("youtu.be/abc" ++ "&list=xyz and then some") = true.
Proof.
  refine (proj2 (validate_url_extends "youtu.be/abc"
                   "&list=xyz and then some" _)).
  reflexivity.
Defined.

Lemma tk_validate_first_char (s : string) :
  Tk.validate_url s = true ->
  exists c rest,
    s = String c rest /\ (c = "h" \/ c = "w" \/ c = "y")%char.
Proof.
  intros Htk. apply tk_validate_iff in Htk.
  destruct Htk as (k & p & rest & Hl & ->).
  destruct Hl as (scheme & www & id & extra & Hs & Hw & _ & _ & _ & ->).
  simpl in Hs, Hw.
  destruct Hs as [<- | [<- | [<- | []]]];
    destruct Hw as [<- | [<- | []]];
    destruct k; simpl; eexists; eexists; split; try reflexivity; auto.
Qed.

(** X3. Every accepted string begins with [h], [w] or [y]: the validator
    rejects the empty string and anything that begins with whitespace, a
    hyphen, or a scheme or host written in another case. *)
Theorem validate_url_first_char (s : string) :
  Tk.validate_url s = true \/ Qt.validate_url s = true ->
  exists c rest,
    s = String c rest /\ (c = "h" \/ c = "w" \/ c = "y")%char.
Proof.
  intros H. apply tk_validate_first_char.
  destruct H as [H | H];
    [exact H | rewrite <- H; symmetry; apply qt_validate_as_tk].
Qed.

Lemma validate_url_first_char_witness :
  exists c rest,
    "www.youtube.com/live/abc"%string = String c rest /\
    (c = "h" \/ c = "w" \/ c = "y")%char.
Proof.
  apply (validate_url_first_char "www.youtube.com/live/abc").
  left. reflexivity.
Defined.

(** ** What the eviction removes and what it keeps *)

(** X4. [save_history] evicts the oldest entries: every entry it removes
    carries a timestamp not later than that of every entry it keeps. *)
Theorem save_history_evicts_oldest (st : app) (gone kept : string) :
  dict_ok (history st) ->
  dict_mem gone (history st) = true ->
  dict_mem gone (history (save_history st)) = false ->
  dict_mem kept (history (save_history st)) = true ->
  (timestamp_of (history st) gone <=? timestamp_of (history st) kept)%string
  = true.
Proof.
  intros Hok Hwas Hgone Hkept.
  change (history (save_history st))
    with (evict_oldest (max_history st) (history st)) in *.
  eapply evict_removes_oldest; eassumption.
Qed.

Lemma save_history_evicts_oldest_witness :
  (timestamp_of (history (sample_app 1 [(url_a, played eleven_am 1);
                                        (url_b, played ten_am 5)] None ""))
                url_b
   <=? timestamp_of (history (sample_app 1 [(url_a, played eleven_am 1);
                                            (url_b, played ten_am 5)] None ""))
                    url_a)%string = true.
Proof.
  apply (save_history_evicts_oldest
           (sample_app 1 [(url_a, played eleven_am 1);
                          (url_b, played ten_am 5)] None "") url_b url_a).
  - repeat constructor; simpl; intuition discriminate.
  - reflexivity.
  - reflexivity.
  - reflexivity.
Defined.

(** X5. [save_history] keeps exactly as many entries as the cap allows:
    the smaller of the size before and [max_history]. With a cap of zero
    or less it empties the store and writes an empty document. *)
Theorem save_history_size (st : app) :
  dict_ok (history st) ->
  List.length (history (save_history st))
    = Nat.min (List.length (history st)) (Z.to_nat (max_history st)) /\
  ((max_history st <= 0)%Z ->
     history (save_history st) = [] /\
     history_file (save_history st) = Some (Document (JDict []))).
Proof.
  intros Hok.
  assert (E := evict_length_exact (max_history st) (history st) Hok).
  split; [exact E|]. intros Hmax.
  assert (Hnil : evict_oldest (max_history st) (history st) = []).
  { apply length_zero_iff_nil. rewrite E. lia. }
  unfold save_history. cbn [history history_file emit with_history
                             with_history_file].
  rewrite Hnil. split; reflexivity.
Qed.

Lemma save_history_size_witness :
  history (save_history (sample_app 0 [(url_a, played ten_am 1)] None ""))
  = [].
Proof.
  refine (proj1 (proj2 (save_history_size
            (sample_app 0 [(url_a, played ten_am 1)] None "") _) _)).
  - repeat constructor; simpl; intuition.
  - simpl. lia.
Defined.

(** X6. Recording a URL never alters another URL's entry: after
    [add_to_history], the entry of any other URL is the one it had
    before, or is gone; and the entry of the recorded URL, when it is
    still there, is the one just written. *)
Theorem record_leaves_other_entries
    (lib : urllib) (now url k : string) (e : entry) (st : app) :
  dict_ok (history st) ->
  (dict_get k (history (Tk.add_to_history lib now url st)) = Some e ->
     (k <> url /\ dict_get k (history st) = Some e) \/
     (k = url /\ timestamp e = now /\
      dict_get url
        (record_play (Some (Tk.get_video_title lib url)) now url (history st))
      = Some e)) /\
  (dict_get k (history (Qt.add_to_history now url st)) = Some e ->
     (k <> url /\ dict_get k (history st) = Some e) \/
     (k = url /\ timestamp e = now /\
      dict_get url (record_play None now url (history st)) = Some e)).
Proof.
  intros Hok. rewrite tk_add_history, qt_add_history.
  assert (G : forall ttl,
            dict_get k (evict_oldest (max_history st)
                          (record_play ttl now url (history st))) = Some e ->
            (k <> url /\ dict_get k (history st) = Some e) \/
            (k = url /\ timestamp e = now /\
             dict_get url (record_play ttl now url (history st)) = Some e)).
  { intros ttl H.
    assert (Hok' := record_play_ok ttl now url (history st) Hok).
    destruct (evict_get (max_history st) _ k Hok') as [[E _] | [E _]];
      rewrite E in H; [|discriminate].
    destruct (string_dec k url) as [-> | Hne].
    - right. split; [reflexivity|]. split; [|exact H].
      pose proof (record_play_timestamp ttl now url (history st)) as Hts.
      unfold timestamp_of in Hts. now rewrite H in Hts.
    - left. split; [exact Hne|]. now rewrite record_play_get_other in H. }
  split; apply G.
Qed.

Lemma record_leaves_other_entries_witness :
  dict_get url_a (history (sample_app 5 [(url_a, played ten_am 7)] None ""))
  = Some (played ten_am 7).
Proof.
  destruct (proj2 (record_leaves_other_entries sample_urllib noon url_b url_a
                     (played ten_am 7)
                     (sample_app 5 [(url_a, played ten_am 7)] None "")
                     ltac:(repeat constructor; simpl; intuition))
                  eq_refl) as [[_ H] | [H _]].
  - exact H.
  - discriminate H.
Defined.

(** ** Sessions *)

Lemma evict_nil max : evict_oldest max [] = [].
Proof.
  unfold evict_oldest. simpl.
  destruct (0 >? max)%Z; rewrite ?firstn_nil; reflexivity.
Qed.

Lemma strip_playable (text : string) :
  Tk.validate_url (strip text) = true -> playable (strip text) = true.
Proof.
  intros H. unfold playable. apply andb_true_iff. split; [|exact H].
  apply String.eqb_eq. exact (strip_chars_idempotent is_space text).
Qed.

(** Reading a field after an update of the object. *)

Lemma max_history_emit e st : max_history (emit e st) = max_history st.
Proof. reflexivity. Qed.

Lemma mpv_path_emit e st : mpv_path (emit e st) = mpv_path st.
Proof. reflexivity. Qed.

Lemma process_emit e st : process (emit e st) = process st.
Proof. reflexivity. Qed.

Lemma history_emit e st : history (emit e st) = history st.
Proof. reflexivity. Qed.

Lemma history_file_emit e st : history_file (emit e st) = history_file st.
Proof. reflexivity. Qed.

Lemma url_text_emit e st : url_text (emit e st) = url_text st.
Proof. reflexivity. Qed.

Lemma fullscreen_emit e st : fullscreen (emit e st) = fullscreen st.
Proof. reflexivity. Qed.

Lemma loop_emit e st : loop (emit e st) = loop st.
Proof. reflexivity. Qed.

Lemma trace_emit e st : trace (emit e st) = trace st ++ [e].
Proof. reflexivity. Qed.

Lemma max_history_with_process p st : max_history (with_process p st) = max_history st.
Proof. reflexivity. Qed.

Lemma mpv_path_with_process p st : mpv_path (with_process p st) = mpv_path st.
Proof. reflexivity. Qed.

Lemma process_with_process p st : process (with_process p st) = p.
Proof. reflexivity. Qed.

Lemma history_with_process p st : history (with_process p st) = history st.
Proof. reflexivity. Qed.

Lemma history_file_with_process p st : history_file (with_process p st) = history_file st.
Proof. reflexivity. Qed.

Lemma url_text_with_process p st : url_text (with_process p st) = url_text st.
Proof. reflexivity. Qed.

Lemma fullscreen_with_process p st : fullscreen (with_process p st) = fullscreen st.
Proof. reflexivity. Qed.

Lemma loop_with_process p st : loop (with_process p st) = loop st.
Proof. reflexivity. Qed.

Lemma trace_with_process p st : trace (with_process p st) = trace st.
Proof. reflexivity. Qed.

Lemma max_history_with_history h st : max_history (with_history h st) = max_history st.
Proof. reflexivity. Qed.

Lemma mpv_path_with_history h st : mpv_path (with_history h st) = mpv_path st.
Proof. reflexivity. Qed.

Lemma process_with_history h st : process (with_history h st) = process st.
Proof. reflexivity. Qed.

Lemma history_with_history h st : history (with_history h st) = h.
Proof. reflexivity. Qed.

Lemma history_file_with_history h st : history_file (with_history h st) = history_file st.
Proof. reflexivity. Qed.

Lemma url_text_with_history h st : url_text (with_history h st) = url_text st.
Proof. reflexivity. Qed.

Lemma fullscreen_with_history h st : fullscreen (with_history h st) = fullscreen st.
Proof. reflexivity. Qed.

Lemma loop_with_history h st : loop (with_history h st) = loop st.
Proof. reflexivity. Qed.

Lemma trace_with_history h st : trace (with_history h st) = trace st.
Proof. reflexivity. Qed.

Lemma max_history_with_history_file f st : max_history (with_history_file f st) = max_history st.
Proof. reflexivity. Qed.

Lemma mpv_path_with_history_file f st : mpv_path (with_history_file f st) = mpv_path st.
Proof. reflexivity. Qed.

Lemma process_with_history_file f st : process (with_history_file f st) = process st.
Proof. reflexivity. Qed.

Lemma history_with_history_file f st : history (with_history_file f st) = history st.
Proof. reflexivity. Qed.

Lemma history_file_with_history_file f st : history_file (with_history_file f st) = f.
Proof. reflexivity. Qed.

Lemma url_text_with_history_file f st : url_text (with_history_file f st) = url_text st.
Proof. reflexivity. Qed.

Lemma fullscreen_with_history_file f st : fullscreen (with_history_file f st) = fullscreen st.
Proof. reflexivity. Qed.

Lemma loop_with_history_file f st : loop (with_history_file f st) = loop st.
Proof. reflexivity. Qed.

Lemma trace_with_history_file f st : trace (with_history_file f st) = trace st.
Proof. reflexivity. Qed.

Lemma max_history_with_url_text t st : max_history (with_url_text t st) = max_history st.
Proof. reflexivity. Qed.

Lemma mpv_path_with_url_text t st : mpv_path (with_url_text t st) = mpv_path st.
Proof. reflexivity. Qed.

Lemma process_with_url_text t st : process (with_url_text t st) = process st.
Proof. reflexivity. Qed.

Lemma history_with_url_text t st : history (with_url_text t st) = history st.
Proof. reflexivity. Qed.

Lemma history_file_with_url_text t st : history_file (with_url_text t st) = history_file st.
Proof. reflexivity. Qed.

Lemma url_text_with_url_text t st : url_text (with_url_text t st) = t.
Proof. reflexivity. Qed.

Lemma fullscreen_with_url_text t st : fullscreen (with_url_text t st) = fullscreen st.
Proof. reflexivity. Qed.

Lemma loop_with_url_text t st : loop (with_url_text t st) = loop st.
Proof. reflexivity. Qed.

Lemma trace_with_url_text t st : trace (with_url_text t st) = trace st.
Proof. reflexivity. Qed.


Create Rewrite HintDb frame.

#[local] Hint Rewrite max_history_emit
  mpv_path_emit
  process_emit
  history_emit
  history_file_emit
  url_text_emit
  fullscreen_emit
  loop_emit
  trace_emit
  max_history_with_process
  mpv_path_with_process
  process_with_process
  history_with_process
  history_file_with_process
  url_text_with_process
  fullscreen_with_process
  loop_with_process
  trace_with_process
  max_history_with_history
  mpv_path_with_history
  process_with_history
  history_with_history
  history_file_with_history
  url_text_with_history
  fullscreen_with_history
  loop_with_history
  trace_with_history
  max_history_with_history_file
  mpv_path_with_history_file
  process_with_history_file
  history_with_history_file
  history_file_with_history_file
  url_text_with_history_file
  fullscreen_with_history_file
  loop_with_history_file
  trace_with_history_file
  max_history_with_url_text
  mpv_path_with_url_text
  process_with_url_text
  history_with_url_text
  history_file_with_url_text
  url_text_with_url_text
  fullscreen_with_url_text
  loop_with_url_text
  trace_with_url_text : frame.

Lemma save_history_frame st :
  max_history (save_history st) = max_history st /\
  history (save_history st) = evict_oldest (max_history st) (history st) /\
  history_file (save_history st)
    = Some (Document (history_to_json (history (save_history st)))) /\
  process (save_history st) = process st.
Proof. repeat split. Qed.

Lemma tk_add_file lib now url st :
  history_file (Tk.add_to_history lib now url st)
  = Some (Document
            (history_to_json (history (Tk.add_to_history lib now url st)))).
Proof. reflexivity. Qed.

Lemma qt_add_file now url st :
  history_file (Qt.add_to_history now url st)
  = Some (Document (history_to_json (history (Qt.add_to_history now url st)))).
Proof. reflexivity. Qed.

Lemma tk_add_process lib now url st :
  process (Tk.add_to_history lib now url st) = process st.
Proof. reflexivity. Qed.

Lemma qt_add_process now url st :
  process (Qt.add_to_history now url st) = process st.
Proof. reflexivity. Qed.

Lemma tk_stop_frame st :
  max_history (Tk.stop_video st) = max_history st /\
  history (Tk.stop_video st) = history st /\
  history_file (Tk.stop_video st) = history_file st.
Proof.
  unfold Tk.stop_video.
  destruct (process st) as [p|]; [destruct (terminate_raises p)|];
    repeat split.
Qed.

Lemma qt_stop_frame st :
  max_history (Qt.stop_video st) = max_history st /\
  history (Qt.stop_video st) = history st /\
  history_file (Qt.stop_video st) = history_file st.
Proof.
  unfold Qt.stop_video.
  destruct (process st) as [p|];
    [destruct (terminate_raises p);
     [|destruct (wait_5s p); [|destruct (kill_raises p)|]]|];
    repeat split.
Qed.


Ltac shape_same := left; split; reflexivity.

Lemma tk_save_settings_frame form st :
  history (Tk.save_settings form st) = history st /\
  history_file (Tk.save_settings form st) = history_file st /\
  process (Tk.save_settings form st) = process st.
Proof.
  unfold Tk.save_settings.
  destruct (form_max_history form);
    [destruct (form_save_config_raises form)|]; repeat split.
Qed.

Lemma qt_save_settings_frame form st :
  history (Qt.save_settings_dialog form st) = history st /\
  history_file (Qt.save_settings_dialog form st) = history_file st /\
  process (Qt.save_settings_dialog form st) = process st.
Proof.
  unfold Qt.save_settings_dialog.
  destruct (form_max_history form);
    [destruct (form_save_config_raises form)|]; repeat split.
Qed.

Lemma tk_play_shape lib popen now st :
  step_shape st (Tk.play_video lib popen now st).
Proof.
  unfold Tk.play_video.
  destruct (String.eqb (strip (url_text st)) ""); [shape_same|].
  destruct (Tk.validate_url (strip (url_text st))) eqn:Hv; cbn [negb];
    [|shape_same].
  destruct (tk_stop_frame st) as (Hm & Hh & Hf).
  match goal with |- context [popen ?c] => destruct (popen c) as [p|e] end.
  - right. split.
    + autorewrite with frame. rewrite tk_add_file, tk_add_history.
      reflexivity.
    + right.
      exists (Some (Tk.get_video_title lib (strip (url_text st)))), now,
        (strip (url_text st)).
      split; [apply (strip_playable _ Hv)|].
      autorewrite with frame. rewrite tk_add_history.
      autorewrite with frame. now rewrite Hm, Hh.
  - left. autorewrite with frame. split; [exact Hh | exact Hf].
Qed.

Lemma qt_play_shape popen now st :
  step_shape st (Qt.play_video popen now st).
Proof.
  unfold Qt.play_video.
  destruct (String.eqb (strip (url_text st)) ""); [shape_same|].
  destruct (Qt.validate_url (strip (url_text st))) eqn:Hv; cbn [negb];
    [|shape_same].
  assert (Hv' : Tk.validate_url (strip (url_text st)) = true)
    by (rewrite <- Hv; symmetry; apply qt_validate_as_tk).
  destruct (qt_stop_frame st) as (Hm & Hh & Hf).
  match goal with |- context [popen ?c] => destruct (popen c) as [p|e] end.
  - right. split.
    + autorewrite with frame. rewrite qt_add_file, qt_add_history.
      reflexivity.
    + right. exists None, now, (strip (url_text st)).
      split; [apply (strip_playable _ Hv')|].
      autorewrite with frame. rewrite qt_add_history.
      autorewrite with frame. now rewrite Hm, Hh.
  - left. autorewrite with frame. split; [exact Hh | exact Hf].
Qed.

Lemma tk_step_shape lib a st : step_shape st (tk_step lib a st).
Proof.
  destruct a as [text fs lp | [text | e] | selected | popen now | | | [|]
                | form];
    cbn [tk_step].
  - shape_same.
  - shape_same.
  - shape_same.
  - unfold Tk.select_history_url.
    destruct (dict_mem selected (history st)); shape_same.
  - apply tk_play_shape.
  - destruct (tk_stop_frame st) as (Hm & Hh & Hf).
    left; split; [exact Hh | exact Hf].
  - unfold Tk.check_video_status.
    destruct (process st) as [p|]; [cbn [process emit]; destruct (poll p)|];
      shape_same.
  - right. split; [reflexivity|]. left.
    apply tk_clear_history_empty.
  - shape_same.
  - destruct (tk_save_settings_frame form st) as (Hh & Hf & _).
    left; split; [exact Hh | exact Hf].
Qed.

Lemma qt_step_shape a st : step_shape st (qt_step a st).
Proof.
  destruct a as [text fs lp | [text | e] | selected | popen now | | | [|]
                | form];
    cbn [qt_step].
  - shape_same.
  - shape_same.
  - shape_same.
  - unfold Qt.select_history_url.
    destruct (dict_mem selected (history st)); shape_same.
  - apply qt_play_shape.
  - destruct (qt_stop_frame st) as (Hm & Hh & Hf).
    left; split; [exact Hh | exact Hf].
  - unfold Qt.check_video_status.
    destruct (process st) as [p|]; [cbn [process emit]; destruct (poll p)|];
      shape_same.
  - right. split; [reflexivity|]. left.
    apply tk_clear_history_empty.
  - shape_same.
  - destruct (qt_save_settings_frame form st) as (Hh & Hf & _).
    left; split; [exact Hh | exact Hf].
Qed.

(** Only the settings dialog changes the cap. *)
Lemma tk_play_max lib popen now st :
  max_history (Tk.play_video lib popen now st) = max_history st.
Proof.
  unfold Tk.play_video.
  destruct (String.eqb (strip (url_text st)) ""); [reflexivity|].
  destruct (Tk.validate_url (strip (url_text st))); cbn [negb];
    [|reflexivity].
  destruct (tk_stop_frame st) as (Hm & _).
  match goal with |- context [popen ?c] => destruct (popen c) as [p|e] end.
  - autorewrite with frame. rewrite tk_add_max.
    autorewrite with frame. exact Hm.
  - autorewrite with frame. exact Hm.
Qed.

Lemma qt_play_max popen now st :
  max_history (Qt.play_video popen now st) = max_history st.
Proof.
  unfold Qt.play_video.
  destruct (String.eqb (strip (url_text st)) ""); [reflexivity|].
  destruct (Qt.validate_url (strip (url_text st))); cbn [negb];
    [|reflexivity].
  destruct (qt_stop_frame st) as (Hm & _).
  match goal with |- context [popen ?c] => destruct (popen c) as [p|e] end.
  - autorewrite with frame. rewrite qt_add_max.
    autorewrite with frame. exact Hm.
  - autorewrite with frame. exact Hm.
Qed.

Lemma tk_step_max lib a st :
  is_settings a = false -> max_history (tk_step lib a st) = max_history st.
Proof.
  destruct a as [text fs lp | [text | e] | selected | popen now | | | [|]
                | form];
    cbn [tk_step is_settings]; intros Hs; try discriminate Hs;
    try reflexivity.
  - unfold Tk.select_history_url.
    destruct (dict_mem selected (history st)); reflexivity.
  - apply tk_play_max.
  - apply (tk_stop_frame st).
  - unfold Tk.check_video_status.
    destruct (process st) as [p|]; [cbn [process emit]; destruct (poll p)|];
      reflexivity.
Qed.

Lemma qt_step_max a st :
  is_settings a = false -> max_history (qt_step a st) = max_history st.
Proof.
  destruct a as [text fs lp | [text | e] | selected | popen now | | | [|]
                | form];
    cbn [qt_step is_settings]; intros Hs; try discriminate Hs;
    try reflexivity.
  - unfold Qt.select_history_url.
    destruct (dict_mem selected (history st)); reflexivity.
  - apply qt_play_max.
  - apply (qt_stop_frame st).
  - unfold Qt.check_video_status.
    destruct (process st) as [p|]; [cbn [process emit]; destruct (poll p)|];
      reflexivity.
Qed.

(** An invariant of the steps is an invariant of the sessions. *)
Lemma run_invariant (P : app -> Prop) (step : action -> app -> app) :
  (forall a st, P st -> P (step a st)) ->
  forall actions st, P st -> P (fold_left (fun s a => step a s) actions st).
Proof.
  intros Hstep. induction actions as [|a actions IH]; intros st H; simpl; auto.
Qed.


Lemma step_shape_in_sync st st' : step_shape st st' -> in_sync st -> in_sync st'.
Proof.
  intros Hshape [Hok Hsync].
  destruct Hshape as [[Eh Ef] | [Ef Hh]].
  - unfold in_sync. now rewrite Eh, Ef.
  - assert (Hok' : dict_ok (history st')).
    { destruct Hh as [-> | (ttl & now & url & _ & ->)]; [constructor|].
      now apply evict_ok, record_play_ok. }
    split; [exact Hok'|]. rewrite Ef. now apply json_history_roundtrip.
Qed.

(** What [__init__] builds is in sync with the file it read. *)
Lemma startup_in_sync cap mpv disk st0 :
  startup cap mpv disk = Some st0 -> in_sync st0.
Proof.
  unfold startup. intros Hstart.
  destruct (json_to_history (load_history disk)) as [h|] eqn:E;
    [|discriminate].
  injection Hstart as <-. split; [|exact E].
  eapply json_to_history_ok; eassumption.
Qed.

(** X7. Memory and disk agree throughout a session: from a state whose
    history file, read back, gives the mapping the object holds (as
    [__init__] leaves it), after any sequence of edits, pastes,
    selections, plays, stops, timer ticks, clears and saves of the
    settings, the history file read back gives exactly the mapping the
    object holds, so a restart resumes with the same history. In both
    implementations. *)
Theorem session_keeps_file_in_sync
    (lib : urllib) (st0 : app) (actions : list action) :
  json_to_history (load_history (history_file st0)) = Some (history st0) ->
  json_to_history (load_history (history_file (tk_run lib actions st0)))
    = Some (history (tk_run lib actions st0)) /\
  json_to_history (load_history (history_file (qt_run actions st0)))
    = Some (history (qt_run actions st0)).
Proof.
  intros Hsync.
  assert (H0 : in_sync st0).
  { split; [|exact Hsync]. eapply json_to_history_ok; eassumption. }
  split.
  - apply (run_invariant in_sync (tk_step lib)); [|exact H0].
    intros a st. apply step_shape_in_sync, tk_step_shape.
  - apply (run_invariant in_sync qt_step); [|exact H0].
    intros a st. apply step_shape_in_sync, qt_step_shape.
Qed.

Lemma session_keeps_file_in_sync_witness :
  json_to_history
    (load_history
       (history_file
          (qt_run [Edit url_a true false; Play always_spawns noon; Stop;
                   Settings {| form_mpv_path := "mpv";
                               form_max_history := inl 0%Z;
                               form_save_config_raises := None |};
                   Clear false] (sample_app 10 [] None ""))))
  = Some (history
            (qt_run [Edit url_a true false; Play always_spawns noon; Stop;
                     Settings {| form_mpv_path := "mpv";
                                 form_max_history := inl 0%Z;
                                 form_save_config_raises := None |};
                     Clear false] (sample_app 10 [] None ""))).
Proof.
  refine (proj2 (session_keeps_file_in_sync sample_urllib (sample_app 10 [] None "")
                   [Edit url_a true false; Play always_spawns noon; Stop;
                    Settings {| form_mpv_path := "mpv";
                                form_max_history := inl 0%Z;
                                form_save_config_raises := None |};
                    Clear false] _)).
  reflexivity.
Defined.

Lemma dict_set_in {V : Type} (k : string) (v : V) (x : string * V) (d : dict V) :
  In x (dict_set k v d) -> x = (k, v) \/ In x d.
Proof.
  induction d as [|[k' v'] d IH]; simpl.
  - intros [<- | []]. now left.
  - destruct (String.eqb_spec k' k) as [->|Hne]; simpl.
    + intros [<- | H]; auto.
    + intros [<- | H]; auto. destruct (IH H); auto.
Qed.

(** An entry of the mapping after the first half of [add_to_history] is
    an old entry, or the entry written for the URL. *)
Lemma record_play_in ttl now url h k e :
  In (k, e) (record_play ttl now url h) ->
  In (k, e) h \/
  (k = url /\
   (e = {| title := ttl; timestamp := now; play_count := 1 |} \/
    exists e0, In (url, e0) h /\
      e = {| title := title e0; timestamp := now;
             play_count := play_count e0 + 1 |})).
Proof.
  unfold record_play, dict_mem.
  destruct (dict_get url h) as [e0|] eqn:E; cbn [negb]; intros H;
    apply dict_set_in in H; destruct H as [[= -> ->] | H]; auto.
  right. split; [reflexivity|]. right. exists e0.
  split; [now apply dict_get_in | reflexivity].
Qed.



Lemma step_shape_keys st st' :
  step_shape st st' -> keys_playable st -> keys_playable st'.
Proof.
  intros Hshape Hkeys k Hk.
  destruct Hshape as [[Eh _] | [_ [Eh | (ttl & now & url & Hurl & Eh)]]];
    rewrite Eh in Hk.
  - now apply Hkeys.
  - destruct Hk.
  - unfold dict_keys in Hk. apply in_map_iff in Hk.
    destruct Hk as ([k' e] & <- & Hin). apply evict_in in Hin.
    apply record_play_in in Hin. destruct Hin as [Hin | [-> _]].
    + apply Hkeys. now apply (in_map fst) in Hin.
    + exact Hurl.
Qed.

Lemma step_shape_counts st st' :
  step_shape st st' -> counts_positive st -> counts_positive st'.
Proof.
  intros Hshape Hcounts k e Hin.
  destruct Hshape as [[Eh _] | [_ [Eh | (ttl & now & url & _ & Eh)]]];
    rewrite Eh in Hin.
  - eapply Hcounts; eassumption.
  - destruct Hin.
  - apply evict_in, record_play_in in Hin.
    destruct Hin as [Hin | [-> [-> | (e0 & Hin & ->)]]].
    + eapply Hcounts; eassumption.
    + simpl. lia.
    + simpl. pose proof (Hcounts _ _ Hin). lia.
Qed.

(** X8. The history only ever gains URLs that [play_video] accepted:
    when every key of the history at the start is stripped and accepted by
    the validator (as with no history file), so is every key after any
    sequence of actions. In both implementations. *)
Theorem session_history_keys_playable
    (lib : urllib) (actions : list action) (st0 : app) (k : string) :
  (forall k0, In k0 (dict_keys (history st0)) -> playable k0 = true) ->
  (In k (dict_keys (history (tk_run lib actions st0))) ->
     strip k = k /\ Tk.validate_url k = true) /\
  (In k (dict_keys (history (qt_run actions st0))) ->
     strip k = k /\ Qt.validate_url k = true).
Proof.
  intros H0.
  assert (G : forall st, keys_playable st ->
            In k (dict_keys (history st)) ->
            strip k = k /\ Tk.validate_url k = true).
  { intros st Hst Hk. specialize (Hst k Hk). unfold playable in Hst.
    apply andb_true_iff in Hst. destruct Hst as [Hs Hv].
    split; [now apply String.eqb_eq | exact Hv]. }
  split; intros Hk.
  - apply (G (tk_run lib actions st0)); [|exact Hk].
    apply (run_invariant keys_playable (tk_step lib)); [|exact H0].
    intros a st. apply step_shape_keys, tk_step_shape.
  - destruct (G (qt_run actions st0)) as [Hs Hv]; [|exact Hk|].
    + apply (run_invariant keys_playable qt_step); [|exact H0].
      intros a st. apply step_shape_keys, qt_step_shape.
    + split; [exact Hs|]. rewrite <- Hv. apply qt_validate_as_tk.
Qed.

Lemma session_history_keys_playable_witness :
  strip url_a = url_a /\ Qt.validate_url url_a = true.
Proof.
  refine (proj2 (session_history_keys_playable sample_urllib
                   [Edit (" " ++ url_a) true false; Play always_spawns noon]
                   (sample_app 10 [] None "") url_a _) _).
  - intros k0 [].
  - vm_compute. left. reflexivity.
Defined.

(** X10. Play counts stay positive: when every entry at the start has
    [play_count >= 1] (as with no history file), so has every entry after
    any sequence of actions. In both implementations. *)
Theorem session_play_counts_positive
    (lib : urllib) (actions : list action) (st0 : app) (k : string) (e : entry) :
  (forall k0 e0, In (k0, e0) (history st0) -> (1 <= play_count e0)%Z) ->
  (In (k, e) (history (tk_run lib actions st0)) -> (1 <= play_count e)%Z) /\
  (In (k, e) (history (qt_run actions st0)) -> (1 <= play_count e)%Z).
Proof.
  intros H0. split; intros Hin.
  - refine (run_invariant counts_positive (tk_step lib) _ actions st0 H0 k e Hin).
    intros a st. apply step_shape_counts, tk_step_shape.
  - refine (run_invariant counts_positive qt_step _ actions st0 H0 k e Hin).
    intros a st. apply step_shape_counts, qt_step_shape.
Qed.

Lemma session_play_counts_positive_witness :
  (1 <= play_count (played noon 1))%Z.
Proof.
  refine (proj2 (session_play_counts_positive sample_urllib
                   [Edit url_a true false; Play always_spawns noon]
                   (sample_app 10 [] None "") url_a (played noon 1) _) _).
  - intros k0 e0 [].
  - vm_compute. left. reflexivity.
Defined.

(** ** The trace of the process controller *)

Lemma new_events_app st st' events :
  trace st' = trace st ++ events -> new_events st st' = events.
Proof.
  intros E. unfold new_events. rewrite E, skipn_app, skipn_all.
  now rewrite Nat.sub_diag.
Qed.

Lemma mpv_command_frame st st' url :
  mpv_path st' = mpv_path st -> fullscreen st' = fullscreen st ->
  loop st' = loop st -> mpv_command st' url = mpv_command st url.
Proof. unfold mpv_command. now intros -> -> ->. Qed.

Lemma tk_stop_options st :
  mpv_path (Tk.stop_video st) = mpv_path st /\
  fullscreen (Tk.stop_video st) = fullscreen st /\
  loop (Tk.stop_video st) = loop st.
Proof.
  unfold Tk.stop_video.
  destruct (process st) as [p|]; [destruct (terminate_raises p)|];
    repeat split.
Qed.

Lemma qt_stop_options st :
  mpv_path (Qt.stop_video st) = mpv_path st /\
  fullscreen (Qt.stop_video st) = fullscreen st /\
  loop (Qt.stop_video st) = loop st.
Proof.
  unfold Qt.stop_video.
  destruct (process st) as [p|];
    [destruct (terminate_raises p);
     [|destruct (wait_5s p); [|destruct (kill_raises p)|]]|];
    repeat split.
Qed.


Lemma tk_stop_trace st :
  exists events,
    trace (Tk.stop_video st) = trace st ++ events /\ stop_events_ok st events.
Proof.
  unfold Tk.stop_video, stop_events_ok.
  destruct (process st) as [p|]; [destruct (terminate_raises p)|];
    eexists; (split; [trace_norm; reflexivity|]); simpl; auto.
Qed.

Lemma qt_stop_trace st :
  exists events,
    trace (Qt.stop_video st) = trace st ++ events /\ stop_events_ok st events.
Proof.
  unfold Qt.stop_video, stop_events_ok.
  destruct (process st) as [p|];
    [destruct (terminate_raises p);
     [|destruct (wait_5s p); [|destruct (kill_raises p)|]]|];
    eexists; (split; [trace_norm; reflexivity|]); simpl; auto.
Qed.

Lemma tk_add_trace lib now url st :
  trace (Tk.add_to_history lib now url st)
  = trace st
    ++ [WriteHistoryFile
          (history_to_json (history (Tk.add_to_history lib now url st)));
        HistoryCombo (dict_keys (history (Tk.add_to_history lib now url st)))].
Proof.
  unfold Tk.add_to_history, save_history. autorewrite with frame.
  now rewrite <- app_assoc.
Qed.

Lemma qt_add_trace now url st :
  trace (Qt.add_to_history now url st)
  = trace st
    ++ [WriteHistoryFile
          (history_to_json (history (Qt.add_to_history now url st)));
        HistoryCombo
          (Qt.placeholder :: dict_keys (history (Qt.add_to_history now url st)))].
Proof.
  unfold Qt.add_to_history, save_history. autorewrite with frame.
  now rewrite <- app_assoc.
Qed.

Lemma tk_validate_nonempty (url : string) :
  Tk.validate_url url = true -> String.eqb url "" = false.
Proof.
  intros H. apply String.eqb_neq. intros ->. discriminate H.
Qed.

(** [play_video] on an accepted URL, told by the answer of the spawn. *)
Lemma tk_play_accepted lib popen now st :
  Tk.validate_url (strip (url_text st)) = true ->
  Tk.play_video lib popen now st
  = match popen (mpv_command st (strip (url_text st))) with
    | inl p =>
        Tk.stop_video st
        |> emit (Log INFO ("Starting video playback: " ++ strip (url_text st))%string)
        |> emit (Spawn (mpv_command st (strip (url_text st))))
        |> with_process (Some p)
        |> Tk.add_to_history lib now (strip (url_text st))
        |> emit (UpdateUiState true)
        |> emit (SetStatus Playing)
    | inr e =>
        Tk.stop_video st
        |> emit (Log INFO ("Starting video playback: " ++ strip (url_text st))%string)
        |> emit (Spawn (mpv_command st (strip (url_text st))))
        |> emit (Log ERROR ("Playback error: " ++ e)%string)
        |> emit (MessageBox ShowError "Playback Error" e)
    end.
Proof.
  intros Hv. unfold Tk.play_video.
  rewrite (tk_validate_nonempty _ Hv), Hv. cbn [negb]. cbv zeta.
  destruct (tk_stop_options st) as (H1 & H2 & H3).
  rewrite (mpv_command_frame st (Tk.stop_video st) _ H1 H2 H3).
  rewrite (mpv_command_frame st
             (emit _ (emit _ (Tk.stop_video st))) _ H1 H2 H3).
  reflexivity.
Qed.

Lemma qt_play_accepted popen now st :
  Qt.validate_url (strip (url_text st)) = true ->
  Qt.play_video popen now st
  = match popen (mpv_command st (strip (url_text st))) with
    | inl p =>
        Qt.stop_video st
        |> emit (Log INFO ("Starting video playback: " ++ strip (url_text st))%string)
        |> emit (Spawn (mpv_command st (strip (url_text st))))
        |> with_process (Some p)
        |> Qt.add_to_history now (strip (url_text st))
        |> emit (UpdateUiState true)
        |> emit (SetStatus Playing)
    | inr e =>
        Qt.stop_video st
        |> emit (Log INFO ("Starting video playback: " ++ strip (url_text st))%string)
        |> emit (Spawn (mpv_command st (strip (url_text st))))
        |> emit (Log ERROR ("Playback error: " ++ e)%string)
        |> emit (MessageBox QCritical "Playback Error" e)
    end.
Proof.
  intros Hv. unfold Qt.play_video.
  assert (Hv' : Tk.validate_url (strip (url_text st)) = true)
    by (rewrite <- Hv; symmetry; apply qt_validate_as_tk).
  rewrite (tk_validate_nonempty _ Hv'), ?Hv. cbn [negb]. cbv zeta.
  destruct (qt_stop_options st) as (H1 & H2 & H3).
  rewrite (mpv_command_frame st (Qt.stop_video st) _ H1 H2 H3).
  rewrite (mpv_command_frame st
             (emit _ (emit _ (Qt.stop_video st))) _ H1 H2 H3).
  reflexivity.
Qed.

Lemma filter_none_weaken {A : Type} (f g : A -> bool) (l : list A) :
  (forall x, f x = true -> g x = true) ->
  filter g l = [] -> filter f l = [].
Proof.
  intros Hfg. induction l as [|x l IH]; simpl; [reflexivity|].
  destruct (g x) eqn:Eg; [discriminate|].
  destruct (f x) eqn:Ef; [rewrite (Hfg x Ef) in Eg; discriminate | exact IH].
Qed.

Lemma terminate_is_call e : is_terminate e = true -> is_process_call e = true.
Proof. destruct e; simpl; auto. Qed.

Lemma spawn_is_call e : is_spawn e = true -> is_process_call e = true.
Proof. destruct e; simpl; auto. Qed.

(** The events of [play_video] on an accepted URL: those of [stop_video],
    the announcement, the spawn, and then no further call on a process. *)
Lemma tk_play_events lib popen now st :
  Tk.validate_url (strip (url_text st)) = true ->
  exists stop_events rest,
    stop_events_ok st stop_events /\
    filter is_process_call rest = [] /\
    trace (Tk.play_video lib popen now st)
    = trace st ++ stop_events
      ++ Log INFO ("Starting video playback: " ++ strip (url_text st))%string
      :: Spawn (mpv_command st (strip (url_text st))) :: rest.
Proof.
  intros Hv. rewrite (tk_play_accepted lib popen now st Hv).
  destruct (tk_stop_trace st) as (stop_events & Hstop & Hok).
  exists stop_events.
  destruct (popen (mpv_command st (strip (url_text st)))) as [p|e];
    eexists; (split; [exact Hok|]); (split; [|
      autorewrite with frame; rewrite ?tk_add_trace;
      autorewrite with frame; rewrite Hstop, <- !app_assoc;
      cbn [List.app]; reflexivity]); reflexivity.
Qed.

Lemma qt_play_events popen now st :
  Qt.validate_url (strip (url_text st)) = true ->
  exists stop_events rest,
    stop_events_ok st stop_events /\
    filter is_process_call rest = [] /\
    trace (Qt.play_video popen now st)
    = trace st ++ stop_events
      ++ Log INFO ("Starting video playback: " ++ strip (url_text st))%string
      :: Spawn (mpv_command st (strip (url_text st))) :: rest.
Proof.
  intros Hv. rewrite (qt_play_accepted popen now st Hv).
  destruct (qt_stop_trace st) as (stop_events & Hstop & Hok).
  exists stop_events.
  destruct (popen (mpv_command st (strip (url_text st)))) as [p|e];
    eexists; (split; [exact Hok|]); (split; [|
      autorewrite with frame; rewrite ?qt_add_trace;
      autorewrite with frame; rewrite Hstop, <- !app_assoc;
      cbn [List.app]; reflexivity]); reflexivity.
Qed.

(** What the events of an accepted play say about terminations and
    spawns. *)
Lemma play_events_counts st stop_events start cmd rest :
  stop_events_ok st stop_events ->
  filter is_process_call rest = [] ->
  filter is_spawn (stop_events ++ Log INFO start :: Spawn cmd :: rest)
    = [Spawn cmd] /\
  filter is_terminate (stop_events ++ Log INFO start :: Spawn cmd :: rest)
    = match process st with
      | Some p => [ProcTerminate (pid p)]
      | None => []
      end /\
  (forall p, process st = Some p -> In (ProcTerminate (pid p)) stop_events).
Proof.
  intros [Hspawn Hproc] Hrest.
  rewrite !filter_app. cbn [filter is_spawn is_terminate].
  rewrite Hspawn.
  rewrite (filter_none_weaken is_spawn is_process_call rest spawn_is_call Hrest).
  rewrite (filter_none_weaken is_terminate is_process_call rest
             terminate_is_call Hrest).
  rewrite app_nil_r. split; [reflexivity|].
  destruct (process st) as [p|].
  - destruct Hproc as [Ht Hin]. split; [exact Ht|].
    now intros p0 [= <-].
  - split; [|discriminate].
    exact (filter_none_weaken is_terminate is_process_call stop_events
             terminate_is_call Hproc).
Qed.

(** X11. Switching: a play of an accepted URL requests the termination
    of the tracked process exactly once, before the one spawn of the new
    player; with nothing tracked it requests none. In both
    implementations. *)
Theorem play_video_terminates_previous_once
    (lib : urllib) (popen : list string -> Popen + string)
    (now : string) (st : app) :
  Tk.validate_url (strip (url_text st)) = true ->
  let cmd := mpv_command st (strip (url_text st)) in
  let expected :=
    match process st with
    | Some p => [ProcTerminate (pid p)]
    | None => []
    end in
  (filter is_spawn (new_events st (Tk.play_video lib popen now st))
     = [Spawn cmd] /\
   filter is_terminate (new_events st (Tk.play_video lib popen now st))
     = expected /\
   exists before rest,
     new_events st (Tk.play_video lib popen now st)
       = before ++ Spawn cmd :: rest /\
     filter is_terminate before = expected /\
     filter is_terminate rest = []) /\
  (filter is_spawn (new_events st (Qt.play_video popen now st))
     = [Spawn cmd] /\
   filter is_terminate (new_events st (Qt.play_video popen now st))
     = expected /\
   exists before rest,
     new_events st (Qt.play_video popen now st)
       = before ++ Spawn cmd :: rest /\
     filter is_terminate before = expected /\
     filter is_terminate rest = []).
Proof.
  intros Hv cmd expected.
  assert (Hq : Qt.validate_url (strip (url_text st)) = true)
    by (rewrite <- Hv; apply qt_validate_as_tk).
  assert (G : forall st', (exists stop_events rest,
              stop_events_ok st stop_events /\
              filter is_process_call rest = [] /\
              trace st'
              = trace st ++ stop_events
                ++ Log INFO ("Starting video playback: "
                             ++ strip (url_text st))%string
                :: Spawn cmd :: rest) ->
            filter is_spawn (new_events st st') = [Spawn cmd] /\
            filter is_terminate (new_events st st') = expected /\
            exists before rest,
              new_events st st' = before ++ Spawn cmd :: rest /\
              filter is_terminate before = expected /\
              filter is_terminate rest = []).
  { intros st' (stop_events & rest & Hok & Hrest & Htrace).
    rewrite (new_events_app st st' _ Htrace).
    destruct (play_events_counts st stop_events
                ("Starting video playback: " ++ strip (url_text st))%string
                cmd rest Hok Hrest) as (Hs & Ht & _).
    split; [exact Hs|]. split; [exact Ht|].
    exists (stop_events
            ++ [Log INFO ("Starting video playback: "
                          ++ strip (url_text st))%string]), rest.
    split; [now rewrite <- app_assoc|]. split.
    - rewrite filter_app, app_nil_r in *. cbn [filter is_terminate] in Ht.
      rewrite (filter_none_weaken is_terminate is_process_call rest
                 terminate_is_call Hrest), app_nil_r in Ht. exact Ht.
    - exact (filter_none_weaken is_terminate is_process_call rest
               terminate_is_call Hrest). }
  split; apply G.
  - now apply tk_play_events.
  - now apply qt_play_events.
Qed.

Lemma play_video_terminates_previous_once_witness :
  filter is_terminate
    (new_events (sample_app 10 [] (Some stubborn) url_a)
       (Qt.play_video always_spawns noon
          (sample_app 10 [] (Some stubborn) url_a)))
  = [ProcTerminate 4242].
Proof.
  refine (proj1 (proj2 (proj2
            (play_video_terminates_previous_once sample_urllib always_spawns
               noon (sample_app 10 [] (Some stubborn) url_a) _)))).
  reflexivity.
Defined.

(** X12. A play that starts the player tracks the new process whatever
    became of the old one (the old handle is dropped even when its
    termination raised), records the URL, leaves the file in step with
    the store, and ends with the interface in the playing state. *)
Theorem play_video_success
    (lib : urllib) (popen : list string -> Popen + string)
    (now : string) (st : app) (p : Popen) :
  Tk.validate_url (strip (url_text st)) = true ->
  popen (mpv_command st (strip (url_text st))) = inl p ->
  let url := strip (url_text st) in
  let tk := Tk.play_video lib popen now st in
  let qt := Qt.play_video popen now st in
  (process tk = Some p /\
   history tk
     = evict_oldest (max_history st)
         (record_play (Some (Tk.get_video_title lib url)) now url (history st)) /\
   history_file tk = Some (Document (history_to_json (history tk))) /\
   exists events,
     trace tk = events ++ [UpdateUiState true; SetStatus Playing]) /\
  (process qt = Some p /\
   history qt
     = evict_oldest (max_history st) (record_play None now url (history st)) /\
   history_file qt = Some (Document (history_to_json (history qt))) /\
   exists events,
     trace qt = events ++ [UpdateUiState true; SetStatus Playing]).
Proof.
  intros Hv Hp url tk qt. subst url tk qt.
  assert (Hq : Qt.validate_url (strip (url_text st)) = true)
    by (rewrite <- Hv; apply qt_validate_as_tk).
  rewrite (tk_play_accepted lib popen now st Hv),
          (qt_play_accepted popen now st Hq), Hp.
  destruct (tk_stop_frame st) as (Tm & Th & _).
  destruct (qt_stop_frame st) as (Qm & Qh & _).
  split.
  - autorewrite with frame.
    rewrite tk_add_process, tk_add_history, tk_add_file, tk_add_history.
    autorewrite with frame. rewrite Tm, Th.
    repeat split. eexists. rewrite <- app_assoc. reflexivity.
  - autorewrite with frame.
    rewrite qt_add_process, qt_add_history, qt_add_file, qt_add_history.
    autorewrite with frame. rewrite Qm, Qh.
    repeat split. eexists. rewrite <- app_assoc. reflexivity.
Qed.

Lemma play_video_success_witness :
  process (Tk.play_video sample_urllib always_spawns noon
             (sample_app 10 [] (Some denied) url_a))
  = Some obedient.
Proof.
  refine (proj1 (proj1
            (play_video_success sample_urllib always_spawns noon
               (sample_app 10 [] (Some denied) url_a) obedient _ _)));
    reflexivity.
Defined.

(** X13. A play whose spawn fails records nothing: history and file are
    as before, the failure is logged and shown, and the process handle is
    the one [stop_video] left, so the previous playback has been stopped
    although nothing new plays. *)
Theorem play_video_failed_spawn
    (lib : urllib) (popen : list string -> Popen + string)
    (now : string) (st : app) (e : string) :
  Tk.validate_url (strip (url_text st)) = true ->
  popen (mpv_command st (strip (url_text st))) = inr e ->
  let cmd := mpv_command st (strip (url_text st)) in
  let start :=
    Log INFO ("Starting video playback: " ++ strip (url_text st))%string in
  let failed := Log ERROR ("Playback error: " ++ e)%string in
  let tk := Tk.play_video lib popen now st in
  let qt := Qt.play_video popen now st in
  (process tk = process (Tk.stop_video st) /\
   history tk = history st /\ history_file tk = history_file st /\
   new_events (Tk.stop_video st) tk
     = [start; Spawn cmd; failed; MessageBox ShowError "Playback Error" e] /\
   (forall p, process st = Some p -> terminate_raises p = None ->
      process tk = None)) /\
  (process qt = process (Qt.stop_video st) /\
   history qt = history st /\ history_file qt = history_file st /\
   new_events (Qt.stop_video st) qt
     = [start; Spawn cmd; failed; MessageBox QCritical "Playback Error" e] /\
   (forall p, process st = Some p -> terminate_raises p = None ->
      wait_5s p = WaitReturns \/
      (wait_5s p = WaitTimeoutExpired /\ kill_raises p = None) ->
      process qt = None)).
Proof.
  intros Hv Hp cmd start failed tk qt. subst cmd start failed tk qt.
  assert (Hq : Qt.validate_url (strip (url_text st)) = true)
    by (rewrite <- Hv; apply qt_validate_as_tk).
  rewrite (tk_play_accepted lib popen now st Hv),
          (qt_play_accepted popen now st Hq), Hp.
  destruct (tk_stop_frame st) as (_ & Th & Tf).
  destruct (qt_stop_frame st) as (_ & Qh & Qf).
  split.
  - autorewrite with frame. rewrite Th, Tf.
    split; [reflexivity|]. split; [reflexivity|]. split; [reflexivity|].
    split.
    + apply new_events_app. autorewrite with frame.
      rewrite <- !app_assoc. reflexivity.
    + intros p Hproc Hterm. unfold Tk.stop_video. rewrite Hproc.
      cbn [process emit]. rewrite Hterm. reflexivity.
  - autorewrite with frame. rewrite Qh, Qf.
    split; [reflexivity|]. split; [reflexivity|]. split; [reflexivity|].
    split.
    + apply new_events_app. autorewrite with frame.
      rewrite <- !app_assoc. reflexivity.
    + intros p Hproc Hterm Hwait. unfold Qt.stop_video. rewrite Hproc.
      cbn [process emit]. rewrite Hterm.
      destruct Hwait as [-> | [-> ->]]; reflexivity.
Qed.

Lemma play_video_failed_spawn_witness :
  process (Qt.play_video (fun _ => inr "[WinError 2] file not found"%string)
             noon (sample_app 10 [] (Some obedient) url_a))
  = None.
Proof.
  refine (proj2 (proj2 (proj2 (proj2 (proj2
            (play_video_failed_spawn sample_urllib
               (fun _ => inr "[WinError 2] file not found"%string) noon
               (sample_app 10 [] (Some obedient) url_a)
               "[WinError 2] file not found" _ _)))))
            obedient _ _ _);
    try reflexivity.
  left. reflexivity.
Defined.

Lemma mpv_command_last st url : last (mpv_command st url) EmptyString = url.
Proof.
  unfold mpv_command. destruct (fullscreen st), (loop st); reflexivity.
Qed.

(** The events of a step other than a play: no spawn, and with no
    process tracked no call on a process at all. *)
Ltac events_norm :=
  cbn [trace emit with_process with_history with_history_file with_url_text
       with_options with_mpv_path with_max_history process history
       history_file max_history];
  rewrite <- ?app_assoc; cbn [List.app].

Lemma tk_quiet_step lib a st :
  is_play a = false ->
  exists events,
    trace (tk_step lib a st) = trace st ++ events /\
    filter is_spawn events = [] /\
    (process st = None ->
       process (tk_step lib a st) = None /\
       filter is_process_call events = []).
Proof.
  destruct a as [text fs lp | [text | e] | selected | popen now | | | [|]
                | form];
    cbn [tk_step is_play]; intros Hplay; try discriminate.
  - exists []. rewrite app_nil_r. repeat split; auto.
  - eexists. split; [unfold Tk.paste_url; events_norm; reflexivity|].
    repeat split; auto.
  - eexists. split; [unfold Tk.paste_url; events_norm; reflexivity|].
    repeat split; auto.
  - unfold Tk.select_history_url.
    destruct (dict_mem selected (history st)).
    + eexists. split; [events_norm; reflexivity|]. repeat split; auto.
    + exists []. rewrite app_nil_r. repeat split; auto.
  - destruct (tk_stop_trace st) as (events & Htrace & Hspawn & Hproc).
    exists events. split; [exact Htrace|]. split; [exact Hspawn|].
    intros Hnone. rewrite Hnone in Hproc. split; [|exact Hproc].
    unfold Tk.stop_video. rewrite Hnone. exact Hnone.
  - unfold Tk.check_video_status.
    destruct (process st) as [p|] eqn:Hp.
    + cbn [process emit]. destruct (poll p);
        eexists; (split; [events_norm; reflexivity|]);
        (split; [reflexivity|]); intros Hnone; discriminate.
    + eexists. split; [events_norm; reflexivity|]. split; [reflexivity|].
      intros _. split; [exact Hp | reflexivity].
  - eexists. split.
    + unfold Tk.clear_history, save_history. autorewrite with frame.
      rewrite <- !app_assoc. reflexivity.
    + split; [reflexivity|]. intros Hnone. split; [exact Hnone | reflexivity].
  - exists []. rewrite app_nil_r. repeat split; auto.
  - unfold Tk.save_settings.
    destruct (form_max_history form);
      [destruct (form_save_config_raises form)|];
      (eexists; split; [events_norm; reflexivity|]); repeat split; auto.
Qed.

Lemma qt_quiet_step a st :
  is_play a = false ->
  exists events,
    trace (qt_step a st) = trace st ++ events /\
    filter is_spawn events = [] /\
    (process st = None ->
       process (qt_step a st) = None /\
       filter is_process_call events = []).
Proof.
  destruct a as [text fs lp | [text | e] | selected | popen now | | | [|]
                | form];
    cbn [qt_step is_play]; intros Hplay; try discriminate.
  - exists []. rewrite app_nil_r. repeat split; auto.
  - eexists. split; [unfold Qt.paste_url; events_norm; reflexivity|].
    repeat split; auto.
  - eexists. split; [unfold Qt.paste_url; events_norm; reflexivity|].
    repeat split; auto.
  - unfold Qt.select_history_url.
    destruct (dict_mem selected (history st)).
    + eexists. split; [events_norm; reflexivity|]. repeat split; auto.
    + exists []. rewrite app_nil_r. repeat split; auto.
  - destruct (qt_stop_trace st) as (events & Htrace & Hspawn & Hproc).
    exists events. split; [exact Htrace|]. split; [exact Hspawn|].
    intros Hnone. rewrite Hnone in Hproc. split; [|exact Hproc].
    unfold Qt.stop_video. rewrite Hnone. exact Hnone.
  - unfold Qt.check_video_status.
    destruct (process st) as [p|] eqn:Hp.
    + cbn [process emit]. destruct (poll p);
        eexists; (split; [events_norm; reflexivity|]);
        (split; [reflexivity|]); intros Hnone; discriminate.
    + exists []. rewrite app_nil_r. repeat split; auto.
  - eexists. split.
    + unfold Qt.clear_history, save_history. autorewrite with frame.
      rewrite <- !app_assoc. reflexivity.
    + split; [reflexivity|]. intros Hnone. split; [exact Hnone | reflexivity].
  - exists []. rewrite app_nil_r. repeat split; auto.
  - unfold Qt.save_settings_dialog.
    destruct (form_max_history form);
      [destruct (form_save_config_raises form)|];
      (eexists; split; [events_norm; reflexivity|]); repeat split; auto.
Qed.

(** The events of a rejected play. *)
Lemma tk_play_rejected lib popen now st :
  Tk.validate_url (strip (url_text st)) = false ->
  exists events,
    trace (Tk.play_video lib popen now st) = trace st ++ events /\
    filter is_process_call events = [].
Proof.
  intros Hv. unfold Tk.play_video. rewrite Hv. cbn [negb].
  destruct (String.eqb (strip (url_text st)) "");
    eexists; (split; [trace_norm; reflexivity | reflexivity]).
Qed.

Lemma qt_play_rejected popen now st :
  Qt.validate_url (strip (url_text st)) = false ->
  exists events,
    trace (Qt.play_video popen now st) = trace st ++ events /\
    filter is_process_call events = [].
Proof.
  intros Hv. unfold Qt.play_video. rewrite ?Hv. cbn [negb].
  destruct (String.eqb (strip (url_text st)) "");
    eexists; (split; [trace_norm; reflexivity | reflexivity]).
Qed.

(** The spawns of one step: none, or the single spawn of a play on an
    accepted URL. *)
Lemma step_spawns st st' (is_a_play : bool) :
  (is_a_play = false ->
     exists events,
       trace st' = trace st ++ events /\ filter is_spawn events = []) ->
  (is_a_play = true -> Tk.validate_url (strip (url_text st)) = false ->
     exists events,
       trace st' = trace st ++ events /\
       filter is_process_call events = []) ->
  (is_a_play = true -> Tk.validate_url (strip (url_text st)) = true ->
     exists stop_events rest,
       stop_events_ok st stop_events /\
       filter is_process_call rest = [] /\
       trace st'
       = trace st ++ stop_events
         ++ Log INFO ("Starting video playback: " ++ strip (url_text st))%string
         :: Spawn (mpv_command st (strip (url_text st))) :: rest) ->
  forall cmd, In (Spawn cmd) (new_events st st') ->
    Tk.validate_url (strip (url_text st)) = true /\
    cmd = mpv_command st (strip (url_text st)).
Proof.
  intros Hquiet Hrej Hacc cmd Hin.
  assert (Hfilter : forall events,
            trace st' = trace st ++ events ->
            In (Spawn cmd) (filter is_spawn events)).
  { intros events E. rewrite (new_events_app st st' events E) in Hin.
    apply filter_In. split; [exact Hin | reflexivity]. }
  destruct is_a_play.
  - destruct (Tk.validate_url (strip (url_text st))) eqn:Hv.
    + split; [reflexivity|].
      destruct (Hacc eq_refl eq_refl) as (stop_events & rest & Hok & Hrest & E).
      specialize (Hfilter _ E).
      destruct (play_events_counts st stop_events
                  ("Starting video playback: " ++ strip (url_text st))%string
                  (mpv_command st (strip (url_text st))) rest Hok Hrest)
        as (Hs & _).
      rewrite Hs in Hfilter. destruct Hfilter as [[= <-] | []]. reflexivity.
    + destruct (Hrej eq_refl eq_refl) as (events & E & Hnone).
      specialize (Hfilter _ E).
      rewrite (filter_none_weaken is_spawn is_process_call events
                 spawn_is_call Hnone) in Hfilter. destruct Hfilter.
  - destruct (Hquiet eq_refl) as (events & E & Hnone).
    specialize (Hfilter _ E). rewrite Hnone in Hfilter. destruct Hfilter.
Qed.

Lemma tk_step_spawns lib a st cmd :
  In (Spawn cmd) (new_events st (tk_step lib a st)) ->
  Tk.validate_url (strip (url_text st)) = true /\
  cmd = mpv_command st (strip (url_text st)).
Proof.
  apply (step_spawns st (tk_step lib a st) (is_play a)).
  - intros Hq. destruct (tk_quiet_step lib a st Hq) as (ev & E & Hs & _).
    eauto.
  - destruct a; cbn [is_play tk_step]; try discriminate.
    intros _. apply tk_play_rejected.
  - destruct a; cbn [is_play tk_step]; try discriminate.
    intros _. apply tk_play_events.
Qed.

Lemma qt_step_spawns a st cmd :
  In (Spawn cmd) (new_events st (qt_step a st)) ->
  Tk.validate_url (strip (url_text st)) = true /\
  cmd = mpv_command st (strip (url_text st)).
Proof.
  apply (step_spawns st (qt_step a st) (is_play a)).
  - intros Hq. destruct (qt_quiet_step a st Hq) as (ev & E & Hs & _).
    eauto.
  - destruct a; cbn [is_play qt_step]; try discriminate.
    intros _ Hv. apply qt_play_rejected.
    rewrite <- Hv. apply qt_validate_as_tk.
  - destruct a; cbn [is_play qt_step]; try discriminate.
    intros _ Hv. apply qt_play_events.
    rewrite <- Hv. apply qt_validate_as_tk.
Qed.

(** X15. Whatever the action, a step starts the player at most with the
    command built from the stripped URL of the field, and only when the
    validator accepted that URL: the URL is the last argument and begins
    with [h], [w] or [y], so the player cannot take it for an option. In
    both implementations. *)
Theorem step_spawns_only_accepted_url
    (lib : urllib) (a : action) (st : app) (cmd : list string) :
  In (Spawn cmd) (new_events st (tk_step lib a st)) \/
  In (Spawn cmd) (new_events st (qt_step a st)) ->
  let url := strip (url_text st) in
  cmd = mpv_command st url /\ last cmd EmptyString = url /\
  Tk.validate_url url = true /\ Qt.validate_url url = true /\
  exists c rest,
    url = String c rest /\ (c = "h" \/ c = "w" \/ c = "y")%char.
Proof.
  intros Hin url. subst url.
  assert (G : Tk.validate_url (strip (url_text st)) = true /\
              cmd = mpv_command st (strip (url_text st))).
  { destruct Hin as [Hin | Hin];
      [exact (tk_step_spawns lib a st cmd Hin)
      | exact (qt_step_spawns a st cmd Hin)]. }
  destruct G as [Hv ->].
  split; [reflexivity|]. split; [apply mpv_command_last|].
  split; [exact Hv|]. split; [rewrite <- Hv; apply qt_validate_as_tk|].
  now apply tk_validate_first_char.
Qed.

Lemma step_spawns_only_accepted_url_witness :
  last (mpv_command (sample_app 10 [] None (" " ++ url_a)) url_a) EmptyString
  = strip (url_text (sample_app 10 [] None (" " ++ url_a))).
Proof.
  refine (proj1 (proj2
            (step_spawns_only_accepted_url sample_urllib
               (Play always_spawns noon)
               (sample_app 10 [] None (" " ++ url_a))
               (mpv_command (sample_app 10 [] None (" " ++ url_a)) url_a) _))).
  left. vm_compute. do 3 right. left. reflexivity.
Defined.

(** Sessions without a play, from a state with no process tracked. *)
Lemma quiet_run (step : action -> app -> app) :
  (forall a st, is_play a = false ->
     exists events,
       trace (step a st) = trace st ++ events /\
       filter is_spawn events = [] /\
       (process st = None ->
          process (step a st) = None /\
          filter is_process_call events = [])) ->
  forall actions st,
    forallb (fun a => negb (is_play a)) actions = true ->
    process st = None ->
    process (fold_left (fun s a => step a s) actions st) = None /\
    exists events,
      trace (fold_left (fun s a => step a s) actions st) = trace st ++ events /\
      filter is_process_call events = [].
Proof.
  intros Hstep. induction actions as [|a actions IH]; intros st Hall Hnone.
  - simpl. split; [exact Hnone|]. exists []. now rewrite app_nil_r.
  - simpl in Hall. apply andb_true_iff in Hall. destruct Hall as [Ha Hall].
    apply negb_true_iff in Ha.
    destruct (Hstep a st Ha) as (ev1 & E1 & _ & Hq).
    destruct (Hq Hnone) as [Hnone1 Hcalls1].
    destruct (IH (step a st) Hall Hnone1) as [Hnone2 (ev2 & E2 & Hcalls2)].
    cbn [fold_left]. split; [exact Hnone2|].
    exists (ev1 ++ ev2). split.
    + rewrite E2, E1. now rewrite app_assoc.
    + now rewrite filter_app, Hcalls1, Hcalls2.
Qed.

(** X14. Only a play touches a process when none is tracked: in a
    session without plays that starts with no process tracked, no call on
    any process is made (no spawn, terminate, wait, kill or poll) and none
    is tracked at the end. In both implementations. *)
Theorem session_without_play_calls_no_process
    (lib : urllib) (actions : list action) (st : app) :
  forallb (fun a => negb (is_play a)) actions = true ->
  process st = None ->
  (process (tk_run lib actions st) = None /\
   filter is_process_call (new_events st (tk_run lib actions st)) = []) /\
  (process (qt_run actions st) = None /\
   filter is_process_call (new_events st (qt_run actions st)) = []).
Proof.
  intros Hall Hnone. split.
  - destruct (quiet_run (tk_step lib) (tk_quiet_step lib) actions st Hall Hnone)
      as [Hp (events & E & Hcalls)].
    split; [exact Hp|].
    unfold tk_run. now rewrite (new_events_app _ _ _ E).
  - destruct (quiet_run qt_step qt_quiet_step actions st Hall Hnone)
      as [Hp (events & E & Hcalls)].
    split; [exact Hp|].
    unfold qt_run. now rewrite (new_events_app _ _ _ E).
Qed.

Lemma session_without_play_calls_no_process_witness :
  filter is_process_call
    (new_events (sample_app 10 [] None "")
       (tk_run sample_urllib [Stop; Tick; Clear true; Select url_a; Stop]
               (sample_app 10 [] None "")))
  = [].
Proof.
  refine (proj2 (proj1
            (session_without_play_calls_no_process sample_urllib
               [Stop; Tick; Clear true; Select url_a; Stop]
               (sample_app 10 [] None "") _ _)));
    reflexivity.
Defined.

(** X9. What the history lists can be replayed: when the keys at the
    start are playable, then after any sequence of actions, selecting a
    key of the history and pressing play is not rejected but starts the
    player on that key. In both implementations. *)
Theorem selected_history_url_plays
    (lib : urllib) (popen : list string -> Popen + string) (now : string)
    (actions : list action) (st0 : app) (k : string) :
  (forall k0, In k0 (dict_keys (history st0)) -> playable k0 = true) ->
  (let st := tk_run lib actions st0 in
   dict_mem k (history st) = true ->
   filter is_spawn
     (new_events st (Tk.play_video lib popen now (Tk.select_history_url k st)))
   = [Spawn (mpv_command st k)]) /\
  (let st := qt_run actions st0 in
   dict_mem k (history st) = true ->
   filter is_spawn
     (new_events st (Qt.play_video popen now (Qt.select_history_url k st)))
   = [Spawn (mpv_command st k)]).
Proof.
  intros H0.
  assert (G : forall st st',
            keys_playable st -> dict_mem k (history st) = true ->
            (forall sel,
               Tk.validate_url (strip (url_text sel)) = true ->
               exists stop_events rest,
                 stop_events_ok sel stop_events /\
                 filter is_process_call rest = [] /\
                 trace (st' sel)
                 = trace sel ++ stop_events
                   ++ Log INFO ("Starting video playback: "
                                ++ strip (url_text sel))%string
                   :: Spawn (mpv_command sel (strip (url_text sel))) :: rest) ->
            filter is_spawn
              (new_events st
                 (st' (emit (Log INFO "Selected URL from history")
                         (with_url_text k st))))
            = [Spawn (mpv_command st k)]).
  { intros st st' Hkeys Hmem Hplay.
    assert (Hk : playable k = true) by (apply Hkeys; now apply dict_mem_in).
    unfold playable in Hk. apply andb_true_iff in Hk. destruct Hk as [Hs Hv].
    apply String.eqb_eq in Hs.
    set (sel := emit (Log INFO "Selected URL from history")
                  (with_url_text k st)).
    assert (Hurl : strip (url_text sel) = k) by exact Hs.
    destruct (Hplay sel) as (stop_events & rest & Hok & Hrest & E).
    { now rewrite Hurl. }
    rewrite Hurl in E.
    assert (Hcmd : mpv_command sel k = mpv_command st k) by reflexivity.
    rewrite Hcmd in E.
    assert (E' : trace (st' sel)
                 = trace st
                   ++ Log INFO "Selected URL from history"
                   :: stop_events
                   ++ Log INFO ("Starting video playback: " ++ k)%string
                   :: Spawn (mpv_command st k) :: rest).
    { rewrite E. unfold sel. autorewrite with frame.
      now rewrite <- app_assoc. }
    rewrite (new_events_app _ _ _ E'). cbn [filter is_spawn].
    destruct (play_events_counts sel stop_events
                ("Starting video playback: " ++ k)%string
                (mpv_command st k) rest Hok Hrest) as (Hspawn & _).
    exact Hspawn. }
  split; intros st Hmem; subst st.
  - unfold Tk.select_history_url. rewrite Hmem.
    apply (G _ (Tk.play_video lib popen now)); [|exact Hmem|].
    + apply (run_invariant keys_playable (tk_step lib)); [|exact H0].
      intros a st. apply step_shape_keys, tk_step_shape.
    + intros sel. apply tk_play_events.
  - unfold Qt.select_history_url. rewrite Hmem.
    apply (G _ (Qt.play_video popen now)); [|exact Hmem|].
    + apply (run_invariant keys_playable qt_step); [|exact H0].
      intros a st. apply step_shape_keys, qt_step_shape.
    + intros sel Hv. apply qt_play_events.
      rewrite <- Hv. apply qt_validate_as_tk.
Qed.

Lemma selected_history_url_plays_witness :
  filter is_spawn
    (new_events
       (qt_run [Edit url_a false true; Play always_spawns ten_am; Stop]
               (sample_app 10 [] None ""))
       (Qt.play_video always_spawns noon
          (Qt.select_history_url url_a
             (qt_run [Edit url_a false true; Play always_spawns ten_am; Stop]
                     (sample_app 10 [] None "")))))
  = [Spawn (mpv_command
              (qt_run [Edit url_a false true; Play always_spawns ten_am; Stop]
                      (sample_app 10 [] None "")) url_a)].
Proof.
  refine (proj2 (selected_history_url_plays sample_urllib always_spawns noon
                   [Edit url_a false true; Play always_spawns ten_am; Stop]
                   (sample_app 10 [] None "") url_a _) _).
  - intros k0 [].
  - vm_compute. reflexivity.
Defined.

(** ** The updater *)

(** X16. The updater only ever logs, at level INFO or WARNING. The
    Tkinter implementation reports success exactly when the updater ran
    and returned code 0; the PyQt6 implementation reports success
    whenever the updater ran to its end, whatever code it returned. *)
Theorem updater_logs_and_reports (ytdlp_path : string) (env : updater_env) :
  forallb is_log (Tk.run_update ytdlp_path env) = true /\
  forallb is_log (Qt.update ytdlp_path env) = true /\
  (forall msg, ~ In (Log ERROR msg) (Tk.run_update ytdlp_path env) /\
               ~ In (Log ERROR msg) (Qt.update ytdlp_path env)) /\
  (updater_reports_success (Tk.run_update ytdlp_path env) = true <->
     ytdlp_exists env = true /\ ytdlp_popen_raises env = None /\
     ytdlp_communicate env = Finished 0) /\
  (updater_reports_success (Qt.update ytdlp_path env) = true <->
     ytdlp_exists env = true /\ ytdlp_popen_raises env = None /\
     exists returncode, ytdlp_communicate env = Finished returncode).
Proof.
  unfold Tk.run_update, Qt.update.
  destruct env as [ex pr cm]. cbn [ytdlp_exists ytdlp_popen_raises ytdlp_communicate].
  destruct ex; cbn [negb];
    [destruct pr as [e|];
     [|destruct cm as [code | e | e];
       [destruct (Z.eqb_spec code 0) as [->|Hcode]| |]]|].
  all: split; [reflexivity|]; split; [reflexivity|].
  all: split; [intros msg; split; simpl; intuition discriminate|].
  all: split; (split; [intros H; try discriminate H | intros (H1 & H2 & H3)]).
  all: try discriminate.
  all: try (destruct H3 as (rc & H3); discriminate).
  all: try (repeat split; eauto; fail).
  all: try reflexivity.
  injection H3 as ->. contradiction.
Qed.

(** ** Clearing *)

(** X17. A confirmed clear empties the store and writes an empty
    document, whatever the cap, so that the file read back is the empty
    mapping; a second clear changes neither; a clear that is not
    confirmed changes nothing at all. In both implementations. *)
Theorem clear_history_empties (st : app) :
  (history (Tk.clear_history true st) = [] /\
   history_file (Tk.clear_history true st) = Some (Document (JDict [])) /\
   json_to_history (load_history (history_file (Tk.clear_history true st)))
     = Some [] /\
   history (Tk.clear_history true (Tk.clear_history true st)) = [] /\
   history_file (Tk.clear_history true (Tk.clear_history true st))
     = history_file (Tk.clear_history true st) /\
   Tk.clear_history false st = st) /\
  (history (Qt.clear_history true st) = [] /\
   history_file (Qt.clear_history true st) = Some (Document (JDict [])) /\
   json_to_history (load_history (history_file (Qt.clear_history true st)))
     = Some [] /\
   history (Qt.clear_history true (Qt.clear_history true st)) = [] /\
   history_file (Qt.clear_history true (Qt.clear_history true st))
     = history_file (Qt.clear_history true st) /\
   Qt.clear_history false st = st).
Proof.
  assert (Tf : forall s,
            history_file (Tk.clear_history true s)
            = Some (Document (history_to_json
                                (history (Tk.clear_history true s)))))
    by reflexivity.
  assert (Qf : forall s,
            history_file (Qt.clear_history true s)
            = Some (Document (history_to_json
                                (history (Qt.clear_history true s)))))
    by reflexivity.
  assert (Th : forall s, history (Tk.clear_history true s) = [])
    by (intros s; apply tk_clear_history_empty).
  assert (Qh : forall s, history (Qt.clear_history true s) = [])
    by (intros s; apply tk_clear_history_empty).
  rewrite !Tf, !Qf, !Th, !Qh. repeat split.
Qed.

(** ** The cap throughout a session *)

Lemma step_shape_cap st st' :
  step_shape st st' -> max_history st' = max_history st ->
  within_cap st -> within_cap st'.
Proof.
  intros Hshape Hm [Hok Hcap]. unfold within_cap. rewrite Hm.
  destruct Hshape as [[Eh _] | [_ [Eh | (ttl & now & url & _ & Eh)]]];
    rewrite Eh.
  - now split.
  - split; [constructor | simpl; lia].
  - split.
    + now apply evict_ok, record_play_ok.
    + apply evict_length; [now apply record_play_ok | lia].
Qed.

Lemma run_within_cap (step : action -> app -> app) :
  (forall a st, step_shape st (step a st)) ->
  (forall a st, is_settings a = false ->
                max_history (step a st) = max_history st) ->
  forall actions st,
    forallb (fun a => negb (is_settings a)) actions = true ->
    within_cap st ->
    max_history (fold_left (fun s a => step a s) actions st) = max_history st /\
    within_cap (fold_left (fun s a => step a s) actions st).
Proof.
  intros Hshape Hmax. induction actions as [|a actions IH]; intros st Hall H.
  - split; [reflexivity | exact H].
  - cbn [forallb] in Hall. apply andb_true_iff in Hall.
    destruct Hall as [Ha Hall]. apply negb_true_iff in Ha.
    cbn [fold_left].
    destruct (IH (step a st) Hall) as [Em Hc].
    + apply (step_shape_cap st); [apply Hshape | now apply Hmax | exact H].
    + split; [|exact Hc]. rewrite Em. now apply Hmax.
Qed.

(** X18. A session without a save of the settings stays within the cap:
    from a state whose history is a dict of at most [max_history]
    entries, any sequence of edits, pastes, selections, plays, stops,
    timer ticks and clears leaves the cap as it was and the history
    within it. A save of the settings whose number parses assigns the new
    cap and leaves the history as it is, whatever its size: nothing is
    trimmed before the next recording. In both implementations. *)
Theorem session_stays_within_cap
    (lib : urllib) (st0 : app) (actions : list action) :
  dict_ok (history st0) ->
  (Z.of_nat (List.length (history st0)) <= max_history st0)%Z ->
  forallb (fun a => negb (is_settings a)) actions = true ->
  (max_history (tk_run lib actions st0) = max_history st0 /\
   (Z.of_nat (List.length (history (tk_run lib actions st0)))
    <= max_history st0)%Z) /\
  (max_history (qt_run actions st0) = max_history st0 /\
   (Z.of_nat (List.length (history (qt_run actions st0)))
    <= max_history st0)%Z) /\
  (forall form n,
     form_max_history form = inl n ->
     max_history (Tk.save_settings form st0) = n /\
     history (Tk.save_settings form st0) = history st0 /\
     max_history (Qt.save_settings_dialog form st0) = n /\
     history (Qt.save_settings_dialog form st0) = history st0).
Proof.
  intros Hok Hcap Hall.
  assert (H0 : within_cap st0) by (split; assumption).
  split; [|split].
  - destruct (run_within_cap (tk_step lib) (tk_step_shape lib)
                (tk_step_max lib) actions st0 Hall H0) as [Em [_ Hc]].
    unfold tk_run. split; [exact Em | now rewrite <- Em].
  - destruct (run_within_cap qt_step qt_step_shape qt_step_max
                actions st0 Hall H0) as [Em [_ Hc]].
    unfold qt_run. split; [exact Em | now rewrite <- Em].
  - intros form n Hn. unfold Tk.save_settings, Qt.save_settings_dialog.
    rewrite Hn. destruct (form_save_config_raises form); repeat split.
Qed.

Lemma session_stays_within_cap_witness :
  (Z.of_nat
     (List.length
        (history
           (qt_run [Edit url_a true false; Play always_spawns ten_am;
                    Edit url_b true false; Play always_spawns noon]
              (sample_app 1 [] None ""))))
   <= 1)%Z.
Proof.
  refine (proj2 (proj1 (proj2 (session_stays_within_cap sample_urllib
                   (sample_app 1 [] None "")
                   [Edit url_a true false; Play always_spawns ten_am;
                    Edit url_b true false; Play always_spawns noon]
                   _ _ _)))).
  - constructor.
  - simpl. lia.
  - reflexivity.
Defined.
